(** * A shallow embedding of the finite-automaton engine (class [Automaton])

    The engine lives in the JavaScript class [Automaton] (model API,
    epsilon-closure, simulation, subset construction, partition refinement,
    serialization) and in [AutomatonSimulator.isDeterministic].

    Conventions of the embedding.
    - A JavaScript string is a [string]; a state name and a transition
      symbol are strings.  The epsilon symbol is the constant [eps].
    - An input string is the list of its symbols, one list element per
      [input[i]]; [input.substring(i)] is [drop i input].
    - A JavaScript [Set] is the list of its members in insertion order
      (that is the order in which a [Set] is iterated); the operations
      [set_add], [set_delete], [set_has] keep it free of duplicates.
    - A plain object used as a dictionary ([transitions], [stateMap]) is a
      [gmap]; a lookup is a lookup of an own property.  [null] and
      [undefined] are [None].  The object of the source also answers a
      lookup with what it inherits from [Object.prototype]: the maps stand
      for the objects where no key is one of [inherited_names] and nothing
      has been added to [Object.prototype] or to the objects it holds.
      The hypotheses [own_source], [own_rows] and [own_names] of a
      statement ask that of the keys that its code writes, walks with
      [for (... in ...)] or looks up in [stateMap].
    - [this.type] is the index [k] of [Automaton k]: the table of a DFA maps
      a symbol to one state name, the table of an NFA maps it to a [Set].
    - A [while] loop whose number of rounds is not bounded by the size of a
      list it walks takes a fuel argument and answers [None] when the fuel
      runs out.
    - The methods are functions of the value of an automaton.  Where a
      statement is about the objects that a call changes, the method is a
      program on a heap of objects that refer to one another ([Heap]). *)

From stdpp Require Import gmap strings list fin_maps pretty sorting.

Open Scope string_scope.
Open Scope list_scope.
Open Scope nat_scope.

(** ** Strings, truthiness and Sets *)

Abbreviation state := string (only parsing).
Abbreviation symbol := string (only parsing).

Definition eps : string := "ε".

(** [!s] is true for the empty string, [!undefined] and [!null] are true. *)
Definition truthy_str (s : string) : bool := negb (String.eqb s "").

Definition truthy (o : option string) : bool :=
  match o with
  | Some s => truthy_str s
  | None => false
  end.

Definition set_has (x : string) (l : list string) : bool :=
  bool_decide (x ∈ l).

Definition set_add (x : string) (l : list string) : list string :=
  if set_has x l then l else l ++ [x].

Definition set_delete (x : string) (l : list string) : list string :=
  filter (λ y, y ≠ x) l.

(** [new Set(iterable)] *)
Definition new_Set (l : list string) : list string :=
  foldl (λ acc x, set_add x acc) [] l.

(** ** Inherited properties

    A plain object answers a lookup [obj[k]] with its own property [k] and,
    when it has none, with the property [k] of [Object.prototype]: one of
    its functions ([constructor], [toString], ...), or [Object.prototype]
    itself for [__proto__].  These values are truthy.  What is written on
    them is no own property of [obj]: [for (k in obj)] does not come to
    it, and what is written on [Object.prototype] is seen from every
    object.  An assignment [obj['__proto__'] = s] of a string stores
    nothing. *)
Definition inherited_names : list string :=
  ["constructor"; "hasOwnProperty"; "isPrototypeOf"; "propertyIsEnumerable";
   "toLocaleString"; "toString"; "valueOf"; "__proto__";
   "__defineGetter__"; "__defineSetter__"; "__lookupGetter__";
   "__lookupSetter__"].

(** A key that names an own property only. *)
Definition own_name (q : string) : Prop := q ∉ inherited_names.

(** ** The data model *)

Inductive kind := DFA | NFA.

#[global] Instance kind_eq_dec : EqDecision kind.
Proof. solve_decision. Defined.

Definition target (k : kind) : Type :=
  match k with
  | DFA => string
  | NFA => list string
  end.

Record Automaton (k : kind) := mkAutomaton {
  states : list string;
  alphabet : list string;
  transitions : gmap string (gmap string (target k));
  initialState : option string;
  finalStates : list string
}.

Arguments mkAutomaton {k}.
Arguments states {k}.
Arguments alphabet {k}.
Arguments transitions {k}.
Arguments initialState {k}.
Arguments finalStates {k}.

(** [this.transitions[q] && this.transitions[q][a]] *)
Definition entry {k} (A : Automaton k) (q a : string) : option (target k) :=
  transitions A !! q ≫= λ row, row !! a.

(** The states an entry of the table points to. *)
Definition targets {k} : target k → list string :=
  match k with
  | DFA => λ t, [t]
  | NFA => λ ts, ts
  end.

(** Truthiness of [this.transitions[q][a]]: a state name of a DFA is falsy
    when it is the empty string, a [Set] is always truthy. *)
Definition truthy_target {k} : option (target k) → bool :=
  match k with
  | DFA => truthy
  | NFA => λ o, bool_decide (is_Some o)
  end.

(** ** The model API *)

(** [constructor(type)] *)
Definition new_Automaton (k : kind) : Automaton k :=
  mkAutomaton [] [] ∅ None [].

Definition addState {k} (q : string) (A : Automaton k) : Automaton k :=
  mkAutomaton (set_add q (states A)) (alphabet A) (transitions A)
    (initialState A) (finalStates A).

(** What is left of an entry when [removeState(q)] has visited it. *)
Definition drop_target {k} (q : string) : target k → option (target k) :=
  match k with
  | DFA => λ t, if decide (t = q) then None else Some t
  | NFA => λ ts,
      let ts' := set_delete q ts in
      if decide (ts' = []) then None else Some ts'
  end.

(** The row of another state when [removeState(q)] has visited it. *)
Definition drop_row {k} (q : string) (row : gmap string (target k))
    : gmap string (target k) :=
  omap (drop_target q) row.

Definition removeState {k} (q : string) (A : Automaton k) : Automaton k :=
  mkAutomaton
    (set_delete q (states A))
    (alphabet A)
    (drop_row q <$> delete q (transitions A))
    (if decide (initialState A = Some q) then None else initialState A)
    (set_delete q (finalStates A)).

Definition setAlphabet {k} (l : list string) (A : Automaton k) : Automaton k :=
  mkAutomaton (states A) (new_Set l) (transitions A)
    (initialState A) (finalStates A).

Definition setInitialState {k} (q : string) (A : Automaton k) : Automaton k :=
  if set_has q (states A)
  then mkAutomaton (states A) (alphabet A) (transitions A) (Some q)
         (finalStates A)
  else A.

Definition toggleFinalState {k} (q : string) (isFinal : bool)
    (A : Automaton k) : Automaton k :=
  if set_has q (states A)
  then mkAutomaton (states A) (alphabet A) (transitions A) (initialState A)
         (if isFinal then set_add q (finalStates A)
          else set_delete q (finalStates A))
  else A.

(** The value [addTransition] stores at [transitions[from][symbol]], given
    the value found there. *)
Definition put_target {k} (to : string) : option (target k) → target k :=
  match k with
  | DFA => λ _, to
  | NFA => λ old, set_add to (default [] old)
  end.

Definition addTransition {k} (from a to : string) (A : Automaton k)
    : bool * Automaton k :=
  if negb (set_has from (states A)) || negb (set_has to (states A))
  then (false, A)
  else
    let alphabet' :=
      if decide (a = eps) then alphabet A else set_add a (alphabet A) in
    let row := default ∅ (transitions A !! from) in
    let row' := <[a := put_target to (row !! a)]> row in
    (true,
     mkAutomaton (states A) alphabet' (<[from := row']> (transitions A))
       (initialState A) (finalStates A)).

(** What is left of an entry when [removeTransition(from, a, to)] has
    visited it: a DFA deletes the entry whatever [to] is. *)
Definition unput_target {k} (to : string) : target k → option (target k) :=
  match k with
  | DFA => λ _, None
  | NFA => λ ts,
      let ts' := set_delete to ts in
      if decide (ts' = []) then None else Some ts'
  end.

(** [symbolInUse]: some row still has a truthy entry for the symbol. *)
Definition symbolInUse {k} (a : string)
    (t : gmap string (gmap string (target k))) : bool :=
  bool_decide (map_Exists (λ _ row, truthy_target (row !! a) = true) t).

Definition removeTransition {k} (from a to : string) (A : Automaton k)
    : bool * Automaton k :=
  match transitions A !! from with
  | None => (false, A)
  | Some row =>
      if negb (truthy_target (row !! a)) then (false, A)
      else
        let row' :=
          match row !! a with
          | Some t =>
              match unput_target to t with
              | Some t' => <[a := t']> row
              | None => delete a row
              end
          | None => row
          end in
        let transitions' := <[from := row']> (transitions A) in
        let alphabet' :=
          if negb (symbolInUse a transitions') && negb (String.eqb a eps)
          then set_delete a (alphabet A)
          else alphabet A in
        (true,
         mkAutomaton (states A) alphabet' transitions'
           (initialState A) (finalStates A))
  end.

(** *** Sequences of calls of the model API *)

Inductive op :=
  | AddState (q : string)
  | RemoveState (q : string)
  | SetAlphabet (l : list string)
  | SetInitialState (q : string)
  | ToggleFinalState (q : string) (isFinal : bool)
  | AddTransition (from a to : string)
  | RemoveTransition (from a to : string).

Definition apply_op {k} (o : op) (A : Automaton k) : Automaton k :=
  match o with
  | AddState q => addState q A
  | RemoveState q => removeState q A
  | SetAlphabet l => setAlphabet l A
  | SetInitialState q => setInitialState q A
  | ToggleFinalState q b => toggleFinalState q b A
  | AddTransition f a t => (addTransition f a t A).2
  | RemoveTransition f a t => (removeTransition f a t A).2
  end.

(** The automaton after the calls [ops], made in order on a new one. *)
Definition run_ops (k : kind) (ops : list op) : Automaton k :=
  foldl (λ A o, apply_op o A) (new_Automaton k) ops.

(** ** Epsilon-closure and move *)

(** [Array.prototype.sort()] on an array of strings: ascending in the order
    of the bytes of the strings, which is the order of the code units that
    [sort()] follows as long as no name has a character above U+FFFF.  The
    sorted arrangement of a list is unique, so an insertion sort computes
    what the engine's sort computes. *)
Fixpoint sort_insert (x : string) (l : list string) : list string :=
  match l with
  | [] => [x]
  | y :: l' => if String.leb x y then x :: l else y :: sort_insert x l'
  end.

Definition js_sort (l : list string) : list string :=
  foldr sort_insert [] l.

(** [this.transitions[q] && this.transitions[q][a]], spread into an array:
    the targets of a state of an NFA on a symbol, none when there is no
    entry. *)
Definition nfa_targets (A : Automaton NFA) (q a : string) : list string :=
  default [] (entry A q a).

(** The inner [for] of a worklist loop ([_epsilonClosure],
    [_getReachableStates]): every target that the set of seen states does
    not include yet is added to it and pushed on the worklist. *)
Definition visit (push : string → list string → list string)
    (ts : list string) (sw : list string * list string)
    : list string * list string :=
  foldl (λ sw x,
           if set_has x (fst sw) then sw
           else (fst sw ++ [x], push x (snd sw)))
        sw ts.

(** [stack.push(x)], for a stack kept with its top first, and
    [queue.push(x)], for a queue kept with its front first. *)
Definition stack_push (x : string) (stack : list string) : list string :=
  x :: stack.

Definition queue_push (x : string) (queue : list string) : list string :=
  queue ++ [x].

(** The [while] of a worklist loop: the next state is taken from the
    worklist and its successors are visited, until the worklist is empty. *)
Fixpoint worklist_loop (succ : string → list string)
    (push : string → list string → list string) (fuel : nat)
    (seen work : list string) : option (list string) :=
  match work with
  | [] => Some seen
  | q :: work' =>
      match fuel with
      | 0 => None
      | S fuel' =>
          let sw := visit push (succ q) (seen, work') in
          worklist_loop succ push fuel' (fst sw) (snd sw)
      end
  end.

(** The [while (stack.length > 0)] of [_epsilonClosure]. *)
Definition closure_loop (A : Automaton NFA) (fuel : nat)
    (closure stack : list string) : option (list string) :=
  worklist_loop (λ q, nfa_targets A q eps) stack_push fuel closure stack.

(** Every epsilon-target of the table, with repetitions. *)
Definition eps_targets (A : Automaton NFA) : list string :=
  mjoin ((λ qr : string * gmap string (list string),
            default [] (qr.2 !! eps)) <$> map_to_list (transitions A)).

(** Rounds that the [while] of [_epsilonClosure] cannot exceed
    ([closure_loop_terminates]). *)
Definition closure_fuel (A : Automaton NFA) (stateSet : list string) : nat :=
  length stateSet + length (eps_targets A).

Definition _epsilonClosure (A : Automaton NFA) (stateSet : list string)
    : list string :=
  js_sort (default stateSet
             (closure_loop A (closure_fuel A stateSet) stateSet
                (reverse stateSet))).

(** The targets of the states of [stateSet] on [a], concatenated in the
    order of [stateSet]: the array [nextStates] of [_getNextStates],
    [_simulateNFA] and [simulateStep]. *)
Definition move (A : Automaton NFA) (stateSet : list string) (a : string)
    : list string :=
  mjoin ((λ q, nfa_targets A q a) <$> stateSet).

Definition _getNextStates (A : Automaton NFA) (stateSet : list string)
    (a : string) : list string :=
  _epsilonClosure A (move A stateSet a).

Definition _getSetName (stateSet : list string) : string :=
  match stateSet with
  | [] => "Ø"
  | q :: rest => "{" +:+ foldl (λ acc x, acc +:+ "," +:+ x) q rest +:+ "}"
  end.

(** ** Simulation *)

Definition UnknownSymbol (a : string) : string :=
  "Symbol " +:+ a +:+ " is not in the alphabet".

Definition MissingTransition (q a : string) : string :=
  "No transition from state " +:+ q +:+ " on symbol " +:+ a.

Definition NoReachableStates (a : string) : string :=
  "No transitions from current states on symbol " +:+ a.

(** An element of [path]: [{state, input}] for a DFA, [{states, input}] for
    an NFA. *)
Inductive PathEntry :=
  | AtState (q : string) (input : list string)
  | AtStates (qs : list string) (input : list string).

Module SimulationResult.
Record t := mk {
  accepted : bool;
  path : list PathEntry;
  error : option string
}.
End SimulationResult.

Module SimulationState.
Record t := mk {
  state : option string;
  states : option (list string);
  remainingInput : list string;
  accepted : bool;
  complete : bool;
  error : option string
}.
End SimulationState.

(** The [for] of [_simulateDFA], from the current state and path, on what
    is left of the input. *)
Fixpoint _simulateDFA_loop (A : Automaton DFA) (currentState : string)
    (path : list PathEntry) (input : list string) : SimulationResult.t :=
  match input with
  | [] =>
      SimulationResult.mk (set_has currentState (finalStates A)) path None
  | a :: rest =>
      if negb (set_has a (alphabet A)) then
        SimulationResult.mk false path (Some (UnknownSymbol a))
      else
        match entry A currentState a with
        | Some q =>
            if truthy_str q then
              _simulateDFA_loop A q (path ++ [AtState q rest]) rest
            else
              SimulationResult.mk false path
                (Some (MissingTransition currentState a))
        | None =>
            SimulationResult.mk false path
              (Some (MissingTransition currentState a))
        end
  end.

Definition _simulateDFA (A : Automaton DFA) (input : list string)
    : SimulationResult.t :=
  match initialState A with
  | Some q0 =>
      if truthy_str q0 then _simulateDFA_loop A q0 [AtState q0 input] input
      else SimulationResult.mk false [] None
  | None => SimulationResult.mk false [] None
  end.

Fixpoint _simulateNFA_loop (A : Automaton NFA) (currentStates : list string)
    (path : list PathEntry) (input : list string) : SimulationResult.t :=
  match input with
  | [] =>
      SimulationResult.mk
        (existsb (λ q, set_has q (finalStates A)) currentStates) path None
  | a :: rest =>
      if negb (set_has a (alphabet A)) then
        SimulationResult.mk false path (Some (UnknownSymbol a))
      else
        let nextStates := _epsilonClosure A (move A currentStates a) in
        if decide (nextStates = []) then
          SimulationResult.mk false path (Some (NoReachableStates a))
        else
          _simulateNFA_loop A nextStates (path ++ [AtStates nextStates rest])
            rest
  end.

Definition _simulateNFA (A : Automaton NFA) (input : list string)
    : SimulationResult.t :=
  match initialState A with
  | Some q0 =>
      if truthy_str q0 then
        let currentStates := _epsilonClosure A [q0] in
        _simulateNFA_loop A currentStates [AtStates currentStates input] input
      else SimulationResult.mk false [] None
  | None => SimulationResult.mk false [] None
  end.

Definition simulate {k} : Automaton k → list string → SimulationResult.t :=
  match k with
  | DFA => _simulateDFA
  | NFA => _simulateNFA
  end.

(** *** [simulateStep]

    The loops of [simulateStep] walk [processedInput] and keep
    [remainingInput] fixed.  The embedding covers the calls on an automaton
    whose [initialState] is not [null]; [None] stands for the others. *)

Fixpoint simulateStep_DFA_loop (A : Automaton DFA) (currentState : string)
    (remaining : list string) (processed : list string) : SimulationState.t :=
  match processed with
  | [] =>
      SimulationState.mk (Some currentState) None remaining
        (set_has currentState (finalStates A))
        (bool_decide (remaining = [])) None
  | a :: rest =>
      match entry A currentState a with
      | Some q =>
          if truthy_str q then simulateStep_DFA_loop A q remaining rest
          else
            SimulationState.mk (Some currentState) None remaining false true
              (Some (MissingTransition currentState a))
      | None =>
          SimulationState.mk (Some currentState) None remaining false true
            (Some (MissingTransition currentState a))
      end
  end.

Fixpoint simulateStep_NFA_loop (A : Automaton NFA) (currentStates : list string)
    (remaining : list string) (processed : list string) : SimulationState.t :=
  match processed with
  | [] =>
      SimulationState.mk None (Some currentStates) remaining
        (existsb (λ q, set_has q (finalStates A)) currentStates)
        (bool_decide (remaining = [])) None
  | a :: rest =>
      let nextStates := _epsilonClosure A (move A currentStates a) in
      if decide (nextStates = []) then
        SimulationState.mk None (Some []) remaining false true
          (Some (NoReachableStates a))
      else simulateStep_NFA_loop A nextStates remaining rest
  end.

Definition simulateStep {k} (A : Automaton k) (input : list string)
    (step : nat) : option SimulationState.t :=
  q0 ← initialState A;
  Some
    (match k return Automaton k → SimulationState.t with
     | DFA => λ A,
         if decide (step = 0) then
           SimulationState.mk (Some q0) None input
             (set_has q0 (finalStates A)) (bool_decide (input = [])) None
         else simulateStep_DFA_loop A q0 (drop step input) (take step input)
     | NFA => λ A,
         if decide (step = 0) then
           let initialStates := _epsilonClosure A [q0] in
           SimulationState.mk None (Some initialStates) input
             (existsb (λ q, set_has q (finalStates A)) initialStates)
             (bool_decide (input = [])) None
         else
           simulateStep_NFA_loop A (_epsilonClosure A [q0])
             (drop step input) (take step input)
     end A).


(** ** Subset construction *)

(** The new automaton and the queue of [convertToDFA]. *)
Definition any_final (A : Automaton NFA) (stateSet : list string) : bool :=
  existsb (λ q, set_has q (finalStates A)) stateSet.

(** The body of [for (const symbol of this.alphabet)] in [convertToDFA],
    on the pair of the new automaton and the queue [unprocessed]. *)
Definition convert_symbol (A : Automaton NFA) (processed : list (list string))
    (currentStateSet : list string)
    (st : Automaton DFA * list (list string)) (a : string)
    : Automaton DFA * list (list string) :=
  let '(dfa, unprocessed) := st in
  if decide (a = eps) then st
  else
    let nextStateSet := _getNextStates A currentStateSet a in
    let nextStateName := _getSetName nextStateSet in
    if decide (nextStateSet = []) then st
    else
      let currentStateName := _getSetName currentStateSet in
      if set_has nextStateName (states dfa) then
        ((addTransition currentStateName a nextStateName dfa).2, unprocessed)
      else
        let dfa1 := addState nextStateName dfa in
        let dfa2 :=
          if any_final A nextStateSet
          then toggleFinalState nextStateName true dfa1 else dfa1 in
        let alreadyProcessed :=
          existsb (λ set, String.eqb (_getSetName set) nextStateName)
            processed in
        let alreadyQueued :=
          existsb (λ set, String.eqb (_getSetName set) nextStateName)
            unprocessed in
        let unprocessed' :=
          if negb alreadyProcessed && negb alreadyQueued
          then unprocessed ++ [nextStateSet] else unprocessed in
        ((addTransition currentStateName a nextStateName dfa2).2,
         unprocessed').

(** The [while (unprocessed.length > 0)] of [convertToDFA]. *)
Fixpoint convert_loop (A : Automaton NFA) (fuel : nat) (dfa : Automaton DFA)
    (unprocessed processed : list (list string)) : option (Automaton DFA) :=
  match unprocessed with
  | [] => Some dfa
  | currentStateSet :: rest =>
      match fuel with
      | 0 => None
      | S fuel' =>
          let processed' := processed ++ [currentStateSet] in
          let st :=
            foldl (convert_symbol A processed' currentStateSet) (dfa, rest)
              (alphabet A) in
          convert_loop A fuel' (fst st) (snd st) processed'
      end
  end.

(** [clone()]: the calls made on the new automaton.  The table is walked
    in the order of the map, where [for (... in ...)] follows the order in
    which the rows and the entries were made; the statements about the
    result hold for every order. *)
Definition add_entry {k} (from a : string) (t : target k) (B : Automaton k)
    : Automaton k :=
  foldl (λ B to, (addTransition from a to B).2) B (targets t).

Definition add_table {k} (t : gmap string (gmap string (target k)))
    (B : Automaton k) : Automaton k :=
  map_fold (λ from row B, map_fold (add_entry from) B row) B t.

Definition clone {k} (A : Automaton k) : Automaton k :=
  let c1 := foldl (λ B q, addState q B) (new_Automaton k) (states A) in
  let c2 := setAlphabet (alphabet A) c1 in
  let c3 :=
    mkAutomaton (states c2) (alphabet c2) (transitions c2) (initialState A)
      (finalStates c2) in
  let c4 := foldl (λ B q, toggleFinalState q true B) c3 (finalStates A) in
  add_table (transitions A) c4.

(** [convertToDFA()], for an automaton whose [initialState] is not [null].
    The result is [None] when the fuel runs out before the queue is
    empty. *)
Definition convertToDFA_NFA (fuel : nat) (A : Automaton NFA)
    : option (Automaton DFA) :=
  q0 ← initialState A;
  let initialClosure := _epsilonClosure A [q0] in
  let initialStateName := _getSetName initialClosure in
  let dfa1 := addState initialStateName (new_Automaton DFA) in
  let dfa2 := setInitialState initialStateName dfa1 in
  let dfa3 :=
    if any_final A initialClosure
    then toggleFinalState initialStateName true dfa2 else dfa2 in
  dfa ← convert_loop A fuel dfa3 [initialClosure] [];
  Some (setAlphabet (filter (λ a, a ≠ eps) (alphabet A)) dfa).

Definition convertToDFA {k} (fuel : nat) : Automaton k → option (Automaton DFA) :=
  match k with
  | DFA => λ A, Some (clone A)
  | NFA => convertToDFA_NFA fuel
  end.

(** ** Partition refinement *)

(** The targets of a row, as [for (const symbol in row)] meets them; they
    are listed in the order of the map, where the source follows the order
    in which the entries were made. *)
Definition row_targets (A : Automaton DFA) (q : string) : list string :=
  (map_to_list (default ∅ (transitions A !! q))).*2.

(** The [while (queue.length > 0)] of [_getReachableStates]. *)
Definition reachable_loop (A : Automaton DFA) (fuel : nat)
    (reachable queue : list string) : option (list string) :=
  worklist_loop (row_targets A) queue_push fuel reachable queue.

(** Every target of the table, with repetitions. *)
Definition all_targets (A : Automaton DFA) : list string :=
  mjoin ((λ qr : string * gmap string string, (map_to_list qr.2).*2)
           <$> map_to_list (transitions A)).

(** Rounds that the [while] of [_getReachableStates] cannot exceed
    ([reachable_loop_terminates]). *)
Definition reachable_fuel (A : Automaton DFA) : nat :=
  1 + length (all_targets A).

Definition _getReachableStates (A : Automaton DFA) (q0 : string)
    : list string :=
  default [q0] (reachable_loop A (reachable_fuel A) [q0] [q0]).

(** The index of the first block that has [t], and
    [targetPartitionIndex]: the index of the first block that has the
    target of [q] on [a]; [None] is the [-1] of the source, kept when there
    is no truthy entry or no block has the target. *)
Definition block_index (partitions : list (list string)) (t : string)
    : option nat :=
  fst <$> list_find (λ p, t ∈ p) partitions.

Definition targetPartitionIndex (A : Automaton DFA)
    (partitions : list (list string)) (q a : string) : option nat :=
  match entry A q a with
  | Some t => if truthy_str t then block_index partitions t else None
  | None => None
  end.

(** [groups.get(key).add(q)], with a new [Set] when [groups] has no [key];
    the [Map] keeps its keys in insertion order. *)
Fixpoint group_add (key : option nat) (q : string)
    (groups : list (option nat * list string))
    : list (option nat * list string) :=
  match groups with
  | [] => [(key, [q])]
  | (key', members) :: groups' =>
      if decide (key' = key) then (key', set_add q members) :: groups'
      else (key', members) :: group_add key q groups'
  end.

Definition split_groups (A : Automaton DFA) (partitions : list (list string))
    (partition : list string) (a : string)
    : list (option nat * list string) :=
  foldl (λ groups q, group_add (targetPartitionIndex A partitions q a) q groups)
    [] partition.

(** The [for (const symbol of this.alphabet)] of [_splitPartition]. *)
Fixpoint split_on (A : Automaton DFA) (partitions : list (list string))
    (partition : list string) (symbols : list string) : list (list string) :=
  match symbols with
  | [] => [partition]
  | a :: symbols' =>
      let groups := split_groups A partitions partition a in
      if decide (1 < length groups)%nat then groups.*2
      else split_on A partitions partition symbols'
  end.

Definition _splitPartition (A : Automaton DFA) (partition : list string)
    (partitions : list (list string)) : list (list string) :=
  if decide (length partition ≤ 1)%nat then [partition]
  else split_on A partitions partition (alphabet A).

(** One round of the [while (changed)] of [minimize], on the flag [changed]
    and [newPartitions]: the body of [for (const partition of partitions)],
    and the round. *)
Definition refine_block (A : Automaton DFA) (partitions : list (list string))
    (st : bool * list (list string)) (partition : list string)
    : bool * list (list string) :=
  let splits := _splitPartition A partition partitions in
  if decide (1 < length splits)%nat then (true, snd st ++ splits)
  else (fst st, snd st ++ [partition]).

Definition refine_round (A : Automaton DFA) (partitions : list (list string))
    : bool * list (list string) :=
  foldl (refine_block A partitions) (false, []) partitions.

Fixpoint refine_loop (A : Automaton DFA) (fuel : nat)
    (partitions : list (list string)) : option (list (list string)) :=
  match fuel with
  | 0 => None
  | S fuel' =>
      let r := refine_round A partitions in
      if fst r then refine_loop A fuel' (snd r) else Some (snd r)
  end.

(** [partition.has(this.initialState)] *)
Definition has_initialState (A : Automaton DFA) (partition : list string)
    : bool :=
  match initialState A with
  | Some q0 => set_has q0 partition
  | None => false
  end.

(** Step 4, first loop: the state [q<i>] of block [i], the map from the
    members of the block to it, the initial and the final mark. *)
Definition block_name (i : nat) : string := "q" +:+ pretty i.

Definition add_block (A : Automaton DFA)
    (st : Automaton DFA * gmap string string) (ip : nat * list string)
    : Automaton DFA * gmap string string :=
  let '(minimized, stateMap) := st in
  let '(i, partition) := ip in
  let partitionState := block_name i in
  let m1 := addState partitionState minimized in
  let stateMap' :=
    foldl (λ sm q, <[q := partitionState]> sm) stateMap partition in
  let m2 :=
    if has_initialState A partition
    then setInitialState partitionState m1 else m1 in
  let m3 :=
    if existsb (λ q, set_has q (finalStates A)) partition
    then toggleFinalState partitionState true m2 else m2 in
  (m3, stateMap').

(** Step 4, second loop: the transition of the representative of a block
    on one symbol, and the transitions of the representative. *)
Definition add_representative_transition (stateMap : gmap string string)
    (row : gmap string string) (partitionState : string)
    (minimized : Automaton DFA) (a : string) : Automaton DFA :=
  match row !! a with
  | Some targetState =>
      if truthy_str targetState then
        match stateMap !! targetState with
        | Some targetPartitionState =>
            (addTransition partitionState a targetPartitionState minimized).2
        | None => minimized
        end
      else minimized
  | None => minimized
  end.

Definition add_block_transitions (A : Automaton DFA)
    (stateMap : gmap string string) (minimized : Automaton DFA)
    (partition : list string) : Automaton DFA :=
  match partition with
  | [] => minimized
  | representativeState :: _ =>
      match stateMap !! representativeState,
            transitions A !! representativeState with
      | Some partitionState, Some row =>
          foldl (add_representative_transition stateMap row partitionState)
            minimized (alphabet A)
      | _, _ => minimized
      end
  end.

Definition initial_partitions (A : Automaton DFA) (q0 : string)
    : list (list string) :=
  let reachable := _getReachableStates A q0 in
  let finalStatesSet := new_Set (finalStates A) in
  let nonFinalStatesSet :=
    new_Set (filter (λ q, set_has q (finalStates A) = false) reachable) in
  (if decide (finalStatesSet = []) then [] else [finalStatesSet])
  ++ (if decide (nonFinalStatesSet = []) then [] else [nonFinalStatesSet]).

(** [for (let i = 0; i < partitions.length; i++)], from the index [i] on
    the blocks that are left. *)
Fixpoint add_blocks (A : Automaton DFA) (i : nat)
    (partitions : list (list string))
    (st : Automaton DFA * gmap string string)
    : Automaton DFA * gmap string string :=
  match partitions with
  | [] => st
  | partition :: rest => add_blocks A (S i) rest (add_block A st (i, partition))
  end.

Definition build_minimized (A : Automaton DFA) (partitions : list (list string))
    : Automaton DFA :=
  let st := add_blocks A 0 partitions (new_Automaton DFA, ∅) in
  let m := foldl (add_block_transitions A (snd st)) (fst st) partitions in
  setAlphabet (alphabet A) m.

(** [minimize()] on a DFA whose [initialState] is not [null]; [None] when
    the fuel runs out before a round leaves the partition unchanged. *)
Definition minimize_DFA (fuel : nat) (A : Automaton DFA)
    : option (Automaton DFA) :=
  q0 ← initialState A;
  partitions ← refine_loop A fuel (initial_partitions A q0);
  Some (build_minimized A partitions).

Definition minimize {k} (fuel : nat) : Automaton k → option (Automaton DFA) :=
  match k with
  | DFA => minimize_DFA fuel
  | NFA => λ A, convertToDFA_NFA fuel A ≫= minimize_DFA fuel
  end.

(** ** Normalization and validation *)

(** [if (!stateMap[q]) stateMap[q] = `q${stateIndex++}`] *)
Definition assign_name (st : gmap string string * nat) (q : string)
    : gmap string string * nat :=
  match fst st !! q with
  | Some _ => st
  | None => (<[q := block_name (snd st)]> (fst st), S (snd st))
  end.

Definition normalize_entry {k} (stateMap : gmap string string)
    (from a : string) (t : target k) (B : Automaton k) : Automaton k :=
  foldl (λ B to,
           match stateMap !! from, stateMap !! to with
           | Some from', Some to' => (addTransition from' a to' B).2
           | _, _ => B
           end)
    B (targets t).

(** The names that [normalize] gives: [q0] to the initial state, then the
    final states, then the other states. *)
Definition normalize_names {k} (A : Automaton k) (q0 : string)
    : gmap string string :=
  let st0 : gmap string string * nat := ({[ q0 := block_name 0 ]}, 1) in
  let st1 := foldl assign_name st0 (finalStates A) in
  let st2 := foldl assign_name st1 (states A) in
  fst st2.

(** The body of [for (const oldState in stateMap)]. *)
Definition add_normalized_state {k} (A : Automaton k) (q0 : string)
    (oldState newState : string) (B : Automaton k) : Automaton k :=
  let B1 := addState newState B in
  let B2 :=
    if decide (oldState = q0) then setInitialState newState B1 else B1 in
  if set_has oldState (finalStates A)
  then toggleFinalState newState true B2 else B2.

(** The loops of [normalize] over the table. *)
Definition add_normalized_table {k} (stateMap : gmap string string)
    (t : gmap string (gmap string (target k))) (B : Automaton k)
    : Automaton k :=
  map_fold (λ from row B, map_fold (normalize_entry stateMap from) B row) B t.

(** [normalize()], for an automaton whose [initialState] is not [null]. *)
Definition normalize {k} (A : Automaton k) : option (Automaton k) :=
  q0 ← initialState A;
  let stateMap := normalize_names A q0 in
  let n1 :=
    map_fold (add_normalized_state A q0) (new_Automaton k) stateMap in
  let n2 := add_normalized_table stateMap (transitions A) n1 in
  Some (setAlphabet (alphabet A) n2).

Module ValidationResult.
Record t := mk {
  valid : bool;
  errors : list string
}.
End ValidationResult.

Definition validate {k} (A : Automaton k) : ValidationResult.t :=
  let e1 :=
    if truthy (initialState A) then [] else ["Initial state is not set"] in
  let e2 :=
    if decide (finalStates A = []) then ["No final states defined"] else [] in
  let e3 :=
    match k with
    | DFA =>
        q ← states A;
        a ← alphabet A;
        if truthy_target (entry A q a) then []
        else ["State " +:+ q +:+ " has no transition for symbol " +:+ a]
    | NFA => []
    end in
  let errors := e1 ++ e2 ++ e3 in
  ValidationResult.mk (bool_decide (errors = [])) errors.

(** ** Serialization *)

(** The object that [toJSON] returns: arrays for the Sets, and the table
    with an array for each target [Set] of an NFA. *)
Record JSON (k : kind) := mkJSON {
  json_states : list string;
  json_alphabet : list string;
  json_initialState : option string;
  json_finalStates : list string;
  json_transitions : gmap string (gmap string (target k))
}.

Arguments mkJSON {k}.
Arguments json_states {k}.
Arguments json_alphabet {k}.
Arguments json_initialState {k}.
Arguments json_finalStates {k}.
Arguments json_transitions {k}.

Definition toJSON {k} (A : Automaton k) : JSON k :=
  mkJSON (states A) (alphabet A) (initialState A) (finalStates A)
    (transitions A).

Definition fromJSON {k} (json : JSON k) : Automaton k :=
  let a1 := foldl (λ B q, addState q B) (new_Automaton k) (json_states json) in
  let a2 := setAlphabet (json_alphabet json) a1 in
  let a3 :=
    mkAutomaton (states a2) (alphabet a2) (transitions a2)
      (json_initialState json) (finalStates a2) in
  let a4 :=
    foldl (λ B q, toggleFinalState q true B) a3 (json_finalStates json) in
  add_table (json_transitions json) a4.

(** ** [AutomatonSimulator.isDeterministic] *)

(** [stateTransitions[symbol] && stateTransitions[symbol].size > 1], looked
    at for an automaton stored as NFA only. *)
Definition several_targets {k} : option (target k) → bool :=
  match k with
  | DFA => λ _, false
  | NFA => λ o,
      match o with
      | Some ts => bool_decide (1 < length ts)%nat
      | None => false
      end
  end.

(** The field [automaton] of the simulator is [null] until an automaton is
    loaded. *)
Definition isDeterministic {k} (automaton : option (Automaton k)) : bool :=
  match automaton with
  | None => false
  | Some A =>
      if bool_decide (length (states A) = 0)
         || bool_decide (length (alphabet A) = 0)
      then true
      else if symbolInUse eps (transitions A) then false
      else
        forallb (λ q,
          forallb (λ a,
            if bool_decide (length (states A) ≤ 1)%nat then true
            else negb (several_targets (entry A q a)))
            (alphabet A))
          (states A)
  end.

(** ** [AutomatonSimulator]

    The simulator holds an automaton, an input and the number [step] of
    symbols that have been stepped over.  Its visualizer is an object of
    the page: the calls on it change no field of the simulator and are not
    part of the model.  The automaton is the one that [setAutomaton] was
    given (the page gives a clone, which nothing else changes). *)

Module AutomatonSimulator.

Record t := mk {
  automaton : option {k : kind & Automaton k};
  input : list string;
  step : nat;
  simulationState : option SimulationState.t;
  isRunning : bool
}.

(** [constructor(visualizer)] *)
Definition new : t := mk None [] 0 None false.

Definition reset (s : t) : t :=
  mk (automaton s) (input s) 0 None false.

Definition setAutomaton {k} (A : Automaton k) (s : t) : t :=
  reset (mk (Some (existT k A)) (input s) (step s) (simulationState s)
           (isRunning s)).

Definition setInput (w : list string) (s : t) : t :=
  reset (mk (automaton s) w (step s) (simulationState s) (isRunning s)).

(** [state.error] as a condition: an error message is a non-empty
    string. *)
Definition has_error (st : SimulationState.t) : bool :=
  bool_decide (is_Some (SimulationState.error st)).

(** [performStep()]: the value it returns ([null] when there is no
    automaton) and the simulator it leaves.  [None] stands for a call on an
    automaton whose [initialState] is [null], which [simulateStep] does not
    cover. *)
Definition performStep (s : t) : option (option SimulationState.t * t) :=
  match automaton s with
  | None => Some (None, s)
  | Some (existT k A) =>
      st ← simulateStep A (input s) (step s);
      Some (Some st,
            mk (automaton s) (input s)
              (if negb (SimulationState.complete st) && negb (has_error st)
               then S (step s) else step s)
              (Some st) (isRunning s))
  end.

(** [_runNextStep()]: the simulator it leaves and whether it has set a
    timeout for the next call of itself.  [None] stands for the exception
    of [state.complete] when [performStep] has returned [null], and for
    what [performStep] does not cover. *)
Definition _runNextStep (s : t) : option (t * bool) :=
  if negb (isRunning s) then Some (s, false)
  else
    '(r, s') ← performStep s;
    st ← r;
    if SimulationState.complete st || has_error st
    then Some (mk (automaton s') (input s') (step s') (simulationState s')
                 false, false)
    else Some (s', true).

Definition runToCompletion (s : t) : option (t * bool) :=
  if isRunning s then Some (s, false)
  else
    _runNextStep
      (reset (mk (automaton s) (input s) (step s) (simulationState s) true)).

(** The calls that the page and the timer make on a simulator. *)
Inductive call :=
  | SetAutomaton (A : {k : kind & Automaton k})
  | Reset
  | SetInput (w : list string)
  | PerformStep
  | RunToCompletion
  | RunNextStep.

Definition run_call (c : call) (s : t) : option t :=
  match c with
  | SetAutomaton (existT k A) => Some (setAutomaton A s)
  | Reset => Some (reset s)
  | SetInput w => Some (setInput w s)
  | PerformStep => snd <$> performStep s
  | RunToCompletion => fst <$> runToCompletion s
  | RunNextStep => fst <$> _runNextStep s
  end.

(** The simulator after the calls, made in order; [None] when a call is
    not covered or raises an exception. *)
Fixpoint run_calls (cs : list call) (s : t) : option t :=
  match cs with
  | [] => Some s
  | c :: cs' => run_call c s ≫= run_calls cs'
  end.

(** [n] calls of [performStep], as [n] clicks on the Step button make
    them. *)
Fixpoint performSteps (n : nat) (s : t) : option t :=
  match n with
  | 0 => Some s
  | S n' => performStep s ≫= λ rs, performSteps n' (snd rs)
  end.

End AutomatonSimulator.

(** ** [isDeterministic] on the objects of the heap

    The methods above are functions of the value of an automaton.  Whether
    a call changes an object is a question about the objects: here the
    simulator, the automaton, its Sets, its table and the rows of the table
    are objects of a heap, one refers to another by its address, and
    [Heap.isDeterministic] is the method of the source, expression by
    expression, as a program that reads and allocates. *)

Module Heap.

(** What a property of a row or of the table holds: a string or a
    reference to an object. *)
Inductive value :=
  | Str (s : string)
  | Ref (l : nat).

(** A [Set] of strings with its members in insertion order; a plain
    object with its own properties in the order of [for (... in ...)]; an
    [Automaton] with its fields; an [AutomatonSimulator] with its field
    [automaton] ([null] until an automaton is loaded; the method reads no
    other field). *)
Inductive object :=
  | SetObject (members : list string)
  | PlainObject (properties : list (string * value))
  | AutomatonObject (type : kind) (states alphabet transitions : nat)
      (initialState : option string) (finalStates : nat)
  | SimulatorObject (automaton : option nat).

Definition heap : Type := gmap nat object.

(** A program returns a value and the heap it leaves; [None] stands for an
    exception and for a step that the embedding does not cover. *)
Definition prog (X : Type) : Type := heap → option (X * heap).

#[global] Instance prog_ret : MRet prog := λ X x h, Some (x, h).

#[global] Instance prog_bind : MBind prog := λ X Y f m h,
  match m h with
  | Some (x, h') => f x h'
  | None => None
  end.

Definition stop {X} : prog X := λ _, None.

Definition get (l : nat) : prog object :=
  λ h, match h !! l with
       | Some o => Some (o, h)
       | None => None
       end.

(** [{}]: a new object at an address that the heap does not use. *)
Definition alloc (o : object) : prog nat :=
  λ h, let l := fresh (dom h) in Some (l, <[l := o]> h).

(** [this.automaton] *)
Definition automaton_of (this : nat) : prog (option nat) :=
  o ← get this;
  match o with
  | SimulatorObject automaton => mret automaton
  | _ => stop
  end.

(** [this.automaton.type], [.states], [.alphabet] and [.transitions]; a
    field of [null] is an exception. *)
Definition automaton_field {X} (this : nat)
    (field : kind → nat → nat → nat → X) : prog X :=
  automaton ← automaton_of this;
  match automaton with
  | Some a =>
      o ← get a;
      match o with
      | AutomatonObject type states alphabet transitions _ _ =>
          mret (field type states alphabet transitions)
      | _ => stop
      end
  | None => stop
  end.

Definition type_of (this : nat) : prog kind :=
  automaton_field this (λ type _ _ _, type).

Definition states_of (this : nat) : prog nat :=
  automaton_field this (λ _ states _ _, states).

Definition alphabet_of (this : nat) : prog nat :=
  automaton_field this (λ _ _ alphabet _, alphabet).

Definition transitions_of (this : nat) : prog nat :=
  automaton_field this (λ _ _ _ transitions, transitions).

(** The members of a [Set], for [set.size] and [for (... of set)]. *)
Definition members_of (s : nat) : prog (list string) :=
  o ← get s;
  match o with
  | SetObject members => mret members
  | _ => stop
  end.

(** The keys that [for (key in obj)] walks. *)
Definition keys_of (l : nat) : prog (list string) :=
  o ← get l;
  match o with
  | PlainObject properties => mret properties.*1
  | _ => stop
  end.

(** [obj[key]] on a plain object: the own property, [undefined] ([None])
    when there is none.  Where the object has no own property [key] and
    [key] is the name of an inherited property the lookup is not
    covered. *)
Definition property_of (l : nat) (key : string) : prog (option value) :=
  o ← get l;
  match o with
  | PlainObject properties =>
      match (list_to_map properties : gmap string value) !! key with
      | Some v => mret (Some v)
      | None => if decide (key ∈ inherited_names) then stop else mret None
      end
  | _ => stop
  end.

Definition truthy_value (v : option value) : bool :=
  match v with
  | Some (Str s) => truthy_str s
  | Some (Ref _) => true
  | None => false
  end.

(** [for (const fromState in this.automaton.transitions)]: [true] when
    the loop has come to its [return false].  A row that is a string has no
    property ε. *)
Fixpoint epsilon_loop (this : nat) (fromStates : list string) : prog bool :=
  match fromStates with
  | [] => mret false
  | fromState :: rest =>
      transitions ← transitions_of this;
      row ← property_of transitions fromState;
      match row with
      | Some (Ref r) =>
          e ← property_of r eps;
          if truthy_value e then mret true else epsilon_loop this rest
      | _ => epsilon_loop this rest
      end
  end.

(** [for (const symbol of this.automaton.alphabet)], for the row
    [stateTransitions]: [true] when the loop has come to its
    [return false].  A string has no [size] above 1. *)
Fixpoint symbol_loop (this stateTransitions : nat) (symbols : list string)
    : prog bool :=
  match symbols with
  | [] => mret false
  | symbol :: rest =>
      states ← states_of this;
      members ← members_of states;
      if bool_decide (length members ≤ 1) then
        symbol_loop this stateTransitions rest
      else
        type ← type_of this;
        match type with
        | NFA =>
            v ← property_of stateTransitions symbol;
            match v with
            | Some (Ref s) =>
                targets ← members_of s;
                if bool_decide (1 < length targets) then mret true
                else symbol_loop this stateTransitions rest
            | _ => symbol_loop this stateTransitions rest
            end
        | DFA => symbol_loop this stateTransitions rest
        end
  end.

(** [row || {}].  The table of an automaton holds rows; a table that
    holds a string is not covered. *)
Definition row_or_new (row : option value) : prog nat :=
  match row with
  | Some (Ref r) => mret r
  | Some (Str _) => stop
  | None => alloc (PlainObject [])
  end.

(** [for (const state of this.automaton.states)]: [true] when the loop
    has come to its [return false]. *)
Fixpoint state_loop (this : nat) (states : list string) : prog bool :=
  match states with
  | [] => mret false
  | state :: rest =>
      transitions ← transitions_of this;
      row ← property_of transitions state;
      stateTransitions ← row_or_new row;
      alphabet ← alphabet_of this;
      symbols ← members_of alphabet;
      found ← symbol_loop this stateTransitions symbols;
      if (found : bool) then mret true else state_loop this rest
  end.

Definition isDeterministic (this : nat) : prog bool :=
  automaton ← automaton_of this;
  match automaton with
  | None => mret false
  | Some _ =>
      states ← states_of this;
      members ← members_of states;
      if bool_decide (length members = 0) then mret true
      else
        alphabet ← alphabet_of this;
        symbols ← members_of alphabet;
        if bool_decide (length symbols = 0) then mret true
        else
          transitions ← transitions_of this;
          fromStates ← keys_of transitions;
          found ← epsilon_loop this fromStates;
          if (found : bool) then mret false
          else
            states ← states_of this;
            members ← members_of states;
            found ← state_loop this members;
            mret (negb found)
  end.

(** *** The automaton that the objects hold *)

(** The value [v] of a property is the target [t] of an entry: the string
    for a DFA, a reference to the [Set] of the targets for an NFA. *)
Definition holds_target {k} (h : heap) (v : value) : target k → Prop :=
  match k with
  | DFA => λ t, v = Str t
  | NFA => λ ts, ∃ s, v = Ref s ∧ h !! s = Some (SetObject ts)
  end.

(** An object whose own properties are the entries of the map [m], each
    property holding its entry in the sense of [holds]. *)
Definition holds_map {X} (holds : value → X → Prop) (h : heap) (l : nat)
    (m : gmap string X) : Prop :=
  ∃ properties,
    h !! l = Some (PlainObject properties)
    ∧ NoDup properties.*1
    ∧ (∀ key v, (key, v) ∈ properties → ∃ x, m !! key = Some x ∧ holds v x)
    ∧ (∀ key x, m !! key = Some x → key ∈ properties.*1).

Definition holds_row {k} (h : heap) (v : value)
    (row : gmap string (target k)) : Prop :=
  ∃ r, v = Ref r ∧ holds_map (holds_target h) h r row.

(** The object at [a] is the automaton [A]: its fields refer to the Sets
    and to the table of [A]. *)
Definition holds_automaton {k} (h : heap) (a : nat) (A : Automaton k)
    : Prop :=
  ∃ ls la lt lf,
    h !! a = Some (AutomatonObject k ls la lt (initialState A) lf)
    ∧ h !! ls = Some (SetObject (states A))
    ∧ h !! la = Some (SetObject (alphabet A))
    ∧ h !! lf = Some (SetObject (finalStates A))
    ∧ holds_map (holds_row h) h lt (transitions A).

(** The simulator at [this] has loaded the automaton [A]. *)
Definition loaded {k} (h : heap) (this : nat) (A : Automaton k) : Prop :=
  ∃ a, h !! this = Some (SimulatorObject (Some a))
       ∧ holds_automaton h a A.

End Heap.

(** * Predicates of the specification *)

(** ** The membership invariant of the model API *)

(** [initialState], the final states, the sources and the targets of the
    table are members of [states]. *)
Record references_valid {k} (A : Automaton k) : Prop := {
  valid_initial : ∀ q, initialState A = Some q → q ∈ states A;
  valid_final : ∀ q, q ∈ finalStates A → q ∈ states A;
  valid_source : ∀ q row, transitions A !! q = Some row → q ∈ states A;
  valid_target : ∀ q a t x,
    entry A q a = Some t → x ∈ targets t → x ∈ states A
}.

(** A call that names a state outside [states] where a member is needed. *)
Definition names_non_member {k} (A : Automaton k) (o : op) : Prop :=
  match o with
  | SetInitialState q => q ∉ states A
  | ToggleFinalState q _ => q ∉ states A
  | AddTransition from _ to => from ∉ states A ∨ to ∉ states A
  | _ => False
  end.

(** What [removeState(q)] leaves behind. *)
Record removed {k} (q : string) (A : Automaton k) : Prop := {
  removed_state : q ∉ states A;
  removed_initial : initialState A ≠ Some q;
  removed_final : q ∉ finalStates A;
  removed_source : transitions A !! q = None;
  removed_target : ∀ q' a t, entry A q' a = Some t → q ∉ targets t;
  removed_empty : ∀ q' a t, entry A q' a = Some t → targets t ≠ []
}.

(** ** Names that are no inherited property *)

(** The rows of the table are own properties of [this.transitions]: no
    source of a transition has the name of an inherited property. *)
Definition own_rows {k} (A : Automaton k) : Prop :=
  map_Forall (λ q _, own_name q) (transitions A).

(** The state names that occur in an automaton: the states, the final
    states, the initial state, the sources and the targets of the table. *)
Definition names {k} (A : Automaton k) : list string :=
  states A ++ finalStates A ++ option_list (initialState A)
  ++ mjoin ((λ qr : string * gmap string (target k),
               qr.1 :: mjoin (targets <$> (map_to_list qr.2).*2))
              <$> map_to_list (transitions A)).

(** No state name that occurs in the automaton is the name of an inherited
    property. *)
Definition own_names {k} (A : Automaton k) : Prop :=
  Forall own_name (names A).

(** A call of [addTransition] whose source is no name of an inherited
    property; nothing is asked of the other calls. *)
Definition own_source (o : op) : Prop :=
  match o with
  | AddTransition from _ _ => own_name from
  | _ => True
  end.

#[global] Instance own_source_dec (o : op) : Decision (own_source o).
Proof. destruct o; cbn; apply _. Defined.

(** ** Example automata *)

(** [createSampleAutomaton()] *)
Definition sample : Automaton DFA :=
  run_ops DFA
    [AddState "q0"; AddState "q1"; AddState "q2";
     SetInitialState "q0"; ToggleFinalState "q2" true;
     SetAlphabet ["a"; "b"];
     AddTransition "q0" "a" "q1"; AddTransition "q0" "b" "q0";
     AddTransition "q1" "a" "q1"; AddTransition "q1" "b" "q2"].

(** The calls of [createSampleAutomaton()]. *)
Definition sample_calls : list op :=
  [AddState "q0"; AddState "q1"; AddState "q2";
   SetInitialState "q0"; ToggleFinalState "q2" true;
   SetAlphabet ["a"; "b"];
   AddTransition "q0" "a" "q1"; AddTransition "q0" "b" "q0";
   AddTransition "q1" "a" "q1"; AddTransition "q1" "b" "q2"].

(** A DFA whose one state has the empty name and is initial and final. *)
Definition empty_name : Automaton DFA :=
  run_ops DFA [AddState ""; SetInitialState ""; ToggleFinalState "" true].

(** Two states of a DFA that are ready for a transition. *)
Definition two_states (k : kind) : Automaton k :=
  run_ops k [AddState "q0"; AddState "q1"; SetInitialState "q0"].

(** An NFA with two targets for (q0, a) whose alphabet was then replaced
    by one without a. *)
Definition two_targets_outside_alphabet : Automaton NFA :=
  run_ops NFA
    [AddState "q0"; AddState "q1";
     AddTransition "q0" "a" "q0"; AddTransition "q0" "a" "q1";
     AddTransition "q1" "b" "q1";
     SetAlphabet ["b"]].

(** ** Structural validity *)

(** Every symbol of a transition other than epsilon is in the alphabet. *)
Definition symbols_in_alphabet {k} (A : Automaton k) : Prop :=
  ∀ q a t, entry A q a = Some t → a ≠ eps → a ∈ alphabet A.

(** The lists that stand for a [Set] have no repetition. *)
Record sets_nodup {k} (A : Automaton k) : Prop := {
  nodup_states : NoDup (states A);
  nodup_alphabet : NoDup (alphabet A);
  nodup_finalStates : NoDup (finalStates A);
  nodup_targets : ∀ q a t, entry A q a = Some t → NoDup (targets t)
}.

(** No row of the table has an epsilon entry that the engine sees (a
    truthy one). *)
Definition no_epsilon {k} (A : Automaton k) : Prop :=
  ∀ q, truthy_target (entry A q eps) = false.

(** ** Runs *)

(** [dfa_walk A q input qs]: from [q] the DFA reads all of [input], every
    symbol in the alphabet and every step along a transition to a state
    with a non-empty name; [qs] lists the state after each symbol. *)
Inductive dfa_walk (A : Automaton DFA)
    : string → list string → list string → Prop :=
  | dfa_walk_nil q : dfa_walk A q [] []
  | dfa_walk_cons q a q' input qs :
      a ∈ alphabet A →
      entry A q a = Some q' →
      q' ≠ "" →
      dfa_walk A q' input qs →
      dfa_walk A q (a :: input) (q' :: qs).

(** [nfa_walk A S input Ss]: the same for the state sets of an NFA, every
    set the non-empty closure of a move. *)
Inductive nfa_walk (A : Automaton NFA)
    : list string → list string → list (list string) → Prop :=
  | nfa_walk_nil S : nfa_walk A S [] []
  | nfa_walk_cons S a S' input Ss :
      a ∈ alphabet A →
      S' = _epsilonClosure A (move A S a) →
      S' ≠ [] →
      nfa_walk A S' input Ss →
      nfa_walk A S (a :: input) (S' :: Ss).

(** The last element of a walk, the start when the walk is empty. *)
Fixpoint last_of {X} (x : X) (xs : list X) : X :=
  match xs with
  | [] => x
  | x' :: xs' => last_of x' xs'
  end.

(** The entries that a walk adds to [path]: each state with the input that
    is left after the symbol that led to it. *)
Fixpoint walk_path {X} (entry_of : X → list string → PathEntry)
    (xs : list X) (input : list string) : list PathEntry :=
  match xs with
  | [] => []
  | x :: xs' => entry_of x (tail input) :: walk_path entry_of xs' (tail input)
  end.

(** The sample DFA after [setAlphabet(['b'])]: the transitions on a
    stay in the table. *)
Definition sample_alphabet_b : Automaton DFA :=
  setAlphabet ["b"] sample.

(** A DFA whose only final state cannot be reached. *)
Definition unreachable_final : Automaton DFA :=
  run_ops DFA
    [AddState "q0"; AddState "q1";
     SetInitialState "q0"; ToggleFinalState "q1" true].

(** An NFA for the words of one a or more: q0 loops on a and steps to the
    final state q1, which loops on a. *)
Definition a_plus : Automaton NFA :=
  run_ops NFA
    [AddState "q0"; AddState "q1";
     SetInitialState "q0"; ToggleFinalState "q1" true;
     AddTransition "q0" "a" "q0"; AddTransition "q0" "a" "q1";
     AddTransition "q1" "a" "q1"].

(** The state sets that the subset construction meets on [a_plus]. *)
Definition a_plus_set (n : nat) : list string :=
  "q0" :: repeat "q1" n.

(** ** Worklist loops *)

(** The states that a worklist loop may still add: the members of [U] that
    have not been seen. *)
Definition unseen (U seen : list string) : list string :=
  filter (λ x, x ∉ seen) U.

(** ** Partitions *)

(** The blocks are not empty and no state is in two blocks or twice in a
    block. *)
Definition partition_ok (partitions : list (list string)) : Prop :=
  NoDup (mjoin partitions) ∧ Forall (λ B, B ≠ []) partitions.

(** What a block becomes in a round of the refinement. *)
Definition split_or_keep (A : Automaton DFA) (partitions : list (list string))
    (partition : list string) : list (list string) :=
  let splits := _splitPartition A partition partitions in
  if decide (1 < length splits) then splits else [partition].

(** No block is split by a further round. *)
Definition stable (A : Automaton DFA) (partitions : list (list string))
    : Prop :=
  ∀ B, B ∈ partitions → length (_splitPartition A B partitions) ≤ 1.

(** The members of a block are all final or all not final. *)
Definition same_finality (A : Automaton DFA) (B : list string) : Prop :=
  ∀ x y, x ∈ B → y ∈ B →
         set_has x (finalStates A) = set_has y (finalStates A).

(** The groups of [_splitPartition] after the members [E] of the block:
    the keys are distinct, a group holds members with its key, no group is
    empty, and the groups hold the members seen so far. *)
Record groups_ok (key : string → option nat) (E : list string)
    (groups : list (option nat * list string)) : Prop := {
  groups_keys : NoDup groups.*1;
  groups_key : ∀ k ms x, (k, ms) ∈ groups → x ∈ ms → key x = k;
  groups_nonempty : Forall (λ B, B ≠ []) groups.*2;
  groups_members : mjoin groups.*2 ≡ₚ E
}.

(** The name that the second loop of step 4 writes for the symbol [a] of
    the row of a representative, if it writes one. *)
Definition rep_write (stateMap : gmap string string)
    (row : gmap string string) (a : string) : option string :=
  match row !! a with
  | Some t => if truthy_str t then stateMap !! t else None
  | None => None
  end.

(** The name that the second loop of step 4 writes at the pair [(q, a)] of
    the new table when it comes to the block [B], if it writes one. *)
Definition block_write (A : Automaton DFA) (stateMap : gmap string string)
    (B : list string) (q a : string) : option string :=
  match B with
  | [] => None
  | r :: _ =>
      match stateMap !! r, transitions A !! r with
      | Some partitionState, Some row =>
          if decide (q = partitionState ∧ a ∈ alphabet A)
          then rep_write stateMap row a else None
      | _, _ => None
      end
  end.

(** ** Serialization *)

(** A DFA with one state whose only transition was removed: the row of q0
    stays in the table, empty. *)
Definition emptied_row : Automaton DFA :=
  run_ops DFA
    [AddState "q0"; AddTransition "q0" "a" "q0";
     RemoveTransition "q0" "a" "q0"].

(** The automaton with another table. *)
Definition set_transitions {k} (t : gmap string (gmap string (target k)))
    (A : Automaton k) : Automaton k :=
  mkAutomaton (states A) (alphabet A) t (initialState A) (finalStates A).

(** A row without its entries for no target, and a table without such
    entries and without the rows that are empty then. *)
Definition prune_row {k} (row : gmap string (target k))
    : gmap string (target k) :=
  filter (λ at_ : string * target k, targets at_.2 ≠ []) row.

Definition prune_table {k} (t : gmap string (gmap string (target k)))
    : gmap string (gmap string (target k)) :=
  filter (λ qr : string * gmap string (target k), qr.2 ≠ ∅)
    (prune_row <$> t).

(** The table has no empty row and no entry for no target. *)
Definition table_pruned {k} (A : Automaton k) : Prop :=
  (∀ q row, transitions A !! q = Some row → row ≠ ∅)
  ∧ (∀ q a t, entry A q a = Some t → targets t ≠ []).

(** Structural validity: the references are to members of [states], the
    symbols of the transitions other than epsilon are in the alphabet, and
    the Sets are Sets. *)
Definition structurally_valid {k} (A : Automaton k) : Prop :=
  references_valid A ∧ symbols_in_alphabet A ∧ sets_nodup A.

(** ** Objects of a heap *)

(** A heap with a simulator, at the address 0, that has loaded the sample
    DFA: the automaton is at 1, its Sets are at 2, 3 and 5, its table is
    at 4 and the rows of q0 and q1 are at 6 and 7; q2 has no row. *)
Definition sample_heap : Heap.heap :=
  list_to_map
    [(0, Heap.SimulatorObject (Some 1));
     (1, Heap.AutomatonObject DFA 2 3 4 (Some "q0") 5);
     (2, Heap.SetObject ["q0"; "q1"; "q2"]);
     (3, Heap.SetObject ["a"; "b"]);
     (4, Heap.PlainObject [("q0", Heap.Ref 6); ("q1", Heap.Ref 7)]);
     (5, Heap.SetObject ["q2"]);
     (6, Heap.PlainObject [("a", Heap.Str "q1"); ("b", Heap.Str "q0")]);
     (7, Heap.PlainObject [("a", Heap.Str "q1"); ("b", Heap.Str "q2")])].

(** ** Further example automata *)

(** A DFA with one state, initial and final, that loops on a: it has a
    transition for every state and symbol. *)
Definition loop_a : Automaton DFA :=
  run_ops DFA
    [AddState "q0"; SetInitialState "q0"; ToggleFinalState "q0" true;
     AddTransition "q0" "a" "q0"].

(** ** Transitions *)

(** [transition A q a x]: the table of [A] has the transition from [q] on
    [a] to [x]. *)
Definition transition {k} (A : Automaton k) (q a x : string) : Prop :=
  ∃ t, entry A q a = Some t ∧ x ∈ targets t.

(** [json_transition json q a x]: the table of the JSON object has the
    transition from [q] on [a] to [x]. *)
Definition json_transition {k} (json : JSON k) (q a x : string) : Prop :=
  ∃ row t, json_transitions json !! q = Some row ∧ row !! a = Some t
           ∧ x ∈ targets t.

(** What the calls of [addTransition] for one entry of a table leave of
    the entry in a new automaton with the states [S], when the source is in
    [S]: the targets that are in [S], no entry when there is none. *)
Definition keep_members {k} (S : list string) : target k → option (target k) :=
  match k with
  | DFA => λ t, if decide (t ∈ S) then Some t else None
  | NFA => λ ts,
      let l := new_Set (filter (λ x, x ∈ S) ts) in
      if decide (l = []) then None else Some l
  end.

(** Two automata of a kind that differ in their tables at most, and whose
    tables have the same entries. *)
Definition same_entries {k} (A B : Automaton k) : Prop :=
  states A = states B ∧ alphabet A = alphabet B
  ∧ initialState A = initialState B ∧ finalStates A = finalStates B
  ∧ ∀ q a, entry A q a = entry B q a.

(** ** Runs of an NFA and reachability *)

(** An epsilon-transition of the table. *)
Definition eps_step (A : Automaton NFA) (q q' : string) : Prop :=
  q' ∈ nfa_targets A q eps.

(** [nfa_run A q input r]: the NFA can go from [q] to [r] reading [input],
    along epsilon-transitions, which read nothing, and transitions on the
    next symbol of the input. *)
Inductive nfa_run (A : Automaton NFA) : string → list string → string → Prop :=
  | nfa_run_stop q : nfa_run A q [] q
  | nfa_run_eps q q' input r :
      eps_step A q q' → nfa_run A q' input r → nfa_run A q input r
  | nfa_run_symbol q a q' input r :
      q' ∈ nfa_targets A q a → nfa_run A q' input r →
      nfa_run A q (a :: input) r.

(** A transition of the table of a DFA, on any symbol. *)
Definition dfa_step (A : Automaton DFA) (q q' : string) : Prop :=
  ∃ a, entry A q a = Some q'.

(** ** Splitting a block *)

(** The symbol [a] tells two members of the block apart: their transitions
    on [a] lead into different blocks of [partitions], or one of them leads
    into a block and the other nowhere. *)
Definition tells_apart (A : Automaton DFA) (partitions : list (list string))
    (partition : list string) (a : string) : Prop :=
  ∃ x y, x ∈ partition ∧ y ∈ partition
         ∧ targetPartitionIndex A partitions x a
           ≠ targetPartitionIndex A partitions y a.

(** ** Renaming *)

(** The names given so far are q0, ..., q(n-1) for the counter n, and no
    two states have the same name. *)
Definition names_ok (st : gmap string string * nat) : Prop :=
  (∀ x nm, st.1 !! x = Some nm → ∃ i, i < st.2 ∧ nm = block_name i)
  ∧ (∀ x y nm, st.1 !! x = Some nm → st.1 !! y = Some nm → x = y).

(** [renamed f E B]: the transitions of [B] are the transitions [E] between
    states that [f] names, under their new names. *)
Definition renamed {k} (f : gmap string string)
    (E : string → string → string → Prop) (B : Automaton k) : Prop :=
  ∀ q' a x', transition B q' a x'
             ↔ ∃ q x, f !! q = Some q' ∧ f !! x = Some x' ∧ E q a x.

(** The array [S'] of the renamed automaton holds the new names of the
    states of the array [S], which all have one. *)
Definition renamed_set (f : gmap string string) (S S' : list string) : Prop :=
  (∀ x', x' ∈ S' ↔ ∃ x, x ∈ S ∧ f !! x = Some x')
  ∧ (∀ x, x ∈ S → is_Some (f !! x)).

(** ** The subset construction on an NFA with one target at most *)

(** The name of the state set that holds one state. *)
Definition name1 (q : string) : string := _getSetName [q].

(** No entry of the table is for epsilon, and for a symbol of the alphabet
    a state has one target at most. *)
Definition one_target (A : Automaton NFA) : Prop :=
  (∀ q, nfa_targets A q eps = [])
  ∧ (∀ q a, a ∈ alphabet A → length (nfa_targets A q a) ≤ 1).

(** The transition that the subset construction is to give the state set
    of [q] on [a]. *)
Definition succ_name (A : Automaton NFA) (q a : string) : option string :=
  if decide (a ∈ alphabet A ∧ a ≠ eps)
  then match nfa_targets A q a with
       | [t] => Some (name1 t)
       | _ => None
       end
  else None.

(** Every target of the table of an NFA, with repetitions. *)
Definition nfa_all_targets (A : Automaton NFA) : list string :=
  mjoin ((λ qr : string * gmap string (list string),
            mjoin ((map_to_list qr.2).*2)) <$> map_to_list (transitions A)).

(** The new automaton of [convertToDFA] while the loop runs on an NFA with
    one target at most: [known] lists the states whose sets have been met,
    [handled q a] says that the transition of the set of [q] on [a] has
    been looked at. *)
Record convert_inv (A : Automaton NFA) (q0 : string) (dfa : Automaton DFA)
    (known : list string) (handled : string → string → Prop) : Prop := {
  inv_nodup : NoDup known;
  inv_sub : ∀ q, q ∈ known → q = q0 ∨ q ∈ nfa_all_targets A;
  inv_states : ∀ n, n ∈ states dfa ↔ ∃ q, q ∈ known ∧ n = name1 q;
  inv_entry : ∀ n a,
    entry dfa n a = None
    ∨ ∃ q, q ∈ known ∧ n = name1 q ∧ entry dfa n a = succ_name A q a;
  inv_handled_known : ∀ q a, handled q a → q ∈ known;
  inv_handled : ∀ q a, handled q a →
                       entry dfa (name1 q) a = succ_name A q a;
  inv_final : ∀ n, n ∈ finalStates dfa
                   ↔ ∃ q, q ∈ known ∧ n = name1 q ∧ q ∈ finalStates A;
  inv_closed : ∀ q a t, handled q a → a ∈ alphabet A → a ≠ eps →
                        nfa_targets A q a = [t] → t ∈ known;
  inv_initial : initialState dfa = Some (name1 q0);
  inv_q0 : q0 ∈ known
}.

(** An NFA kept as the page keeps a deterministic automaton: q0 steps to q1
    on a, q1 loops on b and is final. *)
Definition a_then_bs : Automaton NFA :=
  run_ops NFA
    [AddState "q0"; AddState "q1";
     SetInitialState "q0"; ToggleFinalState "q1" true;
     AddTransition "q0" "a" "q1"; AddTransition "q1" "b" "q1"].
(** * Properties *)

(** ** Sets *)

Lemma set_has_true x l : set_has x l = true ↔ x ∈ l.
Proof. unfold set_has. apply bool_decide_eq_true. Qed.

Lemma set_has_false x l : set_has x l = false ↔ x ∉ l.
Proof. unfold set_has. apply bool_decide_eq_false. Qed.

Lemma elem_of_set_add x y l : x ∈ set_add y l ↔ x = y ∨ x ∈ l.
Proof.
  unfold set_add. destruct (set_has y l) eqn:E.
  - apply set_has_true in E. split; [auto | intros [-> | ?]; auto].
  - rewrite elem_of_app, list_elem_of_singleton. tauto.
Qed.

Lemma elem_of_set_delete x y l : x ∈ set_delete y l ↔ x ≠ y ∧ x ∈ l.
Proof. unfold set_delete. by rewrite list_elem_of_filter. Qed.

Lemma set_add_elem x l : x ∈ l → set_add x l = l.
Proof. intros H. unfold set_add. apply set_has_true in H. by rewrite H. Qed.

Lemma set_delete_not_elem x l : x ∉ l → set_delete x l = l.
Proof.
  intros H. unfold set_delete. induction l as [|y l IH]; [done|].
  rewrite filter_cons. apply not_elem_of_cons in H as [Hne Hl].
  destruct (decide (y ≠ x)) as [?|Hn]; [by rewrite IH|].
  destruct Hn. by intros ->.
Qed.

(** ** The membership invariant of the model API *)

Lemma entry_Some {k} (A : Automaton k) q a t :
  entry A q a = Some t ↔
  ∃ row, transitions A !! q = Some row ∧ row !! a = Some t.
Proof.
  unfold entry. destruct (transitions A !! q) as [row|]; simpl.
  - split; [eauto | by intros (? & [= <-] & ?)].
  - split; [done | by intros (? & ? & ?)].
Qed.

Lemma drop_target_Some {k} q (t t' : target k) :
  drop_target q t = Some t' →
  (∀ x, x ∈ targets t' → x ∈ targets t ∧ x ≠ q) ∧ targets t' ≠ [].
Proof.
  destruct k; simpl.
  - case_decide; [done|]. intros [= <-]. split; [|done].
    intros x ->%list_elem_of_singleton. split; [|done].
    by apply list_elem_of_singleton.
  - case_decide; [done|]. intros [= <-].
    split; [|done]. intros x Hx%elem_of_set_delete. tauto.
Qed.

Lemma removeState_entry {k} q (A : Automaton k) q' a t' :
  entry (removeState q A) q' a = Some t' →
  q' ≠ q ∧ ∃ t, entry A q' a = Some t ∧ drop_target q t = Some t'.
Proof.
  rewrite entry_Some. simpl. intros (row' & Hrow' & Ha).
  apply lookup_fmap_Some in Hrow' as (row & <- & Hrow).
  apply lookup_delete_Some in Hrow as [Hne Hrow].
  unfold drop_row in Ha. apply lookup_omap_Some in Ha as (t & Hd & Ht).
  split; [done|]. exists t. split; [|done]. apply entry_Some. eauto.
Qed.

Lemma removeState_removed {k} q (A : Automaton k) : removed q (removeState q A).
Proof.
  split; simpl.
  - rewrite elem_of_set_delete. tauto.
  - destruct (decide (initialState A = Some q)); [done|done].
  - rewrite elem_of_set_delete. tauto.
  - rewrite lookup_fmap, lookup_delete_eq. done.
  - intros q' a t' (_ & t & _ & Hd)%removeState_entry Hin.
    apply drop_target_Some in Hd as [Hd _]. by destruct (Hd _ Hin).
  - intros q' a t' (_ & t & _ & Hd)%removeState_entry.
    by apply drop_target_Some in Hd as [_ Hd].
Qed.

Lemma removeState_valid {k} q (A : Automaton k) :
  references_valid A → references_valid (removeState q A).
Proof.
  intros [Hi Hf Hs Ht]. split; simpl.
  - intros q'. destruct (decide (initialState A = Some q)); [done|].
    intros Hq'. apply elem_of_set_delete. split; [congruence | auto].
  - intros q' [? ?]%elem_of_set_delete. apply elem_of_set_delete. auto.
  - intros q' row' (row & <- & Hrow)%lookup_fmap_Some.
    apply lookup_delete_Some in Hrow as [Hne Hrow].
    apply elem_of_set_delete. eauto.
  - intros q' a t' x (_ & t & He & Hd)%removeState_entry Hx.
    apply drop_target_Some in Hd as [Hd _]. destruct (Hd _ Hx).
    apply elem_of_set_delete. eauto.
Qed.

Lemma addState_valid {k} q (A : Automaton k) :
  references_valid A → references_valid (addState q A).
Proof.
  intros [Hi Hf Hs Ht].
  split; simpl; intros; apply elem_of_set_add; right; eauto.
Qed.

Lemma setAlphabet_valid {k} l (A : Automaton k) :
  references_valid A → references_valid (setAlphabet l A).
Proof. intros [Hi Hf Hs Ht]. split; simpl; eauto. Qed.

Lemma setInitialState_valid {k} q (A : Automaton k) :
  references_valid A → references_valid (setInitialState q A).
Proof.
  intros HA. unfold setInitialState. destruct (set_has q (states A)) eqn:E; [|done].
  destruct HA as [Hi Hf Hs Ht]. split; simpl; eauto.
  intros q' [= <-]. by apply set_has_true.
Qed.

Lemma toggleFinalState_valid {k} q b (A : Automaton k) :
  references_valid A → references_valid (toggleFinalState q b A).
Proof.
  intros HA. unfold toggleFinalState.
  destruct (set_has q (states A)) eqn:E; [|done].
  apply set_has_true in E. destruct HA as [Hi Hf Hs Ht]. split; simpl; eauto.
  intros q'. destruct b.
  - intros [-> | ?]%elem_of_set_add; eauto.
  - intros [? ?]%elem_of_set_delete; eauto.
Qed.

Lemma put_target_elem {k} to (old : option (target k)) x :
  x ∈ targets (put_target to old) →
  x = to ∨ ∃ t, old = Some t ∧ x ∈ targets t.
Proof.
  destruct k; simpl.
  - intros ->%list_elem_of_singleton. by left.
  - intros [-> | Hx]%elem_of_set_add; [by left|].
    destruct old as [t|]; simpl in Hx; [eauto | by apply elem_of_nil in Hx].
Qed.

(** The table after a successful [addTransition]. *)
Lemma addTransition_entry {k} from a to (A : Automaton k) q b :
  (addTransition from a to A).1 = true →
  entry (addTransition from a to A).2 q b =
    if decide (q = from ∧ b = a) then Some (put_target to (entry A from a))
    else entry A q b.
Proof.
  unfold addTransition.
  destruct (negb (set_has from (states A)) || negb (set_has to (states A)));
    [done|]. intros _. simpl. unfold entry. simpl.
  destruct (decide (q = from)) as [->|Hq].
  - rewrite lookup_insert_eq. simpl.
    destruct (decide (b = a)) as [->|Hb].
    + rewrite lookup_insert_eq. rewrite decide_True by done.
      by destruct (transitions A !! from).
    + rewrite lookup_insert_ne by done. rewrite decide_False by tauto.
      by destruct (transitions A !! from).
  - rewrite lookup_insert_ne by done. by rewrite decide_False by tauto.
Qed.

Lemma addTransition_true {k} from a to (A : Automaton k) :
  (addTransition from a to A).1 = true ↔ from ∈ states A ∧ to ∈ states A.
Proof.
  unfold addTransition. rewrite <- !set_has_true.
  destruct (set_has from (states A)), (set_has to (states A)); simpl;
    intuition congruence.
Qed.

Lemma addTransition_false {k} from a to (A : Automaton k) :
  (addTransition from a to A).1 = false → (addTransition from a to A).2 = A.
Proof.
  unfold addTransition.
  by destruct (negb (set_has from (states A)) || negb (set_has to (states A))).
Qed.

Lemma addTransition_valid {k} from a to (A : Automaton k) :
  references_valid A → references_valid (addTransition from a to A).2.
Proof.
  intros HA. destruct (addTransition from a to A).1 eqn:E;
    [|by rewrite addTransition_false].
  pose proof (addTransition_entry from a to A) as Hent.
  apply addTransition_true in E as HE. destruct HE as [Hfrom Hto].
  destruct HA as [Hi Hf Hs Ht]. split.
  - revert E. unfold addTransition.
    destruct (_ || _); [done|]. simpl. eauto.
  - revert E. unfold addTransition.
    destruct (_ || _); [done|]. simpl. eauto.
  - revert E. unfold addTransition.
    destruct (_ || _); [done|]. simpl. intros _ q row.
    destruct (decide (q = from)) as [->|Hq]; [done|].
    rewrite lookup_insert_ne by done. eauto.
  - intros q b t x. rewrite Hent by done.
    assert (states (addTransition from a to A).2 = states A) as ->.
    { revert E. unfold addTransition. by destruct (_ || _). }
    destruct (decide _) as [[-> ->]|_]; [|eauto].
    intros [= <-] [-> | (t0 & Hold & Hx)]%put_target_elem; eauto.
Qed.

Lemma unput_target_Some {k} to (t t' : target k) :
  unput_target to t = Some t' → ∀ x, x ∈ targets t' → x ∈ targets t.
Proof.
  destruct k; simpl; [done|].
  case_decide; [done|]. intros [= <-].
  intros x Hx%elem_of_set_delete. tauto.
Qed.

(** A call of [removeTransition] only takes targets away. *)
Lemma removeTransition_entry {k} from a to (A : Automaton k) q b t' :
  entry (removeTransition from a to A).2 q b = Some t' →
  ∃ t, entry A q b = Some t ∧ ∀ x, x ∈ targets t' → x ∈ targets t.
Proof.
  unfold removeTransition.
  destruct (transitions A !! from) as [row|] eqn:Hrow; [|by eauto].
  destruct (negb (truthy_target (row !! a))); [by eauto|].
  rewrite !entry_Some. simpl. intros (row' & Hrow' & Hb).
  destruct (decide (q = from)) as [->|Hq].
  - rewrite lookup_insert_eq in Hrow'. injection Hrow' as <-.
    setoid_rewrite entry_Some. setoid_rewrite Hrow.
    destruct (row !! a) as [t|] eqn:Ha; [|by eauto 6].
    destruct (unput_target to t) as [t2|] eqn:Hu.
    + destruct (decide (b = a)) as [->|Hb'].
      * rewrite lookup_insert_eq in Hb. injection Hb as <-.
        exists t. split; [eauto|]. by eapply unput_target_Some.
      * rewrite lookup_insert_ne in Hb by done. eauto 6.
    + apply lookup_delete_Some in Hb as [_ Hb]. eauto 6.
  - rewrite lookup_insert_ne in Hrow' by done.
    exists t'. split; [|done]. apply entry_Some. eauto.
Qed.

Lemma removeTransition_valid {k} from a to (A : Automaton k) :
  references_valid A → references_valid (removeTransition from a to A).2.
Proof.
  intros HA. pose proof (removeTransition_entry from a to A) as Hent.
  destruct HA as [Hi Hf Hs Ht]. split.
  - unfold removeTransition. destruct (transitions A !! from); [|done].
    destruct (negb _); simpl; eauto.
  - unfold removeTransition. destruct (transitions A !! from); [|done].
    destruct (negb _); simpl; eauto.
  - unfold removeTransition.
    destruct (transitions A !! from) eqn:Hrow; [|done].
    destruct (negb _); simpl; eauto. intros q row'.
    destruct (decide (q = from)) as [->|Hq]; [eauto|].
    rewrite lookup_insert_ne by done. eauto.
  - intros q b t' x (t & He & Hsub)%Hent Hx.
    assert (states (removeTransition from a to A).2 = states A) as ->.
    { unfold removeTransition. destruct (transitions A !! from); [|done].
      by destruct (negb _). }
    eauto.
Qed.

Lemma apply_op_valid {k} o (A : Automaton k) :
  references_valid A → references_valid (apply_op o A).
Proof.
  destruct o; simpl;
    auto using addState_valid, removeState_valid, setAlphabet_valid,
      setInitialState_valid, toggleFinalState_valid, addTransition_valid,
      removeTransition_valid.
Qed.

Lemma new_Automaton_valid k : references_valid (new_Automaton k).
Proof.
  split; simpl; done.
Qed.

Lemma foldl_apply_op_valid {k} ops (A : Automaton k) :
  references_valid A → references_valid (foldl (λ A o, apply_op o A) A ops).
Proof.
  revert A. induction ops as [|o ops IH]; intros A HA; simpl; [done|].
  apply IH. by apply apply_op_valid.
Qed.

Lemma names_non_member_unchanged {k} (A : Automaton k) o :
  names_non_member A o → apply_op o A = A.
Proof.
  destruct o; simpl; try done.
  - intros H%set_has_false. unfold setInitialState. by rewrite H.
  - intros H%set_has_false. unfold toggleFinalState. by rewrite H.
  - intros H. apply addTransition_false.
    destruct (addTransition from a to A).1 eqn:E; [|done].
    apply addTransition_true in E. tauto.
Qed.

(** The invariant of the model API where every row is an own property of
    the table.  After any sequence of calls on a new automaton in which
    [addTransition] is given no source with the name of an inherited
    property, the initial state (when set), every source and every target
    of a transition and every final state are members of [states]; a call
    of [setInitialState], [toggleFinalState] or [addTransition] that names
    a state outside [states] returns the automaton as it was; and
    [removeState(q)] leaves no row of [q], no entry that points to [q], no
    empty target set, and [q] neither initial nor final. *)
Theorem model_api_references_valid (k : kind) (ops : list op) :
  Forall own_source ops →
  references_valid (run_ops k ops)
  ∧ (∀ o, names_non_member (run_ops k ops) o →
          apply_op o (run_ops k ops) = run_ops k ops)
  ∧ (∀ q, removed q (removeState q (run_ops k ops))).
Proof.
  intros _. split; [|split].
  - apply foldl_apply_op_valid, new_Automaton_valid.
  - intros o. apply names_non_member_unchanged.
  - intros q. apply removeState_removed.
Qed.

(** The calls that build the sample DFA name q0, q1 and q2 as sources. *)
Lemma model_api_references_valid_sample :
  references_valid sample
  ∧ (∀ o, names_non_member sample o → apply_op o sample = sample)
  ∧ (∀ q, removed q (removeState q sample)).
Proof.
  apply (model_api_references_valid DFA sample_calls).
  apply (bool_decide_unpack _). by vm_compute.
Defined.

(** ** Transitions of a DFA *)

Lemma addTransition_alphabet {k} from a to (A : Automaton k) :
  (addTransition from a to A).1 = true →
  alphabet (addTransition from a to A).2 =
    if decide (a = eps) then alphabet A else set_add a (alphabet A).
Proof.
  unfold addTransition. by destruct (_ || _).
Qed.

(** C8, the claim at a concrete input: [addTransition('q0', 'ε', 'q1')] on
    a DFA with the states [q0] and [q1] succeeds and the table then has the
    epsilon-transition. *)
Lemma dfa_addTransition_stores_eps :
  (addTransition "q0" eps "q1" (two_states DFA)).1 = true
  ∧ entry (addTransition "q0" eps "q1" (two_states DFA)).2 "q0" eps
    = Some "q1".
Proof. by vm_compute. Qed.

(** C8, amended.  After any sequence of calls of the model API on a new
    DFA, none of which gives [addTransition] a source with the name of an
    inherited property, every entry of the table holds one target;
    [addTransition] from such a source, between two members of [states],
    succeeds for every symbol, epsilon included: it puts the new target in
    the place of the one the pair had, leaves the other pairs alone, and
    registers the symbol in the alphabet unless it is epsilon. *)
Theorem dfa_one_target_per_pair (ops : list op) :
  Forall own_source ops →
  (∀ q a t, entry (run_ops DFA ops) q a = Some t → length (targets t) = 1)
  ∧ (∀ from a to,
       own_name from →
       from ∈ states (run_ops DFA ops) → to ∈ states (run_ops DFA ops) →
       (addTransition from a to (run_ops DFA ops)).1 = true
       ∧ entry (addTransition from a to (run_ops DFA ops)).2 from a = Some to
       ∧ (∀ q b, ¬ (q = from ∧ b = a) →
            entry (addTransition from a to (run_ops DFA ops)).2 q b
            = entry (run_ops DFA ops) q b)
       ∧ alphabet (addTransition from a to (run_ops DFA ops)).2
         = if decide (a = eps) then alphabet (run_ops DFA ops)
           else set_add a (alphabet (run_ops DFA ops))).
Proof.
  intros _. split; [done|]. intros from a to _ Hfrom Hto.
  assert ((addTransition from a to (run_ops DFA ops)).1 = true) as Hok
    by by apply addTransition_true.
  split; [done|]. split; [|split].
  - rewrite addTransition_entry by done. by rewrite decide_True.
  - intros q b Hne. rewrite addTransition_entry by done.
    by rewrite decide_False.
  - by apply addTransition_alphabet.
Qed.

(** The calls that build the sample DFA name q0, q1 and q2 only. *)
Lemma dfa_one_target_per_pair_sample :
  (∀ q a t, entry sample q a = Some t → length (targets t) = 1)
  ∧ (∀ from a to,
       own_name from → from ∈ states sample → to ∈ states sample →
       (addTransition from a to sample).1 = true
       ∧ entry (addTransition from a to sample).2 from a = Some to
       ∧ (∀ q b, ¬ (q = from ∧ b = a) →
            entry (addTransition from a to sample).2 q b = entry sample q b)
       ∧ alphabet (addTransition from a to sample).2
         = if decide (a = eps) then alphabet sample
           else set_add a (alphabet sample)).
Proof.
  apply (dfa_one_target_per_pair sample_calls).
  apply (bool_decide_unpack _). by vm_compute.
Defined.

(** ** The determinism check *)

Lemma symbolInUse_true {k} a (A : Automaton k) :
  symbolInUse a (transitions A) = true ↔
  ∃ q, truthy_target (entry A q a) = true.
Proof.
  unfold symbolInUse. rewrite bool_decide_eq_true, map_Exists_lookup.
  split.
  - intros (q & row & Hrow & Ht). exists q. unfold entry. by rewrite Hrow.
  - intros (q & Ht). unfold entry in Ht.
    destruct (transitions A !! q) as [row|] eqn:Hrow; simpl in Ht; [by eauto|].
    by destruct k.
Qed.

Lemma symbolInUse_false {k} a (A : Automaton k) :
  symbolInUse a (transitions A) = false ↔
  ∀ q, truthy_target (entry A q a) = false.
Proof.
  rewrite <- not_true_iff_false, symbolInUse_true. split.
  - intros Hn q. apply not_true_iff_false. eauto.
  - intros Hall (q & Hq). by rewrite Hall in Hq.
Qed.

Lemma several_targets_true {k} (o : option (target k)) :
  several_targets o = true ↔ ∃ t, o = Some t ∧ 1 < length (targets t).
Proof.
  destruct k; simpl.
  - split; [done|]. intros (t & _ & Hlen). simpl in Hlen. lia.
  - destruct o as [ts|].
    + rewrite bool_decide_eq_true. split; [by eauto|].
      by intros (t & [= <-] & ?).
    + split; [done|]. by intros (t & ? & _).
Qed.


Lemma isDeterministic_true {k} (A : Automaton k) :
  isDeterministic (Some A) = true ↔
  states A = [] ∨ alphabet A = []
  ∨ (no_epsilon A
     ∧ ∀ q a t, q ∈ states A → a ∈ alphabet A → 2 ≤ length (states A) →
                entry A q a = Some t → length (targets t) ≤ 1).
Proof.
  unfold isDeterministic.
  destruct (states A) as [|q0 qs] eqn:Hst; [simpl; tauto|].
  destruct (alphabet A) as [|a0 al] eqn:Hal; [simpl; tauto|].
  rewrite <- Hst, <- Hal.
  assert (bool_decide (length (states A) = 0)
          || bool_decide (length (alphabet A) = 0) = false) as ->.
  { by rewrite Hst, Hal. }
  destruct (symbolInUse eps (transitions A)) eqn:Heps.
  - split; [done|]. intros [H|[H|[Hno _]]]; [congruence..|].
    apply (proj2 (symbolInUse_false _ _)) in Hno. congruence.
  - pose proof (proj1 (symbolInUse_false _ _) Heps) as Hno.
    rewrite forallb_forall. setoid_rewrite forallb_forall.
    setoid_rewrite <- list_elem_of_In. split.
    + intros Hall. right. right. split; [done|].
      intros q a t Hq Ha Hlen Hent. specialize (Hall q Hq a Ha).
      rewrite bool_decide_eq_false_2 in Hall by lia.
      apply negb_true_iff in Hall.
      destruct (decide (length (targets t) ≤ 1)) as [|Hn]; [done|].
      assert (several_targets (entry A q a) = true) as Hs; [|congruence].
      apply several_targets_true. exists t. split; [done|lia].
    + intros [H|[H|[_ Hall]]]; [congruence..|]. intros q Hq a Ha.
      case_bool_decide as Hlen; [done|]. apply negb_true_iff.
      apply not_true_iff_false. intros (t & Hent & Ht)%several_targets_true.
      specialize (Hall q a t Hq Ha ltac:(lia) Hent). lia.
Qed.

(** Two distinct members make a list of length two at least. *)
Lemma two_members_length (x y : string) (l : list string) :
  x ∈ l → y ∈ l → x ≠ y → 2 ≤ length l.
Proof.
  destruct l as [|a [|b l]]; simpl; [| |lia].
  - by intros ?%elem_of_nil.
  - intros ->%list_elem_of_singleton ->%list_elem_of_singleton. done.
Qed.

Lemma several_members (l : list string) :
  NoDup l → 1 < length l → ∃ x y, x ∈ l ∧ y ∈ l ∧ x ≠ y.
Proof.
  destruct l as [|x [|y l]]; simpl; [lia..|]. intros Hnd _.
  exists x, y. split; [by left|]. split; [right; by left|].
  apply NoDup_cons in Hnd as [Hx _]. intros ->. apply Hx. by left.
Qed.

(** ** Simulation errors *)

Lemma _simulateDFA_loop_walk (A : Automaton DFA) q input qs :
  dfa_walk A q input qs →
  ∀ path rest,
    _simulateDFA_loop A q path (input ++ rest) =
    _simulateDFA_loop A (last_of q qs)
      (path ++ walk_path AtState qs (input ++ rest)) rest.
Proof.
  induction 1 as [q|q a q' input qs Ha Hent Hq' _ IH]; intros path rest.
  - simpl. by rewrite app_nil_r.
  - simpl. apply set_has_true in Ha. rewrite Ha. simpl. rewrite Hent.
    assert (truthy_str q' = true) as ->.
    { unfold truthy_str. apply negb_true_iff, String.eqb_neq. done. }
    rewrite IH. by rewrite <- app_assoc.
Qed.

Lemma _simulateNFA_loop_walk (A : Automaton NFA) S input Ss :
  nfa_walk A S input Ss →
  ∀ path rest,
    _simulateNFA_loop A S path (input ++ rest) =
    _simulateNFA_loop A (last_of S Ss)
      (path ++ walk_path AtStates Ss (input ++ rest)) rest.
Proof.
  induction 1 as [S|S a S' input Ss Ha HS' Hne _ IH]; intros path rest.
  - simpl. by rewrite app_nil_r.
  - simpl. apply set_has_true in Ha. rewrite Ha. simpl. rewrite <- HS'.
    rewrite decide_False by done. rewrite IH. by rewrite <- app_assoc.
Qed.

Lemma truthy_str_true q : q ≠ "" → truthy_str q = true.
Proof. intros. unfold truthy_str. by apply negb_true_iff, String.eqb_neq. Qed.



(** C4, at a failing input.  On the sample DFA and the input "c", whose
    symbol is outside the alphabet, [simulate] stops with [UnknownSymbol]
    and [simulateStep(input, 1)] reports [MissingTransition]: it has no
    test of the alphabet.  Once the alphabet of the sample is replaced by
    {b}, [simulate] rejects "ab" with [UnknownSymbol] and
    [simulateStep("ab", 2)] follows the transitions and accepts. *)
Lemma simulateStep_has_no_alphabet_check :
  SimulationResult.error (simulate sample ["c"]) = Some (UnknownSymbol "c")
  ∧ SimulationState.error <$> simulateStep sample ["c"] 1
    = Some (Some (MissingTransition "q0" "c"))
  ∧ simulate sample_alphabet_b ["a"; "b"]
    = SimulationResult.mk false [AtState "q0" ["a"; "b"]]
        (Some (UnknownSymbol "a"))
  ∧ simulateStep sample_alphabet_b ["a"; "b"] 2
    = Some (SimulationState.mk (Some "q2") None [] true true None).
Proof. by vm_compute. Qed.

(** C6, at a failing input.  The final state q1 of [unreachable_final]
    cannot be reached from the initial state q0, and [minimize] returns an
    automaton with a state for the block {q1}: the state q0 of the result,
    which is final, beside the initial state q1 for the block {q0}. *)
Lemma minimize_keeps_unreachable_final (fuel : nat) :
  _getReachableStates unreachable_final "q0" = ["q0"]
  ∧ refine_loop unreachable_final (S fuel)
      (initial_partitions unreachable_final "q0") = Some [["q1"]; ["q0"]]
  ∧ minimize (S fuel) unreachable_final
    = Some (mkAutomaton ["q0"; "q1"] [] ∅ (Some "q1") ["q0"]).
Proof. by vm_compute. Qed.

(** ** Subset construction on [a_plus] *)

Lemma string_length_app (s1 s2 : string) :
  String.length (s1 +:+ s2) = String.length s1 + String.length s2.
Proof. induction s1 as [|c s1 IH]; simpl; [done|]. by rewrite IH. Qed.

Lemma join_repeat_length (acc : string) (n : nat) :
  String.length (foldl (λ acc x, acc +:+ "," +:+ x) acc (repeat "q1" n))
  = String.length acc + 3 * n.
Proof.
  revert acc. induction n as [|n IH]; intros acc; simpl; [lia|].
  rewrite IH, !string_length_app. simpl. lia.
Qed.

Lemma a_plus_set_name_length (n : nat) :
  String.length (_getSetName (a_plus_set n)) = 4 + 3 * n.
Proof.
  unfold a_plus_set, _getSetName.
  rewrite !string_length_app, join_repeat_length. simpl. lia.
Qed.

Lemma js_sort_repeat (n : nat) : js_sort (repeat "q1" n) = repeat "q1" n.
Proof.
  induction n as [|n IH]; [done|].
  change (js_sort (repeat "q1" (S n)))
    with (sort_insert "q1" (js_sort (repeat "q1" n))).
  rewrite IH. by destruct n.
Qed.

Lemma js_sort_a_plus_set (n : nat) : js_sort (a_plus_set n) = a_plus_set n.
Proof.
  unfold a_plus_set. change (js_sort ("q0" :: repeat "q1" n))
    with (sort_insert "q0" (js_sort (repeat "q1" n))).
  rewrite js_sort_repeat. by destruct n.
Qed.

Lemma closure_loop_no_eps (A : Automaton NFA) fuel closure stack :
  (∀ q, nfa_targets A q eps = []) → length stack ≤ fuel →
  closure_loop A fuel closure stack = Some closure.
Proof.
  intros Hno. unfold closure_loop. revert fuel.
  induction stack as [|q stack IH]; intros fuel Hlen.
  - by destruct fuel.
  - destruct fuel as [|fuel]; simpl in *; [lia|]. rewrite Hno. simpl.
    apply IH. lia.
Qed.

Lemma _epsilonClosure_no_eps (A : Automaton NFA) (stateSet : list string) :
  (∀ q, nfa_targets A q eps = []) →
  _epsilonClosure A stateSet = js_sort stateSet.
Proof.
  intros Hno. unfold _epsilonClosure. rewrite closure_loop_no_eps; [done..|].
  unfold closure_fuel. rewrite length_reverse. lia.
Qed.

Lemma a_plus_no_eps q : nfa_targets a_plus q eps = [].
Proof.
  assert (symbolInUse eps (transitions a_plus) = false) as H by by vm_compute.
  pose proof (proj1 (symbolInUse_false _ _) H q) as Hq.
  unfold nfa_targets. destruct (entry a_plus q eps); [|done].
  unfold truthy_target in Hq. by rewrite bool_decide_eq_true_2 in Hq.
Qed.

Lemma a_plus_targets :
  nfa_targets a_plus "q0" "a" = ["q0"; "q1"]
  ∧ nfa_targets a_plus "q1" "a" = ["q1"]
  ∧ alphabet a_plus = ["a"]
  ∧ initialState a_plus = Some "q0"
  ∧ _epsilonClosure a_plus ["q0"] = a_plus_set 0.
Proof. by vm_compute. Qed.

Lemma a_plus_move (n : nat) :
  move a_plus (a_plus_set n) "a" = a_plus_set (S n).
Proof.
  destruct a_plus_targets as (Hq0 & Hq1 & _).
  unfold move, a_plus_set. rewrite fmap_cons, Hq0.
  change (mjoin (["q0"; "q1"] :: ?l)) with ("q0" :: "q1" :: mjoin l).
  change (repeat "q1" (S n)) with ("q1" :: repeat "q1" n).
  do 2 f_equal. induction n as [|n IH]; [done|].
  change (repeat "q1" (S n)) with ("q1" :: repeat "q1" n).
  rewrite fmap_cons, Hq1.
  change (mjoin (["q1"] :: ?l)) with ("q1" :: mjoin l).
  by rewrite IH.
Qed.

Lemma a_plus_next (n : nat) :
  _getNextStates a_plus (a_plus_set n) "a" = a_plus_set (S n).
Proof.
  unfold _getNextStates. rewrite a_plus_move.
  rewrite _epsilonClosure_no_eps by apply a_plus_no_eps.
  apply js_sort_a_plus_set.
Qed.

Lemma toggleFinalState_states {k} q b (A : Automaton k) :
  states (toggleFinalState q b A) = states A.
Proof. unfold toggleFinalState. by destruct (set_has q (states A)). Qed.

Lemma addTransition_states {k} from a to (A : Automaton k) :
  states (addTransition from a to A).2 = states A.
Proof. unfold addTransition. by destruct (_ || _). Qed.

Lemma convert_loop_step (A : Automaton NFA) fuel dfa cur rest processed :
  convert_loop A (S fuel) dfa (cur :: rest) processed =
  convert_loop A fuel
    (fst (foldl (convert_symbol A (processed ++ [cur]) cur) (dfa, rest)
            (alphabet A)))
    (snd (foldl (convert_symbol A (processed ++ [cur]) cur) (dfa, rest)
            (alphabet A)))
    (processed ++ [cur]).
Proof. done. Qed.

Lemma name_longer_not_elem (name : string) (l : list string) (n : nat) :
  Forall (λ x, String.length x ≤ n) l → n < String.length name → name ∉ l.
Proof.
  intros Hall Hlen Hin. rewrite Forall_forall in Hall.
  specialize (Hall _ Hin). lia.
Qed.

Lemma existsb_name_longer (name : string) (l : list (list string)) (n : nat) :
  Forall (λ s, String.length (_getSetName s) ≤ n) l →
  n < String.length name →
  existsb (λ s, String.eqb (_getSetName s) name) l = false.
Proof.
  intros Hall Hlen. apply not_true_iff_false.
  intros (s & Hs & Heq)%existsb_exists. apply list_elem_of_In in Hs.
  rewrite Forall_forall in Hall. specialize (Hall _ Hs).
  apply String.eqb_eq in Heq. subst. lia.
Qed.

(** The queue of the subset construction on [a_plus] is never empty: the
    set met in round [n] has [n] copies of q1 and brings a set with one
    more, under a name that is new. *)
Lemma a_plus_convert_loop (fuel n : nat) (dfa : Automaton DFA)
    (processed : list (list string)) :
  Forall (λ x, String.length x ≤ 4 + 3 * n) (states dfa) →
  Forall (λ s, String.length (_getSetName s) ≤ 4 + 3 * n) processed →
  convert_loop a_plus fuel dfa [a_plus_set n] processed = None.
Proof.
  revert n dfa processed.
  induction fuel as [|fuel IH]; intros n dfa processed Hst Hpr; [done|].
  destruct a_plus_targets as (_ & _ & Halphabet & _).
  rewrite convert_loop_step, Halphabet. cbn [foldl]. unfold convert_symbol.
  rewrite decide_False by done.
  rewrite a_plus_next.
  rewrite decide_False by done.
  pose proof (a_plus_set_name_length (S n)) as Hlen.
  rewrite (proj2 (set_has_false _ _)); last first.
  { eapply name_longer_not_elem; [done|]. lia. }
  rewrite (existsb_name_longer _ _ (4 + 3 * n)); [|..|lia]; last first.
  { apply Forall_app. split; [done|]. apply Forall_singleton.
    rewrite a_plus_set_name_length. lia. }
  cbn [existsb negb andb app fst snd]. apply IH.
  - rewrite addTransition_states.
    assert (∀ B : Automaton DFA,
      states B = states (addState (_getSetName (a_plus_set (S n))) dfa) →
      Forall (λ x, String.length x ≤ 4 + 3 * S n) (states B)) as Hgoal.
    { intros B ->. cbn [addState states]. unfold set_add.
      rewrite (proj2 (set_has_false _ _)); last first.
      { eapply name_longer_not_elem; [done|]. lia. }
      apply Forall_app. split.
      - eapply Forall_impl; [done|]. cbn beta. intros. lia.
      - apply Forall_singleton. lia. }
    apply Hgoal. destruct (any_final _ _); [|done].
    by rewrite toggleFinalState_states.
  - apply Forall_app. split.
    + eapply Forall_impl; [done|]. cbn beta. intros. lia.
    + apply Forall_singleton. rewrite a_plus_set_name_length. lia.
Qed.

(** C1, at a failing input.  [a_plus] has an initial state and accepts the
    input "a", and [convertToDFA] returns no automaton for it however many
    rounds its loop is given: the state sets are arrays that keep their
    repetitions, so every round meets a set under a new name. *)
Theorem convertToDFA_a_plus_never_returns :
  initialState a_plus = Some "q0"
  ∧ SimulationResult.accepted (simulate a_plus ["a"]) = true
  ∧ ∀ fuel, convertToDFA fuel a_plus = None.
Proof.
  split; [by vm_compute|]. split; [by vm_compute|]. intros fuel.
  destruct a_plus_targets as (_ & _ & _ & Hinit & Hclosure).
  change (convertToDFA fuel a_plus) with (convertToDFA_NFA fuel a_plus).
  unfold convertToDFA_NFA. rewrite Hinit. cbn [mbind option_bind].
  rewrite Hclosure.
  rewrite (a_plus_convert_loop fuel 0); [done|..].
  - destruct (any_final _ _); by repeat constructor.
  - constructor.
Qed.

(** ** [isDeterministic] on the objects of the heap *)

Lemma truthy_target_None {k} : truthy_target (k := k) None = false.
Proof. by destruct k. Qed.

Lemma several_targets_None {k} : several_targets (k := k) None = false.
Proof. by destruct k. Qed.

Lemma existsb_same {X} (f g : X → bool) (l : list X) :
  (∀ x, f x = g x) → existsb f l = existsb g l.
Proof.
  intros Hfg. induction l as [|x l IH]; cbn; [done|]. by rewrite Hfg, IH.
Qed.

Lemma eps_own_name : own_name eps.
Proof. apply (bool_decide_unpack _). by vm_compute. Qed.

Section heap.
Context {k : kind}.
Implicit Types (A : Automaton k) (h : Heap.heap).

Lemma heap_bind_run {X Y} (m : Heap.prog X) (f : X → Heap.prog Y) h x h' :
  m h = Some (x, h') → (m ≫= f) h = f x h'.
Proof. unfold mbind, Heap.prog_bind. by intros ->. Qed.

Lemma heap_get_run h l o : h !! l = Some o → Heap.get l h = Some (o, h).
Proof. unfold Heap.get. by intros ->. Qed.

Lemma holds_target_weaken h h' v (t : target k) :
  h ⊆ h' → Heap.holds_target h v t → Heap.holds_target h' v t.
Proof.
  intros Hsub. destruct k; [done|]. intros (s & -> & Hs).
  exists s. split; [done|]. by eapply lookup_weaken.
Qed.

Lemma holds_map_weaken {X} (holds holds' : Heap.value → X → Prop) h h' l m :
  h ⊆ h' → (∀ v x, holds v x → holds' v x) →
  Heap.holds_map holds h l m → Heap.holds_map holds' h' l m.
Proof.
  intros Hsub Hholds (props & Hl & Hnd & Hprops & Hkeys).
  exists props. split; [by eapply lookup_weaken|]. split; [done|].
  split; [|done]. intros key v Hin.
  destruct (Hprops key v Hin) as (x & Hx & Hv). eauto.
Qed.

Lemma holds_row_weaken h h' v (row : gmap string (target k)) :
  h ⊆ h' → Heap.holds_row h v row → Heap.holds_row h' v row.
Proof.
  intros Hsub (r & -> & Hr). exists r. split; [done|].
  eapply holds_map_weaken; [done| |done].
  intros v x. by apply holds_target_weaken.
Qed.

Lemma loaded_weaken h h' this A :
  h ⊆ h' → Heap.loaded h this A → Heap.loaded h' this A.
Proof.
  intros Hsub (a & Hthis & ls & la & lt & lf & Ha & Hls & Hla & Hlf & Ht).
  exists a. split; [by eapply lookup_weaken|].
  exists ls, la, lt, lf. repeat (split; [by eapply lookup_weaken|]).
  eapply holds_map_weaken; [done| |done].
  intros v row. by apply holds_row_weaken.
Qed.

(** The own property of an object that holds a map. *)
Lemma property_of_holds {X} (holds : Heap.value → X → Prop) h l m key :
  Heap.holds_map holds h l m → (m !! key = None → own_name key) →
  ∃ v, Heap.property_of l key h = Some (v, h)
       ∧ match v with
         | Some v => ∃ x, m !! key = Some x ∧ holds v x
         | None => m !! key = None
         end.
Proof.
  intros (props & Hl & Hnd & Hprops & Hkeys) Hown.
  unfold Heap.property_of. rewrite (heap_bind_run _ _ h _ h (heap_get_run _ _ _ Hl)).
  destruct ((list_to_map props : gmap string Heap.value) !! key) as [v|] eqn:Hv.
  - exists (Some v). split; [done|].
    apply elem_of_list_to_map_2 in Hv. by apply Hprops.
  - apply not_elem_of_list_to_map in Hv.
    assert (m !! key = None) as Hnone.
    { destruct (m !! key) as [x|] eqn:Hx; [|done].
      destruct Hv. by eapply Hkeys. }
    exists None. split; [|done].
    rewrite decide_False by by apply Hown. done.
Qed.

Section loaded.
Variables (A : Automaton k) (this : nat).

Lemma automaton_field_run {X} (field : kind → nat → nat → nat → X) h :
  Heap.loaded h this A →
  ∃ ls la lt,
    Heap.automaton_field this field h = Some (field k ls la lt, h)
    ∧ h !! ls = Some (Heap.SetObject (states A))
    ∧ h !! la = Some (Heap.SetObject (alphabet A))
    ∧ Heap.holds_map (Heap.holds_row h) h lt (transitions A).
Proof.
  intros (a & Hthis & ls & la & lt & lf & Ha & Hls & Hla & Hlf & Ht).
  exists ls, la, lt. split; [|done].
  unfold Heap.automaton_field, Heap.automaton_of.
  rewrite (heap_bind_run _ _ h _ h
             (heap_bind_run _ _ h _ h (heap_get_run _ _ _ Hthis))).
  by rewrite (heap_bind_run _ _ h _ h (heap_get_run _ _ _ Ha)).
Qed.

Lemma members_of_run h s l :
  h !! s = Some (Heap.SetObject l) → Heap.members_of s h = Some (l, h).
Proof.
  intros Hs. unfold Heap.members_of.
  by rewrite (heap_bind_run _ _ h _ h (heap_get_run _ _ _ Hs)).
Qed.

Lemma states_run h :
  Heap.loaded h this A →
  ∃ ls, Heap.states_of this h = Some (ls, h)
        ∧ Heap.members_of ls h = Some (states A, h).
Proof.
  intros Hh.
  destruct (automaton_field_run (λ _ states _ _, states) h Hh)
    as (ls & la & lt & Hrun & Hls & _).
  exists ls. split; [done|]. by apply members_of_run.
Qed.

Lemma alphabet_run h :
  Heap.loaded h this A →
  ∃ la, Heap.alphabet_of this h = Some (la, h)
        ∧ Heap.members_of la h = Some (alphabet A, h).
Proof.
  intros Hh.
  destruct (automaton_field_run (λ _ _ alphabet _, alphabet) h Hh)
    as (ls & la & lt & Hrun & _ & Hla & _).
  exists la. split; [done|]. by apply members_of_run.
Qed.

Lemma type_run h : Heap.loaded h this A → Heap.type_of this h = Some (k, h).
Proof.
  intros Hh.
  by destruct (automaton_field_run (λ type _ _ _, type) h Hh)
    as (ls & la & lt & Hrun & _).
Qed.

Lemma transitions_run h :
  Heap.loaded h this A →
  ∃ lt, Heap.transitions_of this h = Some (lt, h)
        ∧ Heap.holds_map (Heap.holds_row h) h lt (transitions A).
Proof.
  intros Hh.
  destruct (automaton_field_run (λ _ _ _ transitions, transitions) h Hh)
    as (ls & la & lt & Hrun & _ & _ & Ht).
  by exists lt.
Qed.

(** The first loop answers whether a row has a truthy entry for ε. *)
Lemma epsilon_loop_run h (fromStates : list string) :
  Heap.loaded h this A →
  (∀ q, q ∈ fromStates → is_Some (transitions A !! q)) →
  Heap.epsilon_loop this fromStates h
  = Some (existsb (λ q, truthy_target (entry A q eps)) fromStates, h).
Proof.
  intros Hh. induction fromStates as [|q rest IH]; intros Hrows; [done|].
  cbn [Heap.epsilon_loop existsb].
  destruct (transitions_run h Hh) as (lt & Hlt & Ht).
  rewrite (heap_bind_run _ _ h _ h Hlt).
  destruct (Hrows q) as [row Hrow]; [by left|].
  destruct (property_of_holds _ h lt _ q Ht) as (v & Hv & Hq);
    [by rewrite Hrow|].
  rewrite (heap_bind_run _ _ h _ h Hv).
  destruct v as [v|]; [|congruence].
  destruct Hq as (row' & Hrow' & r & -> & Hr).
  assert (row' = row) as -> by congruence.
  destruct (property_of_holds _ h r _ eps Hr) as (e & He & Heps);
    [intros _; apply eps_own_name|].
  rewrite (heap_bind_run _ _ h _ h He).
  assert (Heap.truthy_value e = truthy_target (entry A q eps)) as ->.
  { unfold entry. rewrite Hrow. cbn [mbind option_bind].
    destruct e as [e|].
    - destruct Heps as (t & -> & Ht'). clear -Ht'. destruct k; cbn in *.
      + by subst.
      + by destruct Ht' as (s & -> & _).
    - rewrite Heps. cbn. symmetry. apply truthy_target_None. }
  destruct (truthy_target (entry A q eps)); [done|].
  cbn [orb]. apply IH. intros q' Hq'. apply Hrows. by right.
Qed.

(** The loop on the symbols, for an object that holds the row of [q], or
    nothing when [q] has no row. *)
Lemma symbol_loop_run h (st : nat) (row : gmap string (target k))
    (symbols : list string) :
  Heap.loaded h this A →
  Heap.holds_map (Heap.holds_target h) h st row →
  Forall own_name symbols →
  Heap.symbol_loop this st symbols h
  = Some (existsb (λ a, negb (bool_decide (length (states A) ≤ 1))
                        && several_targets (row !! a)) symbols, h).
Proof.
  intros Hh Hst. induction symbols as [|a rest IH]; intros Hown; [done|].
  apply Forall_cons in Hown as [Ha Hown].
  cbn [Heap.symbol_loop existsb].
  destruct (states_run h Hh) as (ls & Hls & Hmem).
  rewrite (heap_bind_run _ _ h _ h Hls), (heap_bind_run _ _ h _ h Hmem).
  destruct (bool_decide (length (states A) ≤ 1)); cbn [negb andb orb];
    [by apply IH|].
  rewrite (heap_bind_run _ _ h _ h (type_run h Hh)).
  destruct k.
  { cbn [several_targets orb]. by apply IH. }
  destruct (property_of_holds _ h st _ a Hst) as (v & Hv & Hva);
    [done|].
  rewrite (heap_bind_run _ _ h _ h Hv).
  destruct v as [v|].
  - destruct Hva as (ts & Hts & s & -> & Hs). rewrite Hts.
    rewrite (heap_bind_run _ _ h _ h (members_of_run h s ts Hs)).
    cbn [several_targets].
    destruct (bool_decide (1 < length ts)); [done|]. by apply IH.
  - rewrite Hva. cbn [several_targets orb]. by apply IH.
Qed.

(** The second loop answers whether a state of the list has several
    targets on a symbol of the alphabet; it leaves the objects as they
    are and adds an object for a state without row. *)
Lemma state_loop_run (states' : list string) :
  Forall own_name states' → Forall own_name (alphabet A) →
  ∀ h, Heap.loaded h this A →
  ∃ h', Heap.state_loop this states' h
        = Some (existsb (λ q,
                  existsb (λ a, negb (bool_decide (length (states A) ≤ 1))
                                && several_targets (entry A q a))
                    (alphabet A)) states', h')
        ∧ h ⊆ h'.
Proof.
  intros Hown Hal. induction Hown as [|q rest Hq Hown IH]; intros h Hh.
  { by exists h. }
  cbn [Heap.state_loop existsb].
  destruct (transitions_run h Hh) as (lt & Hlt & Ht).
  rewrite (heap_bind_run _ _ h _ h Hlt).
  destruct (property_of_holds _ h lt _ q Ht) as (v & Hv & Hrow); [done|].
  rewrite (heap_bind_run _ _ h _ h Hv).
  assert (∃ st h1,
    Heap.row_or_new v h = Some (st, h1) ∧ h ⊆ h1
    ∧ Heap.holds_map (Heap.holds_target h1) h1 st
        (default ∅ (transitions A !! q))) as (st & h1 & Hnew & Hsub & Hst).
  { destruct v as [v|].
    - destruct Hrow as (row & Hrow & r & -> & Hr). exists r, h.
      split; [done|]. split; [done|]. by rewrite Hrow.
    - exists (fresh (dom h)), (<[fresh (dom h) := Heap.PlainObject []]> h).
      assert (h !! fresh (dom h) = None) as Hfresh
        by apply not_elem_of_dom, is_fresh.
      split; [done|]. split; [by apply insert_subseteq|].
      rewrite Hrow. exists []. split; [by apply lookup_insert_eq|].
      split; [constructor|]. split; [by intros ? ? ?%elem_of_nil|].
      intros key x. cbn [default]. by rewrite lookup_empty. }
  rewrite (heap_bind_run _ _ h _ h1 Hnew).
  pose proof (loaded_weaken h h1 this A Hsub Hh) as Hh1.
  destruct (alphabet_run h1 Hh1) as (la & Hla & Hsym).
  rewrite (heap_bind_run _ _ h1 _ h1 Hla), (heap_bind_run _ _ h1 _ h1 Hsym).
  rewrite (heap_bind_run _ _ h1 _ h1
             (symbol_loop_run h1 st _ (alphabet A) Hh1 Hst Hal)).
  assert (∀ a, default ∅ (transitions A !! q) !! a = entry A q a) as Hent.
  { intros a. unfold entry. destruct (transitions A !! q); [done|].
    apply lookup_empty. }
  rewrite (existsb_same _
             (λ a, negb (bool_decide (length (states A) ≤ 1))
                   && several_targets (entry A q a)))
    by (intros a; by rewrite Hent).
  destruct (existsb _ (alphabet A)).
  - exists h1. split; [done|done].
  - destruct (IH h1 Hh1) as (h' & Hrun & Hsub'). exists h'.
    split; [done|]. by etrans.
Qed.

End loaded.
End heap.

Lemma keys_of_holds {X} (holds : Heap.value → X → Prop) (h : Heap.heap)
    (l : nat) (m : gmap string X) :
  Heap.holds_map holds h l m →
  ∃ keys, Heap.keys_of l h = Some (keys, h)
          ∧ ∀ q, q ∈ keys ↔ is_Some (m !! q).
Proof.
  intros (props & Hl & Hnd & Hprops & Hkeys). exists props.*1.
  split.
  - unfold Heap.keys_of.
    by rewrite (heap_bind_run _ _ h _ h (heap_get_run _ _ _ Hl)).
  - intros q. split.
    + intros ((q' & v) & -> & Hin)%list_elem_of_fmap.
      destruct (Hprops q' v Hin) as (x & Hx & _). by exists x.
    + intros [x Hx]. by eapply Hkeys.
Qed.

Lemma existsb_rows_symbolInUse {k} (A : Automaton k) (a : string)
    (keys : list string) :
  (∀ q, q ∈ keys ↔ is_Some (transitions A !! q)) →
  existsb (λ q, truthy_target (entry A q a)) keys
  = symbolInUse a (transitions A).
Proof.
  intros Hkeys. apply eq_true_iff_eq.
  rewrite symbolInUse_true, existsb_exists.
  setoid_rewrite <- list_elem_of_In. split.
  - intros (q & _ & Hq). eauto.
  - intros (q & Hq). exists q. split; [|done]. apply Hkeys.
    unfold entry in Hq. destruct (transitions A !! q); [done|].
    cbn [mbind option_bind] in Hq. by rewrite truthy_target_None in Hq.
Qed.

Lemma forallb_negb_existsb {X Y} (f : X → Y → bool) (b : bool)
    (xs : list X) (ys : list Y) :
  forallb (λ x, forallb (λ y, if b then true else negb (f x y)) ys) xs
  = negb (existsb (λ x, existsb (λ y, negb b && f x y) ys) xs).
Proof.
  assert (∀ x, forallb (λ y, if b then true else negb (f x y)) ys
               = negb (existsb (λ y, negb b && f x y) ys)) as Hys.
  { intros x. induction ys as [|y ys IHy]; cbn [forallb existsb]; [done|].
    rewrite IHy, negb_orb. by destruct b, (f x y). }
  induction xs as [|x xs IH]; cbn [forallb existsb]; [done|].
  by rewrite IH, Hys, negb_orb.
Qed.

(** [Heap.isDeterministic] answers what [isDeterministic] answers for the
    automaton that the objects hold, and leaves every object as it is. *)
Lemma isDeterministic_heap_run {k} (A : Automaton k) (this : nat)
    (h : Heap.heap) :
  Forall own_name (states A) → Forall own_name (alphabet A) →
  Heap.loaded h this A →
  ∃ h', Heap.isDeterministic this h = Some (isDeterministic (Some A), h')
        ∧ h ⊆ h'.
Proof.
  intros Hst Hal Hh. unfold Heap.isDeterministic, isDeterministic.
  assert (∃ a, Heap.automaton_of this h = Some (Some a, h)) as [a Ha].
  { destruct Hh as (a & Hthis & _). exists a. unfold Heap.automaton_of.
    by rewrite (heap_bind_run _ _ h _ h (heap_get_run _ _ _ Hthis)). }
  rewrite (heap_bind_run _ _ h _ h Ha).
  destruct (states_run A this h Hh) as (ls & Hls & Hmem).
  destruct (alphabet_run A this h Hh) as (la & Hla & Hsym).
  rewrite (heap_bind_run _ _ h _ h Hls), (heap_bind_run _ _ h _ h Hmem).
  destruct (bool_decide (length (states A) = 0)); cbn [orb].
  { by exists h. }
  rewrite (heap_bind_run _ _ h _ h Hla), (heap_bind_run _ _ h _ h Hsym).
  destruct (bool_decide (length (alphabet A) = 0)).
  { by exists h. }
  destruct (transitions_run A this h Hh) as (lt & Hlt & Ht).
  rewrite (heap_bind_run _ _ h _ h Hlt).
  destruct (keys_of_holds _ h lt _ Ht) as (keys & Hkeys & Hrows).
  rewrite (heap_bind_run _ _ h _ h Hkeys).
  rewrite (heap_bind_run _ _ h _ h
             (epsilon_loop_run A this h keys Hh (λ q, proj1 (Hrows q)))).
  rewrite (existsb_rows_symbolInUse A eps keys Hrows).
  destruct (symbolInUse eps (transitions A)).
  { by exists h. }
  rewrite (heap_bind_run _ _ h _ h Hls), (heap_bind_run _ _ h _ h Hmem).
  destruct (state_loop_run A this (states A) Hst Hal h Hh)
    as (h' & Hrun & Hsub).
  rewrite (heap_bind_run _ _ h _ h' Hrun).
  exists h'. split; [|done]. cbn [mret Heap.prog_ret]. unfold Heap.prog_ret.
  by rewrite forallb_negb_existsb.
Qed.


Lemma holds_map_intro {X} (holds : Heap.value → X → Prop) (h : Heap.heap)
    (l : nat) (m : gmap string X) (properties : list (string * Heap.value)) :
  h !! l = Some (Heap.PlainObject properties) →
  NoDup properties.*1 →
  Forall (λ kv, ∃ x, m !! kv.1 = Some x ∧ holds kv.2 x) properties →
  map_Forall (λ key _, key ∈ properties.*1) m →
  Heap.holds_map holds h l m.
Proof.
  intros Hl Hnd Hprops Hkeys. exists properties.
  split; [done|]. split; [done|]. split; [|done].
  intros key v Hin. rewrite Forall_forall in Hprops.
  apply (Hprops (key, v) Hin).
Qed.

Lemma sample_heap_loaded : Heap.loaded sample_heap 0 sample.
Proof.
  exists 1. split; [done|]. exists 2, 3, 4, 5.
  split; [done|]. split; [done|]. split; [done|]. split; [done|].
  eapply holds_map_intro; [done| | |].
  - apply (bool_decide_unpack _). by vm_compute.
  - repeat constructor.
    + exists ({[ "a" := "q1"; "b" := "q0" ]} : gmap string string).
      split; [by vm_compute|]. exists 6. split; [done|].
      eapply holds_map_intro; [done| | |].
      * apply (bool_decide_unpack _). by vm_compute.
      * repeat constructor; by eexists.
      * apply (bool_decide_unpack _). by vm_compute.
    + exists ({[ "a" := "q1"; "b" := "q2" ]} : gmap string string).
      split; [by vm_compute|]. exists 7. split; [done|].
      eapply holds_map_intro; [done| | |].
      * apply (bool_decide_unpack _). by vm_compute.
      * repeat constructor; by eexists.
      * apply (bool_decide_unpack _). by vm_compute.
  - apply (bool_decide_unpack _). by vm_compute.
Qed.


(** ** Worklist loops: termination and closedness *)

Section worklist.
Variable succ : string → list string.
Variable push : string → list string → list string.
Hypothesis push_elem : ∀ x y w, y ∈ push x w ↔ y = x ∨ y ∈ w.
Hypothesis push_length : ∀ x w, length (push x w) = S (length w).

Lemma unseen_snoc_other U seen x :
  x ∉ U → unseen U (seen ++ [x]) = unseen U seen.
Proof.
  unfold unseen. induction U as [|u U IH]; intros Hx; [done|].
  apply not_elem_of_cons in Hx as [Hne Hx]. rewrite !filter_cons.
  rewrite IH by done. destruct (decide (u ∉ seen)) as [Hu|Hu].
  - rewrite decide_True; [done|].
    rewrite elem_of_app, list_elem_of_singleton. intros [?|?]; done.
  - rewrite decide_False; [done|].
    intros Hn. apply Hu. intros ?. apply Hn, elem_of_app. by left.
Qed.

Lemma unseen_snoc U seen x :
  NoDup U → x ∈ U → x ∉ seen →
  S (length (unseen U (seen ++ [x]))) = length (unseen U seen).
Proof.
  induction 1 as [|u U Hu HU IH]; intros Hx Hseen.
  - by apply elem_of_nil in Hx.
  - apply elem_of_cons in Hx as [<-|Hx].
    + unfold unseen. rewrite !filter_cons.
      rewrite decide_False; last first.
      { intros Hn. apply Hn, elem_of_app. right. by left. }
      rewrite decide_True by done. simpl. f_equal.
      pose proof (unseen_snoc_other U seen x Hu) as Ho.
      unfold unseen in Ho. by rewrite Ho.
    + assert (u ≠ x) by (by intros ->).
      unfold unseen in *. rewrite !filter_cons.
      destruct (decide (u ∉ seen)) as [Hus|Hus].
      * rewrite decide_True; last first.
        { rewrite elem_of_app, list_elem_of_singleton. intros [?|?]; done. }
        simpl. f_equal. by apply IH.
      * rewrite decide_False; last first.
        { intros Hn. apply Hus. intros ?. apply Hn, elem_of_app. by left. }
        by apply IH.
Qed.

Lemma visit_nil sw : visit push [] sw = sw.
Proof. done. Qed.

Lemma visit_cons t ts sw :
  visit push (t :: ts) sw =
  visit push ts
    (if set_has t (fst sw) then sw else (fst sw ++ [t], push t (snd sw))).
Proof. done. Qed.

(** The potential of the loop is kept by a visit. *)
Lemma visit_potential U ts seen work :
  NoDup U → (∀ t, t ∈ ts → t ∈ U) →
  length (snd (visit push ts (seen, work)))
    + length (unseen U (fst (visit push ts (seen, work))))
  = length work + length (unseen U seen).
Proof.
  intros HU. revert seen work.
  induction ts as [|t ts IH]; intros seen work Hts; [done|].
  rewrite visit_cons. simpl. destruct (set_has t seen) eqn:Ht.
  - apply IH. intros. apply Hts. by right.
  - rewrite IH by (intros; apply Hts; by right).
    apply set_has_false in Ht. rewrite push_length.
    rewrite <- (unseen_snoc U seen t); [lia|done| |done].
    apply Hts. by left.
Qed.

Lemma visit_seen ts seen work x :
  x ∈ fst (visit push ts (seen, work)) ↔ x ∈ seen ∨ x ∈ ts.
Proof.
  revert seen work. induction ts as [|t ts IH]; intros seen work.
  - simpl. rewrite elem_of_nil. tauto.
  - rewrite visit_cons. simpl. destruct (set_has t seen) eqn:Ht.
    + rewrite IH. apply set_has_true in Ht. rewrite elem_of_cons.
      split; [tauto|]. intros [?|[->|?]]; auto.
    + rewrite IH, elem_of_app, list_elem_of_singleton, elem_of_cons. tauto.
Qed.

Lemma visit_work ts seen work x :
  x ∈ snd (visit push ts (seen, work)) ↔
  x ∈ work ∨ (x ∈ ts ∧ x ∉ seen).
Proof.
  revert seen work. induction ts as [|t ts IH]; intros seen work.
  - simpl. rewrite elem_of_nil. tauto.
  - rewrite visit_cons. simpl. destruct (set_has t seen) eqn:Ht.
    + rewrite IH. apply set_has_true in Ht. rewrite elem_of_cons.
      split; [tauto|]. intros [?|[[->|?] ?]]; tauto.
    + rewrite IH, push_elem, elem_of_app, list_elem_of_singleton,
        elem_of_cons. apply set_has_false in Ht.
      split; [intros [[->|?]|[? ?]]; tauto|].
      destruct (decide (x = t)) as [->|]; tauto.
Qed.

(** With fuel for the worklist and for every state that is not seen yet,
    the loop returns. *)
Lemma worklist_loop_terminates U fuel seen work :
  NoDup U → (∀ q t, t ∈ succ q → t ∈ U) →
  length work + length (unseen U seen) ≤ fuel →
  is_Some (worklist_loop succ push fuel seen work).
Proof.
  intros HU Hsucc. revert seen work.
  induction fuel as [|fuel IH]; intros seen work Hfuel.
  - destruct work; [by eexists|]. simpl in Hfuel. lia.
  - destruct work as [|q work]; [by eexists|]. simpl. apply IH.
    rewrite visit_potential by eauto. simpl in Hfuel. lia.
Qed.

(** What the loop returns holds what was seen, and with every state the
    successors of the state, when this is so for the states that are not
    on the worklist. *)
Lemma worklist_loop_closed fuel seen work result :
  worklist_loop succ push fuel seen work = Some result →
  (∀ x, x ∈ work → x ∈ seen) →
  (∀ x, x ∈ seen → x ∈ work ∨ ∀ t, t ∈ succ x → t ∈ seen) →
  (∀ x, x ∈ seen → x ∈ result)
  ∧ (∀ x t, x ∈ result → t ∈ succ x → t ∈ result).
Proof.
  revert seen work. induction fuel as [|fuel IH]; intros seen work.
  - destruct work; [|done]. intros [= <-] _ Hinv. split; [done|].
    intros x t Hx Ht. destruct (Hinv x Hx) as [[]%elem_of_nil|Hc]. eauto.
  - destruct work as [|q work].
    { intros [= <-] _ Hinv. split; [done|].
      intros x t Hx Ht. destruct (Hinv x Hx) as [[]%elem_of_nil|Hc]. eauto. }
    simpl. intros Hloop Hwork Hinv.
    apply IH in Hloop as [Hseen Hclosed].
    + split; [|done]. intros x Hx. apply Hseen, visit_seen. by left.
    + intros x [Hx|[Hx _]]%visit_work; apply visit_seen; [|by right].
      left. apply Hwork. by right.
    + intros x [Hx|Hx]%visit_seen.
      * destruct (Hinv x Hx) as [[->|Hw]%elem_of_cons|Hc].
        -- right. intros t Ht. apply visit_seen. by right.
        -- left. apply visit_work. by left.
        -- right. intros t Ht. apply visit_seen. left. eauto.
      * destruct (decide (x ∈ seen)) as [Hs|Hs].
        -- destruct (Hinv x Hs) as [[->|Hw]%elem_of_cons|Hc].
           ++ right. intros t Ht. apply visit_seen. by right.
           ++ left. apply visit_work. by left.
           ++ right. intros t Ht. apply visit_seen. left. eauto.
        -- left. apply visit_work. by right.
Qed.
End worklist.

Lemma stack_push_elem x y w : y ∈ stack_push x w ↔ y = x ∨ y ∈ w.
Proof. unfold stack_push. apply elem_of_cons. Qed.

Lemma queue_push_elem x y w : y ∈ queue_push x w ↔ y = x ∨ y ∈ w.
Proof.
  unfold queue_push. rewrite elem_of_app, list_elem_of_singleton. tauto.
Qed.

Lemma queue_push_length x w : length (queue_push x w) = S (length w).
Proof. unfold queue_push. rewrite length_app. simpl. lia. Qed.

Lemma remove_dups_length_le (U : list string) :
  length (remove_dups U) ≤ length U.
Proof.
  induction U as [|u U IH]; simpl; [done|].
  destruct (decide_rel elem_of u U); simpl; lia.
Qed.

Lemma unseen_length_le (U seen : list string) :
  length (unseen (remove_dups U) seen) ≤ length U.
Proof.
  unfold unseen. etrans; [apply length_filter|]. apply remove_dups_length_le.
Qed.

Lemma nfa_targets_eps_targets (A : Automaton NFA) q t :
  t ∈ nfa_targets A q eps → t ∈ eps_targets A.
Proof.
  unfold nfa_targets, eps_targets. intros Ht.
  destruct (entry A q eps) as [ts|] eqn:Hent; [|by apply elem_of_nil in Ht].
  apply entry_Some in Hent as (row & Hrow & Hts). simpl in Ht.
  apply list_elem_of_join. exists ts. split; [done|].
  apply list_elem_of_fmap. exists (q, row). split.
  - cbn [snd]. change (target NFA) with (list string) in *. by rewrite Hts.
  - by apply elem_of_map_to_list.
Qed.

(** The [while] of [_epsilonClosure] ends within [closure_fuel] rounds. *)
Lemma closure_loop_terminates (A : Automaton NFA) (stateSet : list string) :
  is_Some (closure_loop A (closure_fuel A stateSet) stateSet
             (reverse stateSet)).
Proof.
  unfold closure_loop.
  apply worklist_loop_terminates with (U := remove_dups (eps_targets A)).
  - done.
  - apply NoDup_remove_dups.
  - intros q t Ht. apply elem_of_remove_dups. by eapply nfa_targets_eps_targets.
  - unfold closure_fuel. rewrite length_reverse.
    pose proof (unseen_length_le (eps_targets A) stateSet). lia.
Qed.

Lemma row_targets_all_targets (A : Automaton DFA) q t :
  t ∈ row_targets A q → t ∈ all_targets A.
Proof.
  unfold row_targets, all_targets. intros Ht.
  destruct (transitions A !! q) as [row|] eqn:Hrow; simpl in Ht;
    [|rewrite map_to_list_empty in Ht; by apply elem_of_nil in Ht].
  apply list_elem_of_join. exists ((map_to_list row).*2). split; [done|].
  apply list_elem_of_fmap. exists (q, row). split; [done|].
  by apply elem_of_map_to_list.
Qed.

(** The [while] of [_getReachableStates] ends within [reachable_fuel]
    rounds. *)
Lemma reachable_loop_terminates (A : Automaton DFA) (q0 : string) :
  is_Some (reachable_loop A (reachable_fuel A) [q0] [q0]).
Proof.
  unfold reachable_loop.
  apply worklist_loop_terminates with (U := remove_dups (all_targets A)).
  - apply queue_push_length.
  - apply NoDup_remove_dups.
  - intros q t Ht. apply elem_of_remove_dups. by eapply row_targets_all_targets.
  - unfold reachable_fuel.
    pose proof (unseen_length_le (all_targets A) [q0]). simpl. lia.
Qed.

(** The set that [_getReachableStates] returns has the initial state and,
    with a state, every target of the row of the state. *)
Lemma _getReachableStates_closed (A : Automaton DFA) (q0 : string) :
  q0 ∈ _getReachableStates A q0
  ∧ ∀ x a t, x ∈ _getReachableStates A q0 → entry A x a = Some t →
             t ∈ _getReachableStates A q0.
Proof.
  unfold _getReachableStates.
  destruct (reachable_loop_terminates A q0) as [R HR]. rewrite HR. simpl.
  apply worklist_loop_closed in HR as [Hseen Hclosed];
    [|apply queue_push_elem|..].
  - split; [apply Hseen; by left|]. intros x a t Hx Hent.
    apply (Hclosed x t Hx). unfold row_targets.
    destruct (proj1 (entry_Some A x a t) Hent) as (row & -> & Ha).
    cbn [default]. apply list_elem_of_fmap. exists (a, t). split; [done|].
    by apply elem_of_map_to_list.
  - done.
  - intros x Hx. by left.
Qed.

(** ** Partition refinement *)

Lemma NoDup_set_add x l : NoDup l → NoDup (set_add x l).
Proof.
  intros Hl. unfold set_add. destruct (set_has x l) eqn:E; [done|].
  apply set_has_false in E. apply NoDup_app. split; [done|].
  split; [|apply NoDup_singleton].
  intros y Hy ->%list_elem_of_singleton. done.
Qed.

Lemma foldl_set_add_elem (l acc : list string) x :
  x ∈ foldl (λ acc x, set_add x acc) acc l ↔ x ∈ acc ∨ x ∈ l.
Proof.
  revert acc. induction l as [|y l IH]; intros acc; simpl.
  - rewrite elem_of_nil. tauto.
  - rewrite IH, elem_of_set_add, elem_of_cons. tauto.
Qed.

Lemma foldl_set_add_NoDup (l acc : list string) :
  NoDup acc → NoDup (foldl (λ acc x, set_add x acc) acc l).
Proof.
  revert acc. induction l as [|y l IH]; intros acc Hacc; simpl; [done|].
  by apply IH, NoDup_set_add.
Qed.

Lemma elem_of_new_Set x l : x ∈ new_Set l ↔ x ∈ l.
Proof.
  unfold new_Set. rewrite foldl_set_add_elem, elem_of_nil. tauto.
Qed.

Lemma NoDup_new_Set l : NoDup (new_Set l).
Proof. apply foldl_set_add_NoDup. constructor. Qed.

Lemma set_has_new_Set x l : set_has x (new_Set l) = set_has x l.
Proof.
  unfold set_has. apply bool_decide_ext, elem_of_new_Set.
Qed.

Lemma mjoin_nil {X} : mjoin (@nil (list X)) = [].
Proof. done. Qed.

Lemma mjoin_cons {X} (x : list X) (l : list (list X)) :
  mjoin (x :: l) = x ++ mjoin l.
Proof. done. Qed.

(** *** The block of a state *)

Lemma block_index_Some P x i :
  block_index P x = Some i → ∃ B, P !! i = Some B ∧ x ∈ B.
Proof.
  unfold block_index. destruct (list_find _ P) as [[j B]|] eqn:Hf; [|done].
  intros [= <-]. apply list_find_Some in Hf as (HB & Hx & _). eauto.
Qed.

Lemma block_index_None (P : list (list string)) (x : string) B :
  block_index P x = None → B ∈ P → x ∉ B.
Proof.
  unfold block_index. destruct (list_find _ P) as [[j B']|] eqn:Hf; [done|].
  intros _ HB. apply list_find_None in Hf. rewrite Forall_forall in Hf. eauto.
Qed.

Lemma blocks_disjoint (P : list (list string)) i j B B' (x : string) :
  NoDup (mjoin P) → P !! i = Some B → P !! j = Some B' →
  x ∈ B → x ∈ B' → i = j.
Proof.
  revert i j. induction P as [|C P IH]; intros i j Hnd Hi Hj Hx Hx'; [done|].
  simpl in Hnd. apply NoDup_app in Hnd as (_ & Hdisj & Hnd).
  destruct i as [|i], j as [|j]; simpl in *.
  - done.
  - injection Hi as ->. destruct (Hdisj x Hx).
    apply list_elem_of_join. exists B'. split; [done|].
    by eapply list_elem_of_lookup_2.
  - injection Hj as ->. destruct (Hdisj x Hx').
    apply list_elem_of_join. exists B. split; [done|].
    by eapply list_elem_of_lookup_2.
  - f_equal. eauto.
Qed.

Lemma block_index_unique P i B x :
  NoDup (mjoin P) → P !! i = Some B → x ∈ B → block_index P x = Some i.
Proof.
  intros Hnd Hi Hx. unfold block_index.
  destruct (list_find _ P) as [[j B']|] eqn:Hf.
  - apply list_find_Some in Hf as (Hj & Hx' & _). simpl. f_equal.
    by eapply blocks_disjoint.
  - apply list_find_None in Hf. rewrite Forall_forall in Hf.
    destruct (Hf B); [by eapply list_elem_of_lookup_2|done].
Qed.

(** *** The groups of [_splitPartition] *)

Lemma group_add_keys key x groups :
  (group_add key x groups).*1 =
    if decide (key ∈ groups.*1) then groups.*1 else groups.*1 ++ [key].
Proof.
  induction groups as [|[k ms] groups IH]; csimpl.
  - done.
  - destruct (decide (k = key)) as [->|Hne]; csimpl.
    + rewrite decide_True; [done|by left].
    + rewrite IH. destruct (decide (key ∈ groups.*1)) as [Hin|Hin].
      * rewrite decide_True; [done|by right].
      * rewrite decide_False; [done|].
        intros [?|?]%elem_of_cons; congruence.
Qed.

Lemma group_add_elem key x groups k ms :
  (k, ms) ∈ group_add key x groups →
  (k, ms) ∈ groups
  ∨ (k = key ∧ ∃ ms', ms = set_add x ms'
       ∧ (ms' = [] ∨ (key, ms') ∈ groups)).
Proof.
  induction groups as [|[k' ms'] groups IH]; csimpl.
  - intros [= -> ->]%list_elem_of_singleton. right. split; [done|].
    exists []. split; [done|]. by left.
  - destruct (decide (k' = key)) as [->|Hne].
    + intros [[= -> ->]|Hin]%elem_of_cons.
      * right. split; [done|]. exists ms'. split; [done|]. right. by left.
      * left. by right.
    + intros [[= -> ->]|Hin]%elem_of_cons; [left; by left|].
      destruct (IH Hin) as [?|(-> & ms2 & -> & [->|?])].
      * left. by right.
      * right. split; [done|]. exists []. split; [done|]. by left.
      * right. split; [done|]. exists ms2. split; [done|]. right. by right.
Qed.

Lemma group_add_members key x groups :
  x ∉ mjoin groups.*2 →
  mjoin (group_add key x groups).*2 ≡ₚ mjoin groups.*2 ++ [x].
Proof.
  induction groups as [|[k ms] groups IH]; csimpl; intros Hx; [done|].
  apply not_elem_of_app in Hx as [Hms Hrest].
  destruct (decide (k = key)) as [->|Hne]; csimpl.
  - unfold set_add. rewrite (proj2 (set_has_false _ _)) by done.
    rewrite <- !app_assoc. f_equiv. apply Permutation_app_comm.
  - rewrite IH by done. by rewrite app_assoc.
Qed.

Lemma group_add_nonempty key x groups :
  Forall (λ B, B ≠ []) groups.*2 →
  Forall (λ B, B ≠ []) (group_add key x groups).*2.
Proof.
  induction groups as [|[k ms] groups IH]; csimpl; intros Hne.
  - by repeat constructor.
  - apply Forall_cons in Hne as [Hms Hne].
    destruct (decide (k = key)) as [->|Hk]; csimpl.
    + constructor; [|done]. unfold set_add.
      destruct (set_has x ms); [done|]. by destruct ms.
    + constructor; [done|]. by apply IH.
Qed.

Lemma group_add_ok key E groups x :
  groups_ok key E groups → x ∉ E →
  groups_ok key (E ++ [x]) (group_add (key x) x groups).
Proof.
  intros [Hkeys Hkey Hne Hmem] Hx. split.
  - rewrite group_add_keys. case_decide; [done|].
    apply NoDup_app. split; [done|]. split; [|apply NoDup_singleton].
    intros k Hk ->%list_elem_of_singleton. done.
  - intros k ms y [Hin|(-> & ms' & -> & Hms')]%group_add_elem Hy; [by eauto|].
    apply elem_of_set_add in Hy as [->|Hy]; [done|].
    destruct Hms' as [->|Hin]; [by apply elem_of_nil in Hy|]. eauto.
  - by apply group_add_nonempty.
  - rewrite group_add_members; [by rewrite Hmem|]. by rewrite Hmem.
Qed.

Lemma split_groups_ok (A : Automaton DFA) P B a :
  NoDup B →
  groups_ok (λ q, targetPartitionIndex A P q a) B (split_groups A P B a).
Proof.
  intros HB. unfold split_groups.
  assert (∀ E groups, NoDup (E ++ B) →
    groups_ok (λ q, targetPartitionIndex A P q a) E groups →
    groups_ok (λ q, targetPartitionIndex A P q a) (E ++ B)
      (foldl (λ groups q,
                group_add (targetPartitionIndex A P q a) q groups)
         groups B)) as Hgen.
  { clear HB. induction B as [|x B IH]; intros E groups Hnd Hok; simpl.
    - by rewrite app_nil_r.
    - replace (E ++ x :: B) with ((E ++ [x]) ++ B) in Hnd |- *
        by by rewrite <- app_assoc.
      apply IH; [done|].
      apply (group_add_ok (λ q, targetPartitionIndex A P q a)); [done|].
      apply NoDup_app in Hnd as (Hnd & _ & _).
      apply NoDup_app in Hnd as (_ & Hdisj & _).
      intros Hx. apply (Hdisj x Hx). by left. }
  apply (Hgen [] []); [done|]. split; csimpl.
  - apply NoDup_nil_2.
  - by intros ? ? ? ?%elem_of_nil.
  - constructor.
  - done.
Qed.

(** A block that is not split has one key for all its members. *)
Lemma split_groups_one_key (A : Automaton DFA) P B a x y :
  NoDup B → length (split_groups A P B a) ≤ 1 → x ∈ B → y ∈ B →
  targetPartitionIndex A P x a = targetPartitionIndex A P y a.
Proof.
  intros HB Hlen Hx Hy.
  destruct (split_groups_ok A P B a HB) as [_ Hkey _ Hmem].
  rewrite <- Hmem in Hx, Hy.
  apply list_elem_of_join in Hx as (msx & Hx & Hmsx).
  apply list_elem_of_join in Hy as (msy & Hy & Hmsy).
  apply list_elem_of_fmap in Hmsx as ([kx msx'] & -> & Hinx).
  apply list_elem_of_fmap in Hmsy as ([ky msy'] & -> & Hiny).
  simpl in *. rewrite (Hkey _ _ _ Hinx Hx), (Hkey _ _ _ Hiny Hy).
  destruct (split_groups A P B a) as [|g [|g' gs]]; simpl in Hlen; [| |lia].
  - by apply elem_of_nil in Hinx.
  - apply list_elem_of_singleton in Hinx, Hiny. congruence.
Qed.

(** *** One round *)

Lemma split_on_cases (A : Automaton DFA) P B L :
  split_on A P B L = [B]
  ∨ ∃ a, a ∈ L ∧ 1 < length (split_groups A P B a)
         ∧ split_on A P B L = (split_groups A P B a).*2.
Proof.
  induction L as [|a L IH]; [by left|]. cbn [split_on].
  destruct (decide (1 < length (split_groups A P B a))) as [Hlen|Hlen].
  - right. exists a. split; [by left|done].
  - destruct IH as [->|(b & Hb & Hlen' & ->)]; [by left|].
    right. exists b. split; [by right|done].
Qed.

Lemma split_on_not_split (A : Automaton DFA) P B L a :
  length (split_on A P B L) ≤ 1 → a ∈ L →
  length (split_groups A P B a) ≤ 1.
Proof.
  induction L as [|b L IH]; intros Hlen Ha; [by apply elem_of_nil in Ha|].
  cbn [split_on] in Hlen.
  destruct (decide (1 < length (split_groups A P B b))) as [Hb|Hb].
  - rewrite length_fmap in Hlen. lia.
  - apply elem_of_cons in Ha as [->|Ha]; [lia|]. by apply IH.
Qed.

Lemma split_or_keep_cases (A : Automaton DFA) P B :
  split_or_keep A P B = [B]
  ∨ ∃ a, 1 < length (split_groups A P B a)
         ∧ split_or_keep A P B = (split_groups A P B a).*2.
Proof.
  unfold split_or_keep, _splitPartition.
  destruct (decide (length B ≤ 1)).
  { left. by rewrite decide_False by (simpl; lia). }
  destruct (split_on_cases A P B (alphabet A)) as [->|(a & _ & Hlen & ->)].
  - left. by rewrite decide_False by (simpl; lia).
  - right. exists a. split; [done|].
    by rewrite decide_True by (by rewrite length_fmap).
Qed.

Lemma split_or_keep_members (A : Automaton DFA) P B :
  NoDup B → mjoin (split_or_keep A P B) ≡ₚ B.
Proof.
  intros HB. destruct (split_or_keep_cases A P B) as [->|(a & _ & ->)].
  - simpl. by rewrite app_nil_r.
  - by destruct (split_groups_ok A P B a HB).
Qed.

Lemma split_or_keep_nonempty (A : Automaton DFA) P B :
  NoDup B → B ≠ [] → Forall (λ B, B ≠ []) (split_or_keep A P B).
Proof.
  intros HB Hne. destruct (split_or_keep_cases A P B) as [->|(a & _ & ->)].
  - by repeat constructor.
  - by destruct (split_groups_ok A P B a HB).
Qed.

Lemma split_or_keep_length (A : Automaton DFA) P B :
  1 ≤ length (split_or_keep A P B)
  ∧ (1 < length (_splitPartition A B P) → 1 < length (split_or_keep A P B))
  ∧ (¬ 1 < length (_splitPartition A B P) → split_or_keep A P B = [B]).
Proof.
  unfold split_or_keep.
  destruct (decide (1 < length (_splitPartition A B P))); simpl.
  - split; [lia|]. split; [done|]. done.
  - split; [lia|]. split; [done|]. done.
Qed.

Lemma refine_round_fold (A : Automaton DFA) P Q changed acc :
  snd (foldl (refine_block A P) (changed, acc) Q)
  = acc ++ mjoin (split_or_keep A P <$> Q)
  ∧ (fst (foldl (refine_block A P) (changed, acc) Q) = true ↔
     changed = true ∨ Exists (λ B, 1 < length (_splitPartition A B P)) Q).
Proof.
  revert changed acc. induction Q as [|B Q IH]; intros changed acc.
  - cbn [foldl fst snd]. rewrite fmap_nil, mjoin_nil.
    rewrite app_nil_r. split; [done|]. rewrite Exists_nil. tauto.
  - cbn [foldl]. rewrite fmap_cons, mjoin_cons.
    rewrite Exists_cons. unfold refine_block at 2 4, split_or_keep at 1.
    cbn zeta.
    destruct (decide (1 < length (_splitPartition A B P))) as [Hlen|Hlen];
      cbn [fst snd].
    + destruct (IH true (acc ++ _splitPartition A B P)) as [-> ->].
      rewrite <- app_assoc. split; [done|]. tauto.
    + destruct (IH changed (acc ++ [B])) as [-> ->].
      rewrite <- app_assoc. split; [done|]. tauto.
Qed.

Lemma refine_round_snd (A : Automaton DFA) P :
  snd (refine_round A P) = mjoin (split_or_keep A P <$> P).
Proof.
  unfold refine_round. by destruct (refine_round_fold A P P false []) as [-> _].
Qed.

Lemma refine_round_fst (A : Automaton DFA) P :
  fst (refine_round A P) = true ↔
  Exists (λ B, 1 < length (_splitPartition A B P)) P.
Proof.
  destruct (refine_round_fold A P P false []) as [_ H].
  unfold refine_round. rewrite H. split; [by intros [?|?]|by right].
Qed.

Lemma partition_ok_cons B P :
  partition_ok (B :: P) ↔
  NoDup B ∧ B ≠ [] ∧ (∀ x, x ∈ B → x ∉ mjoin P) ∧ partition_ok P.
Proof.
  unfold partition_ok. rewrite mjoin_cons.
  rewrite NoDup_app, Forall_cons. tauto.
Qed.

(** A round keeps the members, and a round that splits a block makes the
    list of blocks longer. *)
Lemma refine_blocks (A : Automaton DFA) P Q :
  partition_ok Q →
  mjoin (mjoin (split_or_keep A P <$> Q)) ≡ₚ mjoin Q
  ∧ Forall (λ B, B ≠ []) (mjoin (split_or_keep A P <$> Q))
  ∧ length Q ≤ length (mjoin (split_or_keep A P <$> Q))
  ∧ (Exists (λ B, 1 < length (_splitPartition A B P)) Q →
     length Q < length (mjoin (split_or_keep A P <$> Q)))
  ∧ (¬ Exists (λ B, 1 < length (_splitPartition A B P)) Q →
     mjoin (split_or_keep A P <$> Q) = Q)
  ∧ (∀ B', B' ∈ mjoin (split_or_keep A P <$> Q) →
       ∃ B, B ∈ Q ∧ ∀ x, x ∈ B' → x ∈ B).
Proof.
  induction Q as [|B Q IH]; intros Hok.
  - simpl. split; [done|]. split; [done|]. split; [done|].
    split; [by intros ?%Exists_nil|]. split; [done|].
    by intros B' ?%elem_of_nil.
  - apply partition_ok_cons in Hok as (HB & Hne & Hdisj & Hok).
    destruct (IH Hok) as (Hmem & Hnonempty & Hlen & Hlt & Hsame & Hsub).
    rewrite fmap_cons, mjoin_cons.
    destruct (split_or_keep_length A P B) as (Hl1 & Hl2 & Hl3).
    split; [|split; [|split; [|split; [|split]]]].
    + rewrite join_app, Hmem. by rewrite split_or_keep_members.
    + apply Forall_app. split; [by apply split_or_keep_nonempty|done].
    + rewrite length_app. cbn [length]. lia.
    + rewrite length_app. intros [HB1|HQ]%Exists_cons; cbn [length].
      * specialize (Hl2 HB1). lia.
      * specialize (Hlt HQ). lia.
    + intros Hno. rewrite Hl3, Hsame; [done|..].
      * intros HQ. apply Hno. by right.
      * intros HB1. apply Hno. by left.
    + intros B' [HB'|HB']%elem_of_app.
      * exists B. split; [by left|]. intros x Hx.
        rewrite <- (split_or_keep_members A P B HB).
        apply list_elem_of_join. eauto.
      * destruct (Hsub B' HB') as (B0 & HB0 & Hx). exists B0.
        split; [by right|done].
Qed.

Lemma partition_ok_length P : partition_ok P → length P ≤ length (mjoin P).
Proof.
  induction P as [|B P IH]; [done|].
  intros (HB & Hne & _ & Hok)%partition_ok_cons. rewrite mjoin_cons.
  rewrite length_app. specialize (IH Hok). destruct B; [done|]. simpl. lia.
Qed.

Lemma refine_round_ok (A : Automaton DFA) P :
  partition_ok P →
  partition_ok (snd (refine_round A P))
  ∧ mjoin (snd (refine_round A P)) ≡ₚ mjoin P
  ∧ (∀ B', B' ∈ snd (refine_round A P) → ∃ B, B ∈ P ∧ ∀ x, x ∈ B' → x ∈ B)
  ∧ (fst (refine_round A P) = true →
     length P < length (snd (refine_round A P)))
  ∧ (fst (refine_round A P) = false →
     snd (refine_round A P) = P ∧ stable A P).
Proof.
  intros Hok. rewrite refine_round_snd.
  destruct (refine_blocks A P P Hok)
    as (Hmem & Hnonempty & Hlen & Hlt & Hsame & Hsub).
  split; [|split; [|split; [|split]]]; try done.
  - split; [|done]. rewrite Hmem. by destruct Hok.
  - intros Hc%refine_round_fst. auto.
  - intros Hc%not_true_iff_false. rewrite refine_round_fst in Hc.
    split; [auto|]. intros B HB.
    destruct (decide (length (_splitPartition A B P) ≤ 1)) as [|Hn]; [done|].
    destruct Hc. apply Exists_exists. exists B. split; [done|lia].
Qed.

(** *** The loop *)

(** The loop of the refinement returns once its fuel exceeds the number of
    states in the blocks; what it returns is a partition of the same
    states into parts of the blocks it started from, and no further round
    splits a block of it. *)
Lemma refine_loop_returns (A : Automaton DFA) fuel P :
  partition_ok P → length (mjoin P) < fuel + length P →
  ∃ P', refine_loop A fuel P = Some P'
        ∧ partition_ok P'
        ∧ mjoin P' ≡ₚ mjoin P
        ∧ (∀ B', B' ∈ P' → ∃ B, B ∈ P ∧ ∀ x, x ∈ B' → x ∈ B)
        ∧ stable A P'.
Proof.
  revert P. induction fuel as [|fuel IH]; intros P Hok Hfuel.
  - pose proof (partition_ok_length P Hok). lia.
  - cbn [refine_loop]. cbn zeta.
    destruct (refine_round_ok A P Hok) as (Hok1 & Hmem & Hsub & Hlt & Hsame).
    destruct (fst (refine_round A P)) eqn:Hc.
    + destruct (IH (snd (refine_round A P))) as (P' & HP' & ? & ? & Hsub' & ?).
      { done. }
      { specialize (Hlt eq_refl). rewrite Hmem. lia. }
      exists P'. split; [done|]. split; [done|].
      split; [by etrans|]. split; [|done]. intros B' HB'.
      destruct (Hsub' B' HB') as (B1 & HB1 & Hx1).
      destruct (Hsub B1 HB1) as (B & HB & Hx). exists B. split; [done|].
      auto.
    + destruct (Hsame eq_refl) as [HP Hst]. exists (snd (refine_round A P)).
      split; [done|]. rewrite HP. split; [done|]. split; [done|].
      split; [|done]. intros B' HB'. exists B'. auto.
Qed.

Lemma refine_loop_more_fuel (A : Automaton DFA) fuel fuel' P P' :
  refine_loop A fuel P = Some P' → fuel ≤ fuel' →
  refine_loop A fuel' P = Some P'.
Proof.
  revert fuel' P. induction fuel as [|fuel IH]; intros fuel' P; [done|].
  destruct fuel' as [|fuel']; [lia|]. cbn [refine_loop]. cbn zeta.
  destruct (fst (refine_round A P)); [|done]. intros H ?. apply IH; [done|lia].
Qed.

(** *** Blocks that no round splits *)

Lemma stable_one_key (A : Automaton DFA) P B a x y :
  stable A P → NoDup B → B ∈ P → x ∈ B → y ∈ B → a ∈ alphabet A →
  targetPartitionIndex A P x a = targetPartitionIndex A P y a.
Proof.
  intros Hst HB HBP Hx Hy Ha. specialize (Hst B HBP).
  unfold _splitPartition in Hst.
  destruct (decide (length B ≤ 1)) as [Hlen|Hlen].
  - destruct B as [|b [|b' B]]; simpl in Hlen; [|  |lia].
    + by apply elem_of_nil in Hx.
    + apply list_elem_of_singleton in Hx, Hy. by subst.
  - eapply split_groups_one_key; [done| |done..].
    by eapply split_on_not_split.
Qed.

(** *** The first partition *)

Lemma initial_partitions_elem (A : Automaton DFA) q0 x :
  x ∈ mjoin (initial_partitions A q0) ↔
  x ∈ finalStates A
  ∨ (x ∈ _getReachableStates A q0 ∧ set_has x (finalStates A) = false).
Proof.
  unfold initial_partitions. cbn zeta. rewrite join_app, elem_of_app.
  assert (∀ l : list string,
    x ∈ mjoin (if decide (new_Set l = []) then [] else [new_Set l])
    ↔ x ∈ l) as Hone.
  { intros l. destruct (decide (new_Set l = [])) as [Hnil|Hnil].
    - rewrite mjoin_nil. rewrite <- (elem_of_new_Set x l), Hnil. done.
    - rewrite mjoin_cons, mjoin_nil, app_nil_r. apply elem_of_new_Set. }
  rewrite !Hone, list_elem_of_filter. tauto.
Qed.

Lemma initial_partitions_ok (A : Automaton DFA) q0 :
  partition_ok (initial_partitions A q0)
  ∧ Forall (same_finality A) (initial_partitions A q0).
Proof.
  unfold initial_partitions. cbn zeta.
  pose proof (NoDup_new_Set (finalStates A)) as HF.
  pose proof (NoDup_new_Set (filter (λ q, set_has q (finalStates A) = false)
                               (_getReachableStates A q0))) as HN.
  assert (∀ x, x ∈ new_Set (finalStates A) →
               set_has x (finalStates A) = true) as HFin.
  { intros x Hx. rewrite elem_of_new_Set in Hx. by apply set_has_true. }
  assert (∀ x, x ∈ new_Set (filter (λ q, set_has q (finalStates A) = false)
                              (_getReachableStates A q0)) →
               set_has x (finalStates A) = false) as HNon.
  { intros x Hx. rewrite elem_of_new_Set in Hx.
    by apply list_elem_of_filter in Hx as [? _]. }
  revert HF HN HFin HNon.
  generalize (new_Set (finalStates A)) as F.
  generalize (new_Set (filter (λ q, set_has q (finalStates A) = false)
                         (_getReachableStates A q0))) as N.
  intros N F HF HN HFin HNon.
  assert (same_finality A F) as HsF.
  { intros x y Hx Hy. by rewrite !HFin. }
  assert (same_finality A N) as HsN.
  { intros x y Hx Hy. by rewrite !HNon. }
  unfold partition_ok.
  destruct (decide (F = [])), (decide (N = [])); simpl;
    rewrite ?app_nil_r; repeat split; repeat constructor; try done.
  apply NoDup_app. split; [done|]. split; [|done].
  intros x Hx Hx'. specialize (HFin x Hx). specialize (HNon x Hx'). congruence.
Qed.

(** *** The new automaton *)

Lemma block_index_cons B P x :
  block_index (B :: P) x =
    if decide (x ∈ B) then Some 0 else S <$> block_index P x.
Proof.
  unfold block_index. cbn [list_find]. case_decide; [done|].
  by destruct (list_find _ P) as [[i B']|].
Qed.

Lemma block_name_inj i j : block_name i = block_name j → i = j.
Proof.
  unfold block_name. intros H. simpl in H. injection H as H.
  change ("" +:+ ?s) with s in H. by apply (inj pretty) in H.
Qed.

Lemma block_name_truthy i : truthy_str (block_name i) = true.
Proof. done. Qed.

Lemma foldl_insert_lookup (B : list string) (sm : gmap string string) nm x :
  foldl (λ sm q, <[q := nm]> sm) sm B !! x =
    if decide (x ∈ B) then Some nm else sm !! x.
Proof.
  revert sm. induction B as [|b B IH]; intros sm; cbn [foldl].
  - by rewrite decide_False by apply not_elem_of_nil.
  - rewrite IH. destruct (decide (x ∈ B)) as [Hx|Hx].
    + rewrite decide_True; [done|by right].
    + destruct (decide (x = b)) as [->|Hne].
      * rewrite lookup_insert_eq. rewrite decide_True; [done|by left].
      * rewrite lookup_insert_ne by done. rewrite decide_False; [done|].
        by intros [?|?]%elem_of_cons.
Qed.

Lemma add_block_spec (A : Automaton DFA) m sm i B :
  let r := add_block A (m, sm) (i, B) in
  states (fst r) = set_add (block_name i) (states m)
  ∧ transitions (fst r) = transitions m
  ∧ initialState (fst r)
    = (if has_initialState A B then Some (block_name i) else initialState m)
  ∧ finalStates (fst r)
    = (if existsb (λ q, set_has q (finalStates A)) B
       then set_add (block_name i) (finalStates m) else finalStates m)
  ∧ ∀ x, snd r !! x = if decide (x ∈ B) then Some (block_name i) else sm !! x.
Proof.
  cbn zeta. unfold add_block. cbn [fst snd].
  assert (set_has (block_name i) (set_add (block_name i) (states m)) = true)
    as Hin.
  { apply set_has_true, elem_of_set_add. by left. }
  destruct (has_initialState A B), (existsb _ B);
    unfold toggleFinalState, setInitialState; cbn [addState states];
    rewrite ?Hin; cbn [states transitions initialState finalStates];
    rewrite ?Hin; cbn [states transitions initialState finalStates];
    repeat split; try done; apply foldl_insert_lookup.
Qed.

Lemma add_blocks_spec (A : Automaton DFA) P :
  NoDup (mjoin P) → ∀ n m sm,
  (∀ q, q ∈ states (fst (add_blocks A n P (m, sm))) ↔
        q ∈ states m ∨ ∃ i, i < length P ∧ q = block_name (n + i))
  ∧ transitions (fst (add_blocks A n P (m, sm))) = transitions m
  ∧ initialState (fst (add_blocks A n P (m, sm)))
    = match initialState A ≫= block_index P with
      | Some i => Some (block_name (n + i))
      | None => initialState m
      end
  ∧ (∀ q, q ∈ finalStates (fst (add_blocks A n P (m, sm))) ↔
          q ∈ finalStates m
          ∨ ∃ i B, P !! i = Some B ∧ q = block_name (n + i)
                   ∧ existsb (λ q, set_has q (finalStates A)) B = true)
  ∧ ∀ x, snd (add_blocks A n P (m, sm)) !! x
         = match block_index P x with
           | Some i => Some (block_name (n + i))
           | None => sm !! x
           end.
Proof.
  induction P as [|B P IH]; intros Hnd n m sm.
  - cbn [add_blocks fst snd length]. split; [|split; [|split; [|split]]].
    + intros q. split; [by left|]. intros [?|(i & ? & _)]; [done|lia].
    + done.
    + by destruct (initialState A).
    + intros q. split; [by left|]. by intros [?|(i & B & ? & _)].
    + done.
  - rewrite mjoin_cons in Hnd. apply NoDup_app in Hnd as (HB & Hdisj & HP).
    cbn [add_blocks].
    destruct (add_block_spec A m sm n B) as (Hst & Htr & Hin & Hfin & Hsm).
    destruct (add_block A (m, sm) (n, B)) as [m1 sm1] eqn:Hab.
    cbn [fst snd] in Hst, Htr, Hin, Hfin, Hsm.
    destruct (IH HP (S n) m1 sm1) as (IHst & IHtr & IHin & IHfin & IHsm).
    split; [|split; [|split; [|split]]].
    + intros q. rewrite IHst, Hst, elem_of_set_add. cbn [length]. split.
      * intros [[->|?]|(i & Hi & ->)].
        -- right. exists 0. split; [lia|]. f_equal. lia.
        -- by left.
        -- right. exists (S i). split; [lia|]. f_equal. lia.
      * intros [?|(i & Hi & ->)]; [by left; right|].
        destruct i as [|i].
        -- left. left. f_equal. lia.
        -- right. exists i. split; [lia|]. f_equal. lia.
    + by rewrite IHtr.
    + rewrite IHin, Hin. unfold has_initialState.
      destruct (initialState A) as [q0|]; cbn [mbind option_bind]; [|done].
      rewrite block_index_cons. destruct (decide (q0 ∈ B)) as [Hq0|Hq0].
      * rewrite (proj2 (set_has_true q0 B)) by done.
        destruct (block_index P q0) as [i|] eqn:Hi.
        { apply block_index_Some in Hi as (B' & HB' & Hq0').
          destruct (Hdisj q0 Hq0). apply list_elem_of_join. exists B'.
          split; [done|]. by eapply list_elem_of_lookup_2. }
        f_equal. f_equal. lia.
      * rewrite (proj2 (set_has_false q0 B)) by done.
        destruct (block_index P q0) as [i|]; cbn [fmap option_fmap option_map];
          [|done].
        f_equal. f_equal. lia.
    + intros q. rewrite IHfin, Hfin. split.
      * intros [Hq|(i & B' & HB' & -> & Hex)].
        -- destruct (existsb _ B) eqn:Hex; [|by left].
           apply elem_of_set_add in Hq as [->|?]; [|by left].
           right. exists 0, B. split; [done|]. split; [|done]. f_equal. lia.
        -- right. exists (S i), B'. split; [done|]. split; [|done].
           f_equal. lia.
      * intros [Hq|(i & B' & HB' & -> & Hex)].
        -- left. destruct (existsb _ B); [|done].
           apply elem_of_set_add. by right.
        -- destruct i as [|i].
           ++ injection HB' as <-. left. rewrite Hex. apply elem_of_set_add.
              left. f_equal. lia.
           ++ right. exists i, B'. split; [done|]. split; [|done].
              f_equal. lia.
    + intros x. rewrite IHsm, Hsm, block_index_cons.
      destruct (decide (x ∈ B)) as [Hx|Hx].
      * destruct (block_index P x) as [i|] eqn:Hi.
        { apply block_index_Some in Hi as (B' & HB' & Hx').
          destruct (Hdisj x Hx). apply list_elem_of_join. exists B'.
          split; [done|]. by eapply list_elem_of_lookup_2. }
        f_equal. f_equal. lia.
      * destruct (block_index P x) as [i|]; cbn [fmap option_fmap option_map];
          [|done].
        f_equal. f_equal. lia.
Qed.

Lemma addTransition_frame {k} from a to (A : Automaton k) :
  states (addTransition from a to A).2 = states A
  ∧ initialState (addTransition from a to A).2 = initialState A
  ∧ finalStates (addTransition from a to A).2 = finalStates A.
Proof. unfold addTransition. by destruct (_ || _). Qed.

Lemma add_representative_transition_spec sm row ps (m : Automaton DFA) b q a :
  ps ∈ states m → (∀ x nm, sm !! x = Some nm → nm ∈ states m) →
  states (add_representative_transition sm row ps m b) = states m
  ∧ initialState (add_representative_transition sm row ps m b)
    = initialState m
  ∧ finalStates (add_representative_transition sm row ps m b)
    = finalStates m
  ∧ entry (add_representative_transition sm row ps m b) q a
    = match (if decide (q = ps ∧ a = b) then rep_write sm row b else None)
      with
      | Some nm => Some nm
      | None => entry m q a
      end.
Proof.
  intros Hps Hsm. unfold add_representative_transition, rep_write.
  destruct (row !! b) as [t|]; [|by case_decide].
  destruct (truthy_str t); [|by case_decide].
  destruct (sm !! t) as [nm|] eqn:Ht; [|by case_decide].
  destruct (addTransition_frame ps b nm m) as (-> & -> & ->).
  split; [done|]. split; [done|]. split; [done|].
  rewrite addTransition_entry; [|apply addTransition_true; eauto].
  by case_decide.
Qed.

Lemma add_representative_transitions_spec sm row ps L :
  ∀ (m : Automaton DFA) q a,
  ps ∈ states m → (∀ x nm, sm !! x = Some nm → nm ∈ states m) →
  states (foldl (add_representative_transition sm row ps) m L) = states m
  ∧ initialState (foldl (add_representative_transition sm row ps) m L)
    = initialState m
  ∧ finalStates (foldl (add_representative_transition sm row ps) m L)
    = finalStates m
  ∧ entry (foldl (add_representative_transition sm row ps) m L) q a
    = match (if decide (q = ps ∧ a ∈ L) then rep_write sm row a else None)
      with
      | Some nm => Some nm
      | None => entry m q a
      end.
Proof.
  induction L as [|b L IH]; intros m q a Hps Hsm; cbn [foldl].
  - repeat split; try done. case_decide as H; [|done].
    destruct H as [_ []%elem_of_nil].
  - destruct (add_representative_transition_spec sm row ps m b q a Hps Hsm)
      as (Hst & Hin & Hfin & Hent).
    destruct (IH (add_representative_transition sm row ps m b) q a)
      as (-> & -> & -> & ->); [by rewrite Hst..|].
    split; [done|]. split; [done|]. split; [done|]. rewrite Hent.
    destruct (decide (q = ps ∧ a ∈ L)) as [[-> HaL]|HnL].
    + rewrite (decide_True (P := ps = ps ∧ a ∈ b :: L)) by (split; [done|by right]).
      destruct (rep_write sm row a) eqn:Hw; [done|].
      case_decide as Hb; [|done]. destruct Hb as [_ ->]. by rewrite Hw.
    + destruct (decide (q = ps ∧ a = b)) as [[-> ->]|Hnb].
      * rewrite (decide_True (P := ps = ps ∧ b ∈ b :: L))
          by (split; [done|by left]). done.
      * rewrite decide_False; [done|].
        intros [-> [->|?]%elem_of_cons]; tauto.
Qed.

Lemma add_block_transitions_spec (A : Automaton DFA) sm (m : Automaton DFA)
    B q a :
  (∀ x nm, sm !! x = Some nm → nm ∈ states m) →
  states (add_block_transitions A sm m B) = states m
  ∧ initialState (add_block_transitions A sm m B) = initialState m
  ∧ finalStates (add_block_transitions A sm m B) = finalStates m
  ∧ entry (add_block_transitions A sm m B) q a
    = match block_write A sm B q a with
      | Some nm => Some nm
      | None => entry m q a
      end.
Proof.
  intros Hsm. unfold add_block_transitions, block_write.
  destruct B as [|r B]; [done|].
  destruct (sm !! r) as [ps|] eqn:Hr; [|done].
  destruct (transitions A !! r) as [row|]; [|done].
  apply add_representative_transitions_spec; eauto.
Qed.

Lemma add_blocks_transitions_frame (A : Automaton DFA) sm Q :
  ∀ m : Automaton DFA,
  (∀ x nm, sm !! x = Some nm → nm ∈ states m) →
  states (foldl (add_block_transitions A sm) m Q) = states m
  ∧ initialState (foldl (add_block_transitions A sm) m Q) = initialState m
  ∧ finalStates (foldl (add_block_transitions A sm) m Q) = finalStates m.
Proof.
  induction Q as [|B Q IH]; intros m Hsm; cbn [foldl]; [done|].
  destruct (add_block_transitions_spec A sm m B "" "" Hsm)
    as (Hst & Hin & Hfin & _).
  destruct (IH (add_block_transitions A sm m B)) as (-> & -> & ->);
    [by rewrite Hst|]. done.
Qed.

(** No block writes the pair: the entry stays. *)
Lemma add_blocks_transitions_none (A : Automaton DFA) sm Q q a :
  ∀ m : Automaton DFA,
  (∀ x nm, sm !! x = Some nm → nm ∈ states m) →
  (∀ B, B ∈ Q → block_write A sm B q a = None) →
  entry (foldl (add_block_transitions A sm) m Q) q a = entry m q a.
Proof.
  induction Q as [|B Q IH]; intros m Hsm Hnone; cbn [foldl]; [done|].
  destruct (add_block_transitions_spec A sm m B q a Hsm)
    as (Hst & _ & _ & Hent).
  rewrite IH.
  - rewrite Hent, Hnone; [done|by left].
  - by rewrite Hst.
  - intros B' HB'. apply Hnone. by right.
Qed.

(** One block at least writes the pair, and all that do write the same
    name: the entry is this name. *)
Lemma add_blocks_transitions_some (A : Automaton DFA) sm Q q a nm :
  ∀ m : Automaton DFA,
  (∀ x nm, sm !! x = Some nm → nm ∈ states m) →
  (∀ B, B ∈ Q →
        block_write A sm B q a = None ∨ block_write A sm B q a = Some nm) →
  (∃ B, B ∈ Q ∧ block_write A sm B q a = Some nm) →
  entry (foldl (add_block_transitions A sm) m Q) q a = Some nm.
Proof.
  induction Q as [|B Q IH]; intros m Hsm Hall (B0 & HB0 & Hw); cbn [foldl].
  { by apply elem_of_nil in HB0. }
  destruct (add_block_transitions_spec A sm m B q a Hsm)
    as (Hst & _ & _ & Hent).
  destruct (decide (Exists (λ B, block_write A sm B q a = Some nm) Q))
    as [Hex|Hno].
  - apply IH.
    + by rewrite Hst.
    + intros B' HB'. apply Hall. by right.
    + apply Exists_exists in Hex. done.
  - rewrite add_blocks_transitions_none.
    + apply elem_of_cons in HB0 as [->|HB0].
      * by rewrite Hent, Hw.
      * destruct Hno. apply Exists_exists. eauto.
    + by rewrite Hst.
    + intros B' HB'. destruct (Hall B') as [?|Hs]; [by right|done|].
      destruct Hno. apply Exists_exists. eauto.
Qed.

Lemma block_write_representative (A : Automaton DFA) P sm i r rest a :
  (∀ x, sm !! x = block_name <$> block_index P x) →
  NoDup (mjoin P) → P !! i = Some (r :: rest) → a ∈ alphabet A →
  block_write A sm (r :: rest) (block_name i) a
  = block_name <$> targetPartitionIndex A P r a.
Proof.
  intros Hsm Hnd Hi Ha. unfold block_write, targetPartitionIndex, entry.
  rewrite Hsm, (block_index_unique P i (r :: rest) r Hnd Hi) by by left.
  cbn [fmap option_fmap option_map].
  destruct (transitions A !! r) as [row|]; [|done].
  rewrite decide_True by done. unfold rep_write.
  cbn [mbind option_bind target].
  destruct (row !! a) as [t|]; [|done].
  destruct (truthy_str t); [|done]. apply Hsm.
Qed.

Lemma block_write_other (A : Automaton DFA) P sm i B B' a :
  (∀ x, sm !! x = block_name <$> block_index P x) →
  NoDup (mjoin P) → P !! i = Some B → B' ∈ P →
  block_write A sm B' (block_name i) a = None ∨ B' = B.
Proof.
  intros Hsm Hnd Hi HB'. apply list_elem_of_lookup in HB' as (i' & Hi').
  destruct B' as [|r' rest']; [by left|]. unfold block_write.
  rewrite Hsm, (block_index_unique P i' (r' :: rest') r' Hnd Hi') by by left.
  cbn [fmap option_fmap option_map].
  destruct (transitions A !! r') as [row|]; [|by left].
  case_decide as Hq; [|by left]. destruct Hq as [Hq%block_name_inj _].
  subst i'. right. congruence.
Qed.

(** The automaton that step 4 builds from a partition: its alphabet, its
    initial state, its final states and its table. *)
Lemma build_minimized_spec (A : Automaton DFA) P q0 :
  partition_ok P → initialState A = Some q0 →
  (∀ a, set_has a (alphabet (build_minimized A P)) = set_has a (alphabet A))
  ∧ initialState (build_minimized A P) = block_name <$> block_index P q0
  ∧ (∀ i B, P !! i = Some B →
       set_has (block_name i) (finalStates (build_minimized A P))
       = existsb (λ q, set_has q (finalStates A)) B)
  ∧ (∀ i r rest a, P !! i = Some (r :: rest) → a ∈ alphabet A →
       entry (build_minimized A P) (block_name i) a
       = block_name <$> targetPartitionIndex A P r a).
Proof.
  intros [Hnd Hne] Hq0. unfold build_minimized. cbn zeta.
  destruct (add_blocks_spec A P Hnd 0 (new_Automaton DFA) ∅)
    as (Hst & Htr & Hin & Hfin & Hsm).
  destruct (add_blocks A 0 P (new_Automaton DFA, ∅)) as [m1 sm] eqn:Hab.
  cbn [fst snd] in *.
  assert (∀ x, sm !! x = block_name <$> block_index P x) as Hsm'.
  { intros x. rewrite Hsm. by destruct (block_index P x). }
  assert (∀ x nm, sm !! x = Some nm → nm ∈ states m1) as Hvals.
  { intros x nm. rewrite Hsm'.
    destruct (block_index P x) as [i|] eqn:Hi; [|done]. intros [= <-].
    apply block_index_Some in Hi as (B & HB & _).
    apply Hst. right. exists i. split; [|done]. by eapply lookup_lt_Some. }
  destruct (add_blocks_transitions_frame A sm P m1 Hvals) as (Hst2 & Hin2 & Hfin2).
  split; [|split; [|split]].
  - intros a. cbn [setAlphabet alphabet]. apply set_has_new_Set.
  - cbn [setAlphabet initialState]. rewrite Hin2, Hin, Hq0.
    cbn [mbind option_bind]. by destruct (block_index P q0).
  - intros i B Hi. cbn [setAlphabet finalStates]. rewrite Hfin2.
    destruct (existsb _ B) eqn:Hex.
    + apply set_has_true, Hfin. right. by exists i, B.
    + apply set_has_false. intros [[]%elem_of_nil|(i' & B' & Hi' & Hn & Hex')]%Hfin.
      apply block_name_inj in Hn. cbn [Nat.add] in Hn. subst i'. congruence.
  - intros i r rest a Hi Ha.
    change (entry (setAlphabet ?l ?m) ?q ?b) with (entry m q b).
    pose proof (block_write_representative A P sm i r rest a Hsm' Hnd Hi Ha)
      as Hw.
    destruct (targetPartitionIndex A P r a) as [j|];
      cbn [fmap option_fmap option_map] in Hw |- *.
    + apply add_blocks_transitions_some; [done| |].
      * intros B' HB'.
        destruct (block_write_other A P sm i (r :: rest) B' a Hsm' Hnd Hi HB')
          as [? | ->]; [by left|by right].
      * exists (r :: rest). split; [|done]. by eapply list_elem_of_lookup_2.
    + rewrite add_blocks_transitions_none; [| done |].
      * unfold entry. by rewrite Htr.
      * intros B' HB'.
        by destruct (block_write_other A P sm i (r :: rest) B' a Hsm' Hnd Hi HB')
          as [? | ->].
Qed.

(** *** The runs of the two automata *)

Lemma existsb_final_same (A : Automaton DFA) B x :
  same_finality A B → x ∈ B →
  existsb (λ q, set_has q (finalStates A)) B = set_has x (finalStates A).
Proof.
  intros Hsame Hx. destruct (existsb _ B) eqn:Hex.
  - apply existsb_exists in Hex as (y & Hy%list_elem_of_In & Hfin).
    by rewrite (Hsame x y Hx Hy).
  - destruct (set_has x (finalStates A)) eqn:Hfin; [|done].
    assert (existsb (λ q, set_has q (finalStates A)) B = true) as Ht;
      [|congruence].
    apply existsb_exists. exists x. split; [by apply list_elem_of_In|done].
Qed.

Lemma minimized_run (A : Automaton DFA) P q0 (R : list string) :
  partition_ok P → stable A P → Forall (same_finality A) P →
  initialState A = Some q0 →
  (∀ x a t, x ∈ R → entry A x a = Some t → t ∈ R) →
  (∀ x, x ∈ R → x ∈ mjoin P) →
  ∀ input x i B pathA pathM,
    x ∈ R → P !! i = Some B → x ∈ B →
    SimulationResult.accepted
      (_simulateDFA_loop (build_minimized A P) (block_name i) pathM input)
    = SimulationResult.accepted (_simulateDFA_loop A x pathA input).
Proof.
  intros Hok Hstable Hsame Hq0 Hclosed Hcover.
  destruct (build_minimized_spec A P q0 Hok Hq0) as (Halph & _ & Hfin & Hent).
  destruct Hok as [Hnd Hne].
  induction input as [|a input IH]; intros x i B pathA pathM Hx Hi HxB;
    cbn [_simulateDFA_loop SimulationResult.accepted].
  - rewrite (Hfin i B Hi). apply existsb_final_same; [|done].
    rewrite Forall_forall in Hsame. apply Hsame.
    by eapply list_elem_of_lookup_2.
  - rewrite Halph. destruct (set_has a (alphabet A)) eqn:Ha; [|done].
    cbn [negb]. apply set_has_true in Ha.
    assert (B ∈ P) as HBP by by eapply list_elem_of_lookup_2.
    destruct B as [|r rest]; [by apply elem_of_nil in HxB|].
    rewrite (Hent i r rest a Hi Ha).
    assert (NoDup (r :: rest)) as HB.
    { clear -Hnd HBP. induction P as [|C P IH]; [by apply elem_of_nil in HBP|].
      rewrite mjoin_cons in Hnd. apply NoDup_app in Hnd as (? & _ & ?).
      apply elem_of_cons in HBP as [->|?]; auto. }
    rewrite (stable_one_key A P (r :: rest) a r x Hstable HB HBP)
      by (done || by left).
    unfold targetPartitionIndex.
    destruct (entry A x a) as [y|] eqn:Hy; [|done].
    destruct (truthy_str y) eqn:Hty; [|done].
    assert (y ∈ R) as HyR by eauto.
    destruct (proj1 (list_elem_of_join _ _) (Hcover y HyR))
      as (By & HyB & HBy).
    apply list_elem_of_lookup in HBy as (j & Hj).
    rewrite (block_index_unique P j By y Hnd Hj HyB).
    cbn [fmap option_fmap option_map]. rewrite block_name_truthy.
    by apply (IH y j By).
Qed.

Lemma simulate_DFA_initial (A : Automaton DFA) q0 input :
  initialState A = Some q0 → truthy_str q0 = true →
  simulate A input = _simulateDFA_loop A q0 [AtState q0 input] input.
Proof.
  intros Hq0 Ht. cbn [simulate]. unfold _simulateDFA. by rewrite Hq0, Ht.
Qed.

(** C2, the claim at a concrete input: the DFA [empty_name] has the initial
    state [""], which is final.  [simulate] takes the empty name for no
    initial state and does not accept the empty input; [minimize] gives the
    block of the state the name q0, and its result accepts the empty
    input. *)
Lemma minimize_accepts_more_for_empty_name :
  initialState empty_name = Some ""
  ∧ SimulationResult.accepted (simulate empty_name []) = false
  ∧ ∃ M, minimize 1 empty_name = Some M
         ∧ SimulationResult.accepted (simulate M []) = true.
Proof.
  split; [by vm_compute|]. split; [by vm_compute|].
  eexists. split; [by vm_compute|]. by vm_compute.
Qed.

(** C2, amended.  For a DFA [D] whose initial state is not the empty string
    and in which no state name is the name of an inherited property,
    [minimize] returns: from some amount of fuel on, its refinement loop ends and it returns the same
    automaton [M], the only one it returns for any fuel; and [M] accepts
    the inputs that [D] accepts, [simulate] giving the same [accepted] on
    the two for every input. *)
Theorem minimize_preserves_acceptance (D : Automaton DFA) (q0 : string) :
  initialState D = Some q0 → q0 ≠ "" → own_names D →
  ∃ M,
    (∃ n, ∀ fuel, n ≤ fuel → minimize fuel D = Some M)
    ∧ (∀ fuel M', minimize fuel D = Some M' → M' = M)
    ∧ ∀ input,
        SimulationResult.accepted (simulate M input)
        = SimulationResult.accepted (simulate D input).
Proof.
  intros Hq0 Hne _.
  destruct (initial_partitions_ok D q0) as [Hok0 Hsame0].
  destruct (refine_loop_returns D (S (length (mjoin (initial_partitions D q0))))
              (initial_partitions D q0) Hok0)
    as (P & Hloop & Hok & Hmem & Hsub & Hstable); [lia|].
  destruct (_getReachableStates_closed D q0) as [Hq0R Hclosed].
  exists (build_minimized D P). split; [|split].
  - exists (S (length (mjoin (initial_partitions D q0)))). intros fuel Hfuel.
    cbn [minimize]. unfold minimize_DFA. rewrite Hq0. cbn [mbind option_bind].
    by rewrite (refine_loop_more_fuel _ _ _ _ _ Hloop Hfuel).
  - intros fuel M'. cbn [minimize]. unfold minimize_DFA. rewrite Hq0.
    cbn [mbind option_bind].
    destruct (refine_loop D fuel (initial_partitions D q0)) as [P'|] eqn:HP';
      [|done].
    intros [= <-].
    pose proof (refine_loop_more_fuel _ _
      (fuel + S (length (mjoin (initial_partitions D q0)))) _ _ HP'
      ltac:(lia)) as H1.
    pose proof (refine_loop_more_fuel _ _
      (fuel + S (length (mjoin (initial_partitions D q0)))) _ _ Hloop
      ltac:(lia)) as H2.
    congruence.
  - intros input.
    assert (∀ x, x ∈ _getReachableStates D q0 → x ∈ mjoin P) as Hcover.
    { intros x Hx. rewrite Hmem. apply initial_partitions_elem.
      destruct (set_has x (finalStates D)) eqn:Hfin; [|by right].
      left. by apply set_has_true. }
    assert (Forall (same_finality D) P) as Hsame.
    { apply Forall_forall. intros B' HB'.
      destruct (Hsub B' HB') as (B & HB & Hx).
      rewrite Forall_forall in Hsame0. intros x y Hx' Hy'.
      apply (Hsame0 B HB); auto. }
    destruct (proj1 (list_elem_of_join _ _) (Hcover q0 Hq0R))
      as (B0 & Hq0B & HB0).
    apply list_elem_of_lookup in HB0 as (i0 & Hi0).
    destruct (build_minimized_spec D P q0 Hok Hq0) as (_ & Hinit & _).
    destruct Hok as [Hnd Hnonempty].
    rewrite (block_index_unique P i0 B0 q0 Hnd Hi0 Hq0B) in Hinit.
    rewrite (simulate_DFA_initial _ _ _ Hinit (block_name_truthy i0)).
    rewrite (simulate_DFA_initial _ _ _ Hq0 (truthy_str_true _ Hne)).
    by apply (minimized_run D P q0 (_getReachableStates D q0)) with (B := B0).
Qed.

(** The sample DFA has an initial state: [minimize] returns on it and keeps
    what it accepts. *)
Lemma minimize_preserves_acceptance_sample :
  initialState sample = Some "q0" ∧ "q0" ≠ "" ∧ own_names sample
  ∧ ∃ M,
      (∃ n, ∀ fuel, n ≤ fuel → minimize fuel sample = Some M)
      ∧ (∀ fuel M', minimize fuel sample = Some M' → M' = M)
      ∧ ∀ input,
          SimulationResult.accepted (simulate M input)
          = SimulationResult.accepted (simulate sample input).
Proof.
  assert (own_names sample) as Hown
    by (apply (bool_decide_unpack _); by vm_compute).
  split; [by vm_compute|]. split; [done|]. split; [done|].
  apply (minimize_preserves_acceptance sample "q0"); [by vm_compute|done|done].
Defined.

(** ** Serialization *)

Lemma foldl_set_add_NoDup_app (l acc : list string) :
  NoDup (acc ++ l) → foldl (λ acc x, set_add x acc) acc l = acc ++ l.
Proof.
  revert acc. induction l as [|x l IH]; intros acc Hnd; cbn [foldl].
  - by rewrite app_nil_r.
  - assert (set_add x acc = acc ++ [x]) as ->.
    { unfold set_add. rewrite (proj2 (set_has_false _ _)); [done|].
      apply NoDup_app in Hnd as (_ & Hdisj & _). intros Hx.
      apply (Hdisj x Hx). by left. }
    rewrite IH; rewrite <- app_assoc; done.
Qed.

Lemma new_Set_NoDup (l : list string) : NoDup l → new_Set l = l.
Proof. intros. unfold new_Set. by rewrite foldl_set_add_NoDup_app. Qed.

Lemma foldl_addState {k} (l : list string) (B : Automaton k) :
  foldl (λ B q, addState q B) B l
  = mkAutomaton (foldl (λ acc x, set_add x acc) (states B) l) (alphabet B)
      (transitions B) (initialState B) (finalStates B).
Proof.
  revert B. induction l as [|q l IH]; intros B; cbn [foldl].
  - by destruct B.
  - by rewrite IH.
Qed.

Lemma foldl_toggleFinalState {k} (l : list string) (B : Automaton k) :
  (∀ q, q ∈ l → q ∈ states B) →
  foldl (λ B q, toggleFinalState q true B) B l
  = mkAutomaton (states B) (alphabet B) (transitions B) (initialState B)
      (foldl (λ acc x, set_add x acc) (finalStates B) l).
Proof.
  revert B. induction l as [|q l IH]; intros B Hl; cbn [foldl].
  - by destruct B.
  - unfold toggleFinalState at 2.
    rewrite (proj2 (set_has_true q (states B))) by (apply Hl; by left).
    rewrite IH; [done|]. intros q' Hq'. apply Hl. by right.
Qed.

Lemma set_transitions_id {k} (A : Automaton k) :
  set_transitions (transitions A) A = A.
Proof. by destruct A. Qed.

(** A call of [addTransition] between members of [states] on epsilon or a
    symbol of the alphabet changes the table only. *)
Lemma addTransition_members {k} from a to (B : Automaton k) :
  from ∈ states B → to ∈ states B → (a = eps ∨ a ∈ alphabet B) →
  (addTransition from a to B).2
  = set_transitions
      (<[from := <[a := put_target to
                          (default ∅ (transitions B !! from) !! a)]>
                   (default ∅ (transitions B !! from))]> (transitions B)) B.
Proof.
  intros Hfrom%set_has_true Hto%set_has_true Ha. unfold addTransition.
  rewrite Hfrom, Hto. cbn [negb orb snd]. unfold set_transitions. f_equal.
  destruct (decide (a = eps)) as [|Hne]; [done|].
  destruct Ha as [|Ha]; [done|]. by apply set_add_elem.
Qed.

Lemma add_targets_NFA from a (l2 : list string) :
  ∀ (l1 : list string) (B : Automaton NFA) row,
  NoDup (l1 ++ l2) → from ∈ states B → (∀ x, x ∈ l2 → x ∈ states B) →
  (a = eps ∨ a ∈ alphabet B) →
  transitions B !! from = Some row → row !! a = Some l1 →
  foldl (λ B to, (addTransition from a to B).2) B l2
  = set_transitions (<[from := <[a := l1 ++ l2]> row]> (transitions B)) B.
Proof.
  induction l2 as [|x l2 IH]; intros l1 B row Hnd Hfrom Hl2 Ha Hrow Hl1;
    cbn [foldl].
  - rewrite app_nil_r, (insert_id row), (insert_id (transitions B)) by done.
    by rewrite set_transitions_id.
  - rewrite addTransition_members; [|done|apply Hl2; by left|done].
    rewrite Hrow. cbn [default from_option id]. cbn [target] in *. rewrite Hl1.
    cbn [put_target default from_option id].
    assert (set_add x l1 = l1 ++ [x]) as ->.
    { unfold set_add. rewrite (proj2 (set_has_false _ _)); [done|].
      apply NoDup_app in Hnd as (_ & Hdisj & _). intros Hx.
      apply (Hdisj x Hx). by left. }
    rewrite (IH (l1 ++ [x]) _ (<[a := l1 ++ [x]]> row)).
    + unfold set_transitions. cbn [states alphabet transitions initialState
        finalStates]. f_equal.
      rewrite !insert_insert_eq. by rewrite <- app_assoc.
    + by rewrite <- app_assoc.
    + done.
    + intros y Hy. cbn [set_transitions states]. apply Hl2. by right.
    + done.
    + cbn [set_transitions transitions]. by rewrite lookup_insert_eq.
    + by rewrite lookup_insert_eq.
Qed.

(** [add_entry] for an entry with targets, at a pair that the table does
    not have: the entry is put in the table as it is. *)
Lemma add_entry_spec {k} from a (t : target k) (B : Automaton k) :
  from ∈ states B → (∀ x, x ∈ targets t → x ∈ states B) →
  NoDup (targets t) → targets t ≠ [] → (a = eps ∨ a ∈ alphabet B) →
  default ∅ (transitions B !! from) !! a = None →
  add_entry from a t B
  = set_transitions
      (<[from := <[a := t]> (default ∅ (transitions B !! from))]>
         (transitions B)) B.
Proof.
  intros Hfrom Hto Hnd Hne Ha Hnone. unfold add_entry. destruct k.
  - cbn [targets foldl]. rewrite addTransition_members; [|done| |done].
    + done.
    + apply Hto. by left.
  - cbn [targets] in *. destruct t as [|x l2]; [done|]. cbn [foldl].
    rewrite addTransition_members; [|done|apply Hto; by left|done].
    rewrite Hnone. cbn [put_target default from_option id]. unfold set_add at 1.
    rewrite (proj2 (set_has_false x [])) by apply not_elem_of_nil.
    rewrite (add_targets_NFA from a l2 [x] _
               (<[a := [x]]> (default ∅ (transitions B !! from)))).
    + unfold set_transitions. cbn [states alphabet transitions initialState
        finalStates]. f_equal. by rewrite !insert_insert_eq.
    + done.
    + done.
    + intros y Hy. apply Hto. by right.
    + done.
    + cbn [set_transitions transitions]. by rewrite lookup_insert_eq.
    + by rewrite lookup_insert_eq.
Qed.

Lemma prune_row_insert_targets {k} (row : gmap string (target k)) a t :
  targets t ≠ [] → prune_row (<[a := t]> row) = <[a := t]> (prune_row row).
Proof. intros. unfold prune_row. by rewrite map_filter_insert_True. Qed.

Lemma prune_row_insert_empty {k} (row : gmap string (target k)) a t :
  row !! a = None → targets t = [] → prune_row (<[a := t]> row) = prune_row row.
Proof.
  intros Ha Ht. unfold prune_row.
  rewrite map_filter_insert_False by (cbn [snd]; by intros ?).
  by rewrite delete_id.
Qed.

Lemma prune_table_insert {k} (T : gmap string (gmap string (target k))) q row :
  T !! q = None →
  prune_table (<[q := row]> T)
  = if decide (prune_row row = ∅) then prune_table T
    else <[q := prune_row row]> (prune_table T).
Proof.
  intros Hq. unfold prune_table. rewrite fmap_insert.
  destruct (decide (prune_row row = ∅)) as [Hrow|Hrow].
  - rewrite map_filter_insert_False by (cbn [snd]; by intros ?).
    rewrite delete_id; [done|]. by rewrite lookup_fmap, Hq.
  - by rewrite map_filter_insert_True.
Qed.

Lemma prune_table_lookup_None {k} (T : gmap string (gmap string (target k))) q :
  T !! q = None → prune_table T !! q = None.
Proof.
  intros Hq. unfold prune_table. apply map_lookup_filter_None. left.
  by rewrite lookup_fmap, Hq.
Qed.

(** The rows of a table are added to an automaton that has no row for the
    state yet: what the inner loop of [fromJSON] makes of a row. *)
Lemma add_row_spec {k} from (B0 : Automaton k) (row : gmap string (target k)) :
  from ∈ states B0 → transitions B0 !! from = None →
  (∀ a t, row !! a = Some t →
          (∀ x, x ∈ targets t → x ∈ states B0) ∧ NoDup (targets t)
          ∧ (a = eps ∨ a ∈ alphabet B0)) →
  map_fold (add_entry from) B0 row
  = set_transitions
      (if decide (prune_row row = ∅) then transitions B0
       else <[from := prune_row row]> (transitions B0)) B0.
Proof.
  intros Hfrom Hnone. revert row.
  apply (map_fold_weak_ind (λ B row,
    (∀ a t, row !! a = Some t →
            (∀ x, x ∈ targets t → x ∈ states B0) ∧ NoDup (targets t)
            ∧ (a = eps ∨ a ∈ alphabet B0)) →
    B = set_transitions
          (if decide (prune_row row = ∅) then transitions B0
           else <[from := prune_row row]> (transitions B0)) B0)).
  - intros _. unfold prune_row. rewrite map_filter_empty.
    rewrite decide_True by done. by rewrite set_transitions_id.
  - intros a t row B Ha IH Hvalid.
    rewrite IH; last first.
    { intros a' t' Ha'. apply Hvalid. rewrite lookup_insert_ne; [done|].
      intros <-. congruence. }
    destruct (Hvalid a t) as (Hto & Hnd & Hsym);
      [by rewrite lookup_insert_eq|].
    destruct (decide (targets t = [])) as [Ht|Ht].
    { rewrite (prune_row_insert_empty row a t Ha Ht).
      unfold add_entry. by rewrite Ht. }
    assert (prune_row row !! a = None) as Hpa.
    { unfold prune_row. apply map_lookup_filter_None. by left. }
    set (B1 := set_transitions
                 (if decide (prune_row row = ∅) then transitions B0
                  else <[from:=prune_row row]> (transitions B0)) B0).
    assert (default ∅ (transitions B1 !! from) = prune_row row) as Hrow.
    { unfold B1. cbn [set_transitions transitions].
      destruct (decide (prune_row row = ∅)) as [->|Hne].
      - by rewrite Hnone.
      - by rewrite lookup_insert_eq. }
    rewrite add_entry_spec; [|done..| |done| |]; first last.
    + by rewrite Hrow.
    + done.
    + done.
    + rewrite Hrow, (prune_row_insert_targets row a t Ht).
      rewrite decide_False by apply insert_non_empty.
      unfold B1, set_transitions. cbn [states alphabet transitions
        initialState finalStates]. f_equal.
      destruct (decide (prune_row row = ∅)); [done|].
      by rewrite insert_insert_eq.
Qed.

(** What the loops of [fromJSON] over the table make of the table. *)
Lemma add_table_spec {k} (B0 : Automaton k)
    (T : gmap string (gmap string (target k))) :
  transitions B0 = ∅ →
  (∀ q row a t, T !! q = Some row → row !! a = Some t →
     q ∈ states B0 ∧ (∀ x, x ∈ targets t → x ∈ states B0)
     ∧ NoDup (targets t) ∧ (a = eps ∨ a ∈ alphabet B0)) →
  (∀ q row, T !! q = Some row → q ∈ states B0) →
  add_table T B0 = set_transitions (prune_table T) B0.
Proof.
  intros Hempty. unfold add_table. revert T.
  apply (map_fold_weak_ind (λ B T,
    (∀ q row a t, T !! q = Some row → row !! a = Some t →
       q ∈ states B0 ∧ (∀ x, x ∈ targets t → x ∈ states B0)
       ∧ NoDup (targets t) ∧ (a = eps ∨ a ∈ alphabet B0)) →
    (∀ q row, T !! q = Some row → q ∈ states B0) →
    B = set_transitions (prune_table T) B0)).
  - intros _ _. unfold prune_table. rewrite fmap_empty, map_filter_empty.
    by rewrite <- Hempty, set_transitions_id.
  - intros q row T B Hq IH Hvalid Hsrc.
    rewrite IH; first last.
    { intros q' row' Hq'. apply (Hsrc q' row').
      rewrite lookup_insert_ne; [done|]. intros <-. congruence. }
    { intros q' row' a t Hq'. apply Hvalid. rewrite lookup_insert_ne; [done|].
      intros <-. congruence. }
    rewrite add_row_spec.
    + cbn [set_transitions states alphabet transitions initialState
        finalStates]. unfold set_transitions. f_equal.
      by rewrite (prune_table_insert T q row Hq).
    + apply (Hsrc q row). by rewrite lookup_insert_eq.
    + cbn [set_transitions transitions]. by apply prune_table_lookup_None.
    + intros a t Ha. cbn [set_transitions states alphabet].
      destruct (Hvalid q row a t) as (_ & ? & ? & ?);
        [by rewrite lookup_insert_eq|done|done].
Qed.

Lemma prune_table_id {k} (A : Automaton k) :
  table_pruned A → prune_table (transitions A) = transitions A.
Proof.
  intros [Hrows Hents]. unfold prune_table.
  assert (prune_row <$> transitions A = transitions A) as ->.
  { rewrite <- (map_fmap_id (transitions A)) at 2.
    apply map_fmap_ext. intros q row Hrow. unfold prune_row.
    apply map_filter_id. intros a t Ha. cbn [snd].
    apply (Hents q a). apply entry_Some. eauto. }
  apply map_filter_id. intros q row Hrow. cbn [snd]. eauto.
Qed.

(** C3, the claim at a concrete input.  The automaton [emptied_row] is
    structurally valid and its table has the row of q0, which is empty;
    the table of [fromJSON(toJSON(emptied_row))] has no row. *)
Lemma fromJSON_toJSON_drops_empty_row :
  states emptied_row = ["q0"]
  ∧ alphabet emptied_row = []
  ∧ initialState emptied_row = None
  ∧ finalStates emptied_row = []
  ∧ transitions emptied_row = {[ "q0" := ∅ ]}
  ∧ transitions (fromJSON (toJSON emptied_row)) = ∅
  ∧ fromJSON (toJSON emptied_row) ≠ emptied_row.
Proof.
  assert (transitions emptied_row = {[ "q0" := ∅ ]}) as Ht by by vm_compute.
  assert (transitions (fromJSON (toJSON emptied_row)) = ∅) as Ht'
    by by vm_compute.
  split; [by vm_compute|]. split; [by vm_compute|].
  split; [by vm_compute|]. split; [by vm_compute|].
  split; [done|]. split; [done|].
  intros Heq. rewrite Heq, Ht in Ht'.
  exact (map_non_empty_singleton _ _ Ht').
Qed.

(** C3, amended.  For a structurally valid automaton [A],
    [fromJSON(toJSON(A))] has the kind, the states, the alphabet, the
    initial state and the final states of [A], and the table of [A] without
    its empty rows and its entries for no target; it is [A] when the table
    of [A] has neither. *)
Theorem fromJSON_toJSON (k : kind) (A : Automaton k) :
  structurally_valid A →
  fromJSON (toJSON A) = set_transitions (prune_table (transitions A)) A
  ∧ (∀ q a t, entry A q a = Some t → targets t ≠ [] →
              entry (fromJSON (toJSON A)) q a = Some t)
  ∧ (table_pruned A → fromJSON (toJSON A) = A).
Proof.
  intros ([Hinit Hfinal Hsrc Htgt] & Hsym & [Hst Hal Hfin Hts]).
  assert (fromJSON (toJSON A)
          = set_transitions (prune_table (transitions A)) A) as Heq.
  { unfold fromJSON, toJSON. cbn [json_states json_alphabet
      json_initialState json_finalStates json_transitions].
    rewrite foldl_addState. cbn [new_Automaton states alphabet transitions
      initialState finalStates setAlphabet].
    fold (new_Set (states A)). rewrite !new_Set_NoDup by done.
    rewrite foldl_toggleFinalState by done.
    cbn [states alphabet transitions initialState finalStates].
    fold (new_Set (finalStates A)). rewrite new_Set_NoDup by done.
    rewrite add_table_spec; [by destruct A|done| |done].
    intros q row a t Hq Ha. cbn [states alphabet].
    assert (entry A q a = Some t) as Hent by (apply entry_Some; eauto).
    split; [eauto|]. split; [eauto|]. split; [eauto|].
    destruct (decide (a = eps)); [by left|right; eauto]. }
  split; [done|]. split.
  - intros q a t Hent Ht. rewrite Heq. apply entry_Some in Hent
      as (row & Hrow & Ha). apply entry_Some. exists (prune_row row).
    cbn [set_transitions transitions]. split.
    + unfold prune_table. apply map_lookup_filter_Some. split.
      * by rewrite lookup_fmap, Hrow.
      * cbn [snd]. intros Hn. apply (f_equal (λ m, m !! a)) in Hn.
        rewrite lookup_empty in Hn. unfold prune_row in Hn.
        apply map_lookup_filter_None in Hn as [Hn|Hn]; [congruence|].
        by apply (Hn t).
    + unfold prune_row. by apply map_lookup_filter_Some.
  - intros Hp. rewrite Heq, prune_table_id by done. apply set_transitions_id.
Qed.

Lemma symbols_in_alphabet_Forall {k} (A : Automaton k) :
  map_Forall (λ _ row,
    map_Forall (λ a (_ : target k), a ≠ eps → a ∈ alphabet A) row)
    (transitions A) →
  symbols_in_alphabet A.
Proof.
  intros Hall q a t (row & Hrow & Ha)%entry_Some.
  exact (Hall q row Hrow a t Ha).
Qed.

Lemma sample_structurally_valid : structurally_valid sample.
Proof.
  split; [|split].
  - apply foldl_apply_op_valid, new_Automaton_valid.
  - apply symbols_in_alphabet_Forall. apply (bool_decide_unpack _). by vm_compute.
  - split.
    + apply (bool_decide_unpack _). by vm_compute.
    + apply (bool_decide_unpack _). by vm_compute.
    + apply (bool_decide_unpack _). by vm_compute.
    + intros q a t _. apply NoDup_singleton.
Defined.

Lemma sample_table_pruned : table_pruned sample.
Proof.
  split.
  - assert (map_Forall (λ _ (row : gmap string string), row ≠ ∅)
              (transitions sample)) as Hall.
    { apply (bool_decide_unpack _). by vm_compute. }
    exact Hall.
  - intros q a t _. done.
Defined.

(** The sample DFA is structurally valid and its table has no empty row:
    [fromJSON(toJSON(sample))] is the sample. *)
Lemma fromJSON_toJSON_sample :
  structurally_valid sample
  ∧ table_pruned sample
  ∧ fromJSON (toJSON sample) = sample.
Proof.
  split; [apply sample_structurally_valid|].
  split; [apply sample_table_pruned|].
  apply (fromJSON_toJSON DFA sample sample_structurally_valid),
    sample_table_pruned.
Defined.

(** * Further properties of the engine *)

(** ** Simulation of a DFA *)

Lemma _simulateDFA_loop_accepted (A : Automaton DFA) input :
  ∀ q path,
  SimulationResult.accepted (_simulateDFA_loop A q path input) = true →
  ∃ qs, dfa_walk A q input qs ∧ last_of q qs ∈ finalStates A.
Proof.
  induction input as [|a input IH]; intros q path; cbn [_simulateDFA_loop].
  - cbn [SimulationResult.accepted]. intros Hf%set_has_true.
    exists []. split; [constructor|done].
  - destruct (set_has a (alphabet A)) eqn:Ha; cbn [negb]; [|done].
    destruct (entry A q a) as [q'|] eqn:Hent; [|done].
    destruct (truthy_str q') eqn:Hq'; [|done].
    intros (qs & Hwalk & Hlast)%IH. exists (q' :: qs). split; [|done].
    constructor; [by apply set_has_true|done| |done].
    intros ->. done.
Qed.

(** [simulate] accepts an input on a DFA exactly when the DFA has an
    initial state with a non-empty name and the transitions lead from it,
    symbol by symbol of the alphabet, to a final state. *)
Theorem simulate_DFA_accepts_iff_walk (A : Automaton DFA)
    (input : list string) :
  SimulationResult.accepted (simulate A input) = true
  ↔ ∃ q0 qs, initialState A = Some q0 ∧ q0 ≠ ""
             ∧ dfa_walk A q0 input qs ∧ last_of q0 qs ∈ finalStates A.
Proof.
  cbn [simulate]. unfold _simulateDFA. split.
  - destruct (initialState A) as [q0|]; [|done].
    destruct (truthy_str q0) eqn:Hq0; [|done].
    intros Hacc.
    apply _simulateDFA_loop_accepted in Hacc as (qs & Hwalk & Hlast).
    exists q0, qs. split; [done|]. split; [by intros ->|done].
  - intros (q0 & qs & -> & Hq0 & Hwalk & Hlast).
    rewrite truthy_str_true by done.
    pose proof (_simulateDFA_loop_walk _ _ _ _ Hwalk [AtState q0 input] [])
      as Hloop.
    rewrite !app_nil_r in Hloop. rewrite Hloop. cbn [_simulateDFA_loop].
    by apply set_has_true.
Qed.

(** ** [simulateStep] and [simulate] *)

Lemma simulateStep_DFA_loop_simulate (A : Automaton DFA) remaining processed :
  Forall (λ a, a ∈ alphabet A) processed →
  ∀ q path,
  let s := simulateStep_DFA_loop A q remaining processed in
  let r := _simulateDFA_loop A q path processed in
  SimulationState.accepted s = SimulationResult.accepted r
  ∧ SimulationState.error s = SimulationResult.error r
  ∧ SimulationState.remainingInput s = remaining
  ∧ SimulationState.complete s
    = bool_decide (remaining = [])
      || bool_decide (is_Some (SimulationResult.error r)).
Proof.
  induction 1 as [|a processed Ha _ IH]; intros q path;
    cbn [simulateStep_DFA_loop _simulateDFA_loop].
  - cbn. by rewrite orb_false_r.
  - apply set_has_true in Ha. rewrite Ha. cbn [negb].
    destruct (entry A q a) as [q'|]; [destruct (truthy_str q')|].
    + apply IH.
    + cbn. by rewrite orb_true_r.
    + cbn. by rewrite orb_true_r.
Qed.

Lemma simulateStep_NFA_loop_simulate (A : Automaton NFA) remaining processed :
  Forall (λ a, a ∈ alphabet A) processed →
  ∀ S path,
  let s := simulateStep_NFA_loop A S remaining processed in
  let r := _simulateNFA_loop A S path processed in
  SimulationState.accepted s = SimulationResult.accepted r
  ∧ SimulationState.error s = SimulationResult.error r
  ∧ SimulationState.remainingInput s = remaining
  ∧ SimulationState.complete s
    = bool_decide (remaining = [])
      || bool_decide (is_Some (SimulationResult.error r)).
Proof.
  induction 1 as [|a processed Ha _ IH]; intros S path;
    cbn [simulateStep_NFA_loop _simulateNFA_loop].
  - cbn. by rewrite orb_false_r.
  - apply set_has_true in Ha. rewrite Ha. cbn [negb]. cbn zeta.
    destruct (decide (_epsilonClosure A (move A S a) = [])).
    + cbn. by rewrite orb_true_r.
    + apply IH.
Qed.

(** [simulateStep(input, step)] reports what [simulate] finds on the first
    [step] symbols of the input, when these symbols are in the alphabet and
    the initial state has a non-empty name: the same [accepted], the same
    error; [remainingInput] is the rest of the input, and [complete] is set
    exactly when nothing is left of the input or there is an error. *)
Theorem simulateStep_is_simulate_of_prefix (k : kind) (A : Automaton k)
    (q0 : string) (input : list string) (step : nat) :
  initialState A = Some q0 → q0 ≠ "" →
  Forall (λ a, a ∈ alphabet A) (take step input) →
  ∃ s, simulateStep A input step = Some s
       ∧ SimulationState.accepted s
         = SimulationResult.accepted (simulate A (take step input))
       ∧ SimulationState.error s
         = SimulationResult.error (simulate A (take step input))
       ∧ SimulationState.remainingInput s = drop step input
       ∧ SimulationState.complete s
         = bool_decide (drop step input = [])
           || bool_decide (is_Some (SimulationState.error s)).
Proof.
  intros Hinit Hq0 Hal. unfold simulateStep. rewrite Hinit. cbn [mbind option_bind].
  eexists. split; [done|]. destruct k; cbn [simulate].
  - unfold _simulateDFA. rewrite Hinit, truthy_str_true by done.
    destruct (decide (step = 0)) as [->|Hstep].
    + cbn. by rewrite orb_false_r.
    + pose proof (simulateStep_DFA_loop_simulate A (drop step input) _ Hal q0
                    [AtState q0 (take step input)]) as (Ha & He & Hr & Hc).
      rewrite He. done.
  - unfold _simulateNFA. rewrite Hinit, truthy_str_true by done. cbn zeta.
    destruct (decide (step = 0)) as [->|Hstep].
    + cbn. by rewrite orb_false_r.
    + pose proof (simulateStep_NFA_loop_simulate A (drop step input) _ Hal
                    (_epsilonClosure A [q0])
                    [AtStates (_epsilonClosure A [q0]) (take step input)])
        as (Ha & He & Hr & Hc).
      rewrite He. done.
Qed.

(** The sample DFA on the input [a b], at the step 2. *)
Lemma simulateStep_is_simulate_of_prefix_sample :
  ∃ s, simulateStep sample ["a"; "b"] 2 = Some s
       ∧ SimulationState.accepted s
         = SimulationResult.accepted (simulate sample ["a"; "b"])
       ∧ SimulationState.error s
         = SimulationResult.error (simulate sample ["a"; "b"])
       ∧ SimulationState.remainingInput s = []
       ∧ SimulationState.complete s
         = true || bool_decide (is_Some (SimulationState.error s)).
Proof.
  apply (simulateStep_is_simulate_of_prefix DFA sample "q0" ["a"; "b"] 2).
  - reflexivity.
  - discriminate.
  - apply (bool_decide_unpack _). by vm_compute.
Defined.

(** ** [validate] *)

Lemma bind_nil_iff {X Y} (f : X → list Y) (l : list X) :
  l ≫= f = [] ↔ ∀ x, x ∈ l → f x = [].
Proof.
  induction l as [|x l IH]; csimpl.
  - split; [by intros _ x ?%elem_of_nil|done].
  - rewrite app_nil, IH. split.
    + intros [Hx Hl] y [->|Hy]%elem_of_cons; eauto.
    + intros H. split; [apply H; by left|]. intros y Hy. apply H. by right.
Qed.

(** What [validate] has checked when it answers [valid]. *)
Lemma validate_valid_checked {k} (A : Automaton k) :
  ValidationResult.valid (validate A) = true →
  truthy (initialState A) = true ∧ finalStates A ≠ []
  ∧ (k = DFA → ∀ q a, q ∈ states A → a ∈ alphabet A →
               truthy_target (entry A q a) = true).
Proof.
  unfold validate. cbn [ValidationResult.valid].
  rewrite bool_decide_eq_true, !app_nil.
  destruct (truthy (initialState A)); [|by intros [? _]].
  destruct (decide (finalStates A = [])) as [Hf|Hf]; [by intros (_ & ? & _)|].
  intros (_ & _ & H). split; [done|]. split; [done|].
  destruct k; [|done]. intros _ q a Hq Ha.
  rewrite bind_nil_iff in H. specialize (H q Hq).
  rewrite bind_nil_iff in H. specialize (H a Ha).
  by destruct (truthy_target (entry A q a)).
Qed.

(** [validate] answers [valid] exactly when the initial state is set (to a
    non-empty name) and there is a final state and, for an automaton of
    kind DFA, every state has a transition for every symbol of the
    alphabet.  It looks at nothing else: not at the membership of the
    initial state, the final states or the targets in [states]. *)
Theorem validate_valid_iff (k : kind) (A : Automaton k) :
  ValidationResult.valid (validate A) = true
  ↔ truthy (initialState A) = true ∧ finalStates A ≠ []
    ∧ (k = DFA → ∀ q a, q ∈ states A → a ∈ alphabet A →
                 truthy_target (entry A q a) = true).
Proof.
  split; [apply validate_valid_checked|].
  intros (Hinit & Hfinal & Htotal). unfold validate.
  cbn [ValidationResult.valid]. rewrite bool_decide_eq_true, !app_nil.
  rewrite Hinit. rewrite decide_False by done.
  split; [done|]. split; [done|]. destruct k; [|done].
  apply bind_nil_iff. intros q Hq. apply bind_nil_iff. intros a Ha.
  by rewrite (Htotal eq_refl q a Hq Ha).
Qed.

Lemma _simulateDFA_loop_total (A : Automaton DFA) input :
  references_valid A →
  (∀ q a, q ∈ states A → a ∈ alphabet A →
          truthy_target (entry A q a) = true) →
  Forall (λ a, a ∈ alphabet A) input →
  ∀ q path, q ∈ states A →
  SimulationResult.error (_simulateDFA_loop A q path input) = None
  ∧ length (SimulationResult.path (_simulateDFA_loop A q path input))
    = length path + length input.
Proof.
  intros Hvalid Htotal. induction 1 as [|a input Ha _ IH]; intros q path Hq;
    cbn [_simulateDFA_loop].
  - cbn. split; [done|lia].
  - pose proof (Htotal q a Hq Ha) as Ht. apply set_has_true in Ha.
    rewrite Ha. cbn [negb]. cbn [truthy_target] in Ht.
    destruct (entry A q a) as [q'|] eqn:Hent; [|done].
    cbn [truthy] in Ht. rewrite Ht.
    destruct (IH q' (path ++ [AtState q' input])) as [He Hl].
    { eapply (valid_target A Hvalid q a q' q'); [done|].
      cbn. by apply list_elem_of_singleton. }
    split; [done|]. rewrite Hl, length_app. cbn. lia.
Qed.

(** A DFA that [validate] finds valid and whose references are to members
    of [states] reads every input over its alphabet to the end: [simulate]
    reports no error, and [path] has one entry for the initial state and
    one for each symbol. *)
Theorem valid_DFA_simulate_reads_all (A : Automaton DFA)
    (input : list string) :
  ValidationResult.valid (validate A) = true → references_valid A →
  Forall (λ a, a ∈ alphabet A) input →
  SimulationResult.error (simulate A input) = None
  ∧ length (SimulationResult.path (simulate A input)) = S (length input).
Proof.
  intros (Hinit & _ & Htotal)%validate_valid_checked Hvalid Hinput.
  cbn [simulate]. unfold _simulateDFA.
  destruct (initialState A) as [q0|] eqn:Hq0; [|done]. cbn [truthy] in Hinit.
  rewrite Hinit.
  apply (_simulateDFA_loop_total A input Hvalid (Htotal eq_refl) Hinput).
  by apply (valid_initial A Hvalid).
Qed.

(** The DFA [loop_a] on the input [a a]. *)
Lemma valid_DFA_simulate_reads_all_loop_a :
  SimulationResult.error (simulate loop_a ["a"; "a"]) = None
  ∧ length (SimulationResult.path (simulate loop_a ["a"; "a"])) = 3.
Proof.
  apply (valid_DFA_simulate_reads_all loop_a ["a"; "a"]).
  - by vm_compute.
  - apply foldl_apply_op_valid, new_Automaton_valid.
  - apply (bool_decide_unpack _). by vm_compute.
Defined.

(** ** [removeState] *)

Lemma drop_target_elem {k} q (t : target k) x :
  x ∈ targets t → x ≠ q →
  ∃ t', drop_target q t = Some t' ∧ x ∈ targets t'.
Proof.
  destruct k; cbn [drop_target targets].
  - intros ->%list_elem_of_singleton Hne. rewrite decide_False by done.
    eexists. split; [done|]. by apply list_elem_of_singleton.
  - intros Hx Hne.
    assert (x ∈ set_delete q t) as Hx' by by apply elem_of_set_delete.
    destruct (decide (set_delete q t = [])) as [He|He].
    + rewrite He in Hx'. by apply elem_of_nil in Hx'.
    + eauto.
Qed.

(** [removeState(q)] takes away what names [q] and nothing else, where the
    rows of the table are own properties (no source of a transition has the
    name of an inherited property): the other states, the alphabet, the
    initial state when it is another state, the other final states, and
    every transition between other states stay.  The alphabet keeps the
    symbols of the transitions that went. *)
Theorem removeState_keeps_the_rest (k : kind) (q : string) (A : Automaton k) :
  own_rows A →
  (∀ x, x ∈ states (removeState q A) ↔ x ∈ states A ∧ x ≠ q)
  ∧ alphabet (removeState q A) = alphabet A
  ∧ (initialState A ≠ Some q →
     initialState (removeState q A) = initialState A)
  ∧ (∀ x, x ∈ finalStates (removeState q A) ↔ x ∈ finalStates A ∧ x ≠ q)
  ∧ (∀ q' a x, transition (removeState q A) q' a x
               ↔ transition A q' a x ∧ q' ≠ q ∧ x ≠ q).
Proof.
  intros _. split; [|split; [|split; [|split]]].
  - intros x. cbn. rewrite elem_of_set_delete. tauto.
  - done.
  - intros Hne. cbn. by rewrite decide_False.
  - intros x. cbn. rewrite elem_of_set_delete. tauto.
  - intros q' a x. unfold transition. split.
    + intros (t' & (Hq' & t & Hent & Hd)%removeState_entry & Hx).
      apply drop_target_Some in Hd as [Hd _]. destruct (Hd x Hx).
      split; [eauto|done].
    + intros ((t & Hent & Hx) & Hq' & Hxq).
      destruct (drop_target_elem q t x Hx Hxq) as (t' & Hd & Hx').
      exists t'. split; [|done].
      apply entry_Some in Hent as (row & Hrow & Ha). apply entry_Some.
      exists (drop_row q row). split.
      * cbn. by rewrite lookup_fmap, lookup_delete_ne, Hrow.
      * unfold drop_row. by rewrite lookup_omap, Ha.
Qed.

(** The sample DFA without q1: the transitions that are left are the
    transitions of the sample that do not name q1. *)
Lemma removeState_keeps_the_rest_sample :
  own_rows sample
  ∧ ∀ q' a x, transition (removeState "q1" sample) q' a x
              ↔ transition sample q' a x ∧ q' ≠ "q1" ∧ x ≠ "q1".
Proof.
  assert (own_rows sample) as Hrows
    by (apply (bool_decide_unpack _); by vm_compute).
  split; [done|].
  by destruct (removeState_keeps_the_rest DFA "q1" sample Hrows)
    as (_ & _ & _ & _ & Htr).
Defined.

(** ** [addTransition] and [removeTransition] *)

Lemma set_delete_set_add x l : set_delete x (set_add x l) = set_delete x l.
Proof.
  unfold set_add. destruct (set_has x l); [done|].
  unfold set_delete. rewrite filter_app, filter_cons, filter_nil.
  rewrite decide_False by (intros H; by apply H). by rewrite app_nil_r.
Qed.

Lemma symbolInUse_entries {k} a (T T' : gmap string (gmap string (target k))) :
  (∀ q, T !! q ≫= (λ row, row !! a) = T' !! q ≫= (λ row, row !! a)) →
  symbolInUse a T = symbolInUse a T'.
Proof.
  intros H.
  pose proof (symbolInUse_true a (mkAutomaton [] [] T None [])) as H1.
  pose proof (symbolInUse_true a (mkAutomaton [] [] T' None [])) as H2.
  cbn [transitions] in H1, H2. unfold entry in H1, H2.
  cbn [transitions] in H1, H2.
  destruct (symbolInUse a T) eqn:E1, (symbolInUse a T') eqn:E2; try done.
  - destruct (proj1 H1 eq_refl) as [q Hq]. rewrite H in Hq.
    pose proof (proj2 H2 (ex_intro _ q Hq)). done.
  - destruct (proj1 H2 eq_refl) as [q Hq]. rewrite <- H in Hq.
    pose proof (proj2 H1 (ex_intro _ q Hq)). done.
Qed.



(** ** [fromJSON] on any JSON object *)

Lemma set_add_idemp x l : set_add x (set_add x l) = set_add x l.
Proof. apply set_add_elem, elem_of_set_add. by left. Qed.

Lemma foldl_set_add_nil (l acc : list string) :
  foldl (λ acc x, set_add x acc) acc l = [] → acc = [] ∧ l = [].
Proof.
  revert acc. induction l as [|x l IH]; intros acc; cbn [foldl]; [done|].
  intros [Hacc _]%IH. exfalso.
  assert (x ∈ set_add x acc) as Hx by (apply elem_of_set_add; by left).
  rewrite Hacc in Hx. by apply elem_of_nil in Hx.
Qed.

Lemma keep_members_Some {k} S (t t' : target k) x :
  keep_members S t = Some t' → (x ∈ targets t' ↔ x ∈ targets t ∧ x ∈ S).
Proof.
  destruct k; cbn [keep_members targets].
  - case_decide; [|done]. intros [= <-]. rewrite list_elem_of_singleton.
    split; [by intros ->|tauto].
  - cbn zeta. case_decide; [done|]. intros [= <-].
    rewrite elem_of_new_Set, list_elem_of_filter. tauto.
Qed.

Lemma keep_members_is_Some {k} S (t : target k) x :
  x ∈ targets t → x ∈ S → is_Some (keep_members S t).
Proof.
  destruct k; cbn [keep_members targets].
  - intros ->%list_elem_of_singleton Hx. by rewrite decide_True.
  - intros Hx HS. cbn zeta. case_decide as Hnil; [|done]. exfalso.
    assert (x ∈ new_Set (filter (λ x, x ∈ S) t)) as Hin
      by by rewrite elem_of_new_Set, list_elem_of_filter.
    rewrite Hnil in Hin. by apply elem_of_nil in Hin.
Qed.

Lemma keep_members_nonempty {k} S (t t' : target k) :
  keep_members S t = Some t' → ∃ x, x ∈ targets t'.
Proof.
  destruct k; cbn [keep_members targets].
  - intros _. exists t'. by apply list_elem_of_singleton.
  - cbn zeta. case_decide as Hnil; [done|]. intros [= <-].
    destruct (new_Set _) as [|x ?]; [done|]. exists x. by left.
Qed.

(** The calls of [addTransition] for the targets [l] of an entry of an
    NFA, from a state of the automaton. *)
Lemma add_targets_entry from a (l : list string) :
  ∀ B : Automaton NFA, from ∈ states B →
  states (foldl (λ B to, (addTransition from a to B).2) B l) = states B
  ∧ initialState (foldl (λ B to, (addTransition from a to B).2) B l)
    = initialState B
  ∧ finalStates (foldl (λ B to, (addTransition from a to B).2) B l)
    = finalStates B
  ∧ (∀ q b, ¬ (q = from ∧ b = a) →
       entry (foldl (λ B to, (addTransition from a to B).2) B l) q b
       = entry B q b)
  ∧ entry (foldl (λ B to, (addTransition from a to B).2) B l) from a
    = (if decide (filter (λ x, x ∈ states B) l = []) then entry B from a
       else Some (foldl (λ acc x, set_add x acc) (default [] (entry B from a))
                    (filter (λ x, x ∈ states B) l)))
  ∧ alphabet (foldl (λ B to, (addTransition from a to B).2) B l)
    = (if decide (a = eps ∨ filter (λ x, x ∈ states B) l = [])
       then alphabet B else set_add a (alphabet B)).
Proof.
  induction l as [|x l IH]; intros B Hfrom; cbn [foldl].
  - rewrite filter_nil. rewrite !decide_True by auto. done.
  - rewrite filter_cons. destruct (decide (x ∈ states B)) as [Hx|Hx].
    + assert ((addTransition from a x B).1 = true) as Hok
        by by apply addTransition_true.
      pose proof (addTransition_frame from a x B) as (Hs & Hi & Hf).
      pose proof (addTransition_entry from a x B) as He.
      pose proof (addTransition_alphabet from a x B Hok) as Ha.
      destruct (IH (addTransition from a x B).2) as (IHs & IHi & IHf & IHo & IHe & IHa).
      { by rewrite Hs. }
      rewrite Hs in IHs, IHe, IHa.
      split; [congruence|]. split; [congruence|]. split; [congruence|].
      split; [|split].
      * intros q b Hqb. rewrite IHo, He by done. by rewrite decide_False.
      * rewrite IHe, He by done.
        rewrite (decide_True (P := from = from ∧ a = a)) by done.
        rewrite (decide_False (P := _ :: _ = [])) by done.
        cbn [foldl put_target default from_option id].
        by destruct (decide (filter (λ x0, x0 ∈ states B) l = [])) as [->|].
      * rewrite IHa, Ha.
        destruct (decide (a = eps)) as [->|Hne].
        -- by rewrite !decide_True by auto.
        -- rewrite (decide_False (P := a = eps ∨ _ :: _ = []))
             by (intros [?|?]; done).
           destruct (decide (a = eps ∨ _)); [done|apply set_add_idemp].
    + assert ((addTransition from a x B).2 = B) as ->.
      { apply addTransition_false.
        destruct (addTransition from a x B).1 eqn:E; [|done].
        apply addTransition_true in E. tauto. }
      by apply IH.
Qed.

(** The calls of [addTransition] for an entry at a pair that the table
    does not have. *)
Lemma add_entry_fresh {k} from a (t : target k) (B : Automaton k) :
  entry B from a = None →
  states (add_entry from a t B) = states B
  ∧ initialState (add_entry from a t B) = initialState B
  ∧ finalStates (add_entry from a t B) = finalStates B
  ∧ (∀ q b, ¬ (q = from ∧ b = a) →
            entry (add_entry from a t B) q b = entry B q b)
  ∧ entry (add_entry from a t B) from a
    = (if decide (from ∈ states B) then keep_members (states B) t else None)
  ∧ alphabet (add_entry from a t B)
    = (if decide (a ≠ eps ∧ from ∈ states B
                  ∧ is_Some (keep_members (states B) t))
       then set_add a (alphabet B) else alphabet B).
Proof.
  intros Hnone. unfold add_entry.
  destruct (decide (from ∈ states B)) as [Hfrom|Hfrom]; last first.
  { assert (∀ l, foldl (λ B to, (addTransition from a to B).2) B l = B)
      as Hid.
    { induction l as [|x l IH]; cbn [foldl]; [done|].
      rewrite addTransition_false; [done|].
      destruct (addTransition from a x B).1 eqn:E; [|done].
      apply addTransition_true in E. tauto. }
    rewrite Hid. rewrite decide_False by tauto. done. }
  destruct k.
  - cbn [targets foldl keep_members].
    pose proof (addTransition_frame from a t B) as (Hs & Hi & Hf).
    destruct (decide (t ∈ states B)) as [Ht|Ht].
    + assert ((addTransition from a t B).1 = true) as Hok
        by by apply addTransition_true.
      pose proof (addTransition_entry from a t B) as He.
      rewrite (addTransition_alphabet from a t B Hok).
      split; [done|]. split; [done|]. split; [done|]. split; [|split].
      * intros q b Hqb. rewrite He by done. by rewrite decide_False.
      * rewrite He by done. by rewrite decide_True.
      * destruct (decide (a = eps)) as [->|Hne].
        -- rewrite decide_False; [done|]. intros [? _]. done.
        -- by rewrite decide_True.
    + assert ((addTransition from a t B).2 = B) as ->.
      { apply addTransition_false.
        destruct (addTransition from a t B).1 eqn:E; [|done].
        apply addTransition_true in E. tauto. }
      rewrite decide_False; [done|]. intros (_ & _ & [? ?]). done.
  - cbn [targets keep_members]. cbn [target] in *.
    destruct (add_targets_entry from a t B Hfrom)
      as (Hs & Hi & Hf & Ho & He & Ha).
    split; [done|]. split; [done|]. split; [done|]. split; [done|].
    rewrite He, Ha, Hnone. cbn [default from_option id].
    fold (new_Set (filter (λ x, x ∈ states B) t)). cbn zeta. split.
    + destruct (decide (filter (λ x, x ∈ states B) t = [])) as [->|Hne].
      * by rewrite decide_True.
      * rewrite decide_False; [done|].
        intros [_ ?]%foldl_set_add_nil. done.
    + destruct (decide (filter (λ x, x ∈ states B) t = [])) as [Hnil|Hne].
      * rewrite Hnil. rewrite decide_True by auto.
        rewrite decide_False; [done|]. intros (_ & _ & [? H]).
        by rewrite decide_True in H.
      * destruct (decide (a = eps)) as [->|Ha'].
        -- rewrite decide_True by auto. rewrite decide_False; [done|].
           intros [? _]. done.
        -- rewrite decide_False by (intros [?|?]; done).
           rewrite decide_True; [done|]. split; [done|]. split; [done|].
           rewrite decide_False; [done|].
           intros [_ ?]%foldl_set_add_nil. done.
Qed.

(** The inner loop over a row of the table, for a source that has no
    entry yet. *)
Lemma add_row_fresh {k} from (B0 : Automaton k) (row : gmap string (target k)) :
  (∀ b, entry B0 from b = None) →
  states (map_fold (add_entry from) B0 row) = states B0
  ∧ initialState (map_fold (add_entry from) B0 row) = initialState B0
  ∧ finalStates (map_fold (add_entry from) B0 row) = finalStates B0
  ∧ (∀ q b, q ≠ from →
            entry (map_fold (add_entry from) B0 row) q b = entry B0 q b)
  ∧ (∀ b, entry (map_fold (add_entry from) B0 row) from b
          = if decide (from ∈ states B0)
            then row !! b ≫= keep_members (states B0) else None)
  ∧ (∀ a, a ∈ alphabet (map_fold (add_entry from) B0 row)
          ↔ a ∈ alphabet B0
            ∨ (a ≠ eps ∧ from ∈ states B0
               ∧ ∃ t, row !! a = Some t
                      ∧ is_Some (keep_members (states B0) t))).
Proof.
  intros Hnone. revert row.
  apply (map_fold_weak_ind (λ B row,
    states B = states B0
    ∧ initialState B = initialState B0
    ∧ finalStates B = finalStates B0
    ∧ (∀ q b, q ≠ from → entry B q b = entry B0 q b)
    ∧ (∀ b, entry B from b
            = if decide (from ∈ states B0)
              then row !! b ≫= keep_members (states B0) else None)
    ∧ (∀ a, a ∈ alphabet B
            ↔ a ∈ alphabet B0
              ∨ (a ≠ eps ∧ from ∈ states B0
                 ∧ ∃ t, row !! a = Some t
                        ∧ is_Some (keep_members (states B0) t))))).
  - split; [done|]. split; [done|]. split; [done|]. split; [done|]. split.
    + intros b. rewrite Hnone, lookup_empty. by destruct (decide _).
    + intros a. split; [auto|]. intros [?|(_ & _ & t & Ht & _)]; [done|].
      by rewrite lookup_empty in Ht.
  - intros a t row B Ha (Hs & Hi & Hf & Ho & He & Hal).
    assert (entry B from a = None) as Hfresh.
    { rewrite He, Ha. by destruct (decide _). }
    destruct (add_entry_fresh from a t B Hfresh)
      as (Hs' & Hi' & Hf' & Ho' & He' & Hal').
    rewrite Hs in He', Hal'.
    split; [congruence|]. split; [congruence|]. split; [congruence|].
    split; [|split].
    + intros q b Hq. rewrite Ho' by tauto. by apply Ho.
    + intros b. destruct (decide (b = a)) as [->|Hb].
      * rewrite He', lookup_insert_eq. done.
      * rewrite Ho' by tauto. rewrite He, lookup_insert_ne by done. done.
    + intros a'. rewrite Hal'.
      destruct (decide (a ≠ eps ∧ from ∈ states B0
                        ∧ is_Some (keep_members (states B0) t)))
        as [(Hne & Hfrom & Hk)|Hn].
      * rewrite elem_of_set_add, Hal. split.
        -- intros [->|[?|(? & ? & t' & Ht' & ?)]]; [|by left|].
           ++ right. split; [done|]. split; [done|]. exists t.
              by rewrite lookup_insert_eq.
           ++ right. split; [done|]. split; [done|]. exists t'.
              rewrite lookup_insert_ne; [done|]. intros <-. congruence.
        -- intros [?|(? & ? & t' & Ht' & ?)]; [right; by left|].
           destruct (decide (a' = a)) as [->|Hd]; [by left|].
           right. right. rewrite lookup_insert_ne in Ht' by done. eauto.
      * rewrite Hal. split.
        -- intros [?|(? & ? & t' & Ht' & ?)]; [by left|].
           right. split; [done|]. split; [done|]. exists t'.
           rewrite lookup_insert_ne; [done|]. intros <-. congruence.
        -- intros [?|(? & ? & t' & Ht' & ?)]; [by left|].
           destruct (decide (a' = a)) as [->|Hd].
           ++ rewrite lookup_insert_eq in Ht'. injection Ht' as <-. tauto.
           ++ right. rewrite lookup_insert_ne in Ht' by done. eauto.
Qed.

(** The loops of [fromJSON] and [clone] over a table, on an automaton with
    an empty table. *)
Lemma add_table_fresh {k} (B0 : Automaton k)
    (T : gmap string (gmap string (target k))) :
  transitions B0 = ∅ →
  states (add_table T B0) = states B0
  ∧ initialState (add_table T B0) = initialState B0
  ∧ finalStates (add_table T B0) = finalStates B0
  ∧ (∀ q b, entry (add_table T B0) q b
            = if decide (q ∈ states B0)
              then (T !! q ≫= λ row, row !! b) ≫= keep_members (states B0)
              else None)
  ∧ (∀ a, a ∈ alphabet (add_table T B0)
          ↔ a ∈ alphabet B0
            ∨ (a ≠ eps
               ∧ ∃ q row t, q ∈ states B0 ∧ T !! q = Some row
                            ∧ row !! a = Some t
                            ∧ is_Some (keep_members (states B0) t))).
Proof.
  intros Hempty. unfold add_table. revert T.
  apply (map_fold_weak_ind (λ B T,
    states B = states B0
    ∧ initialState B = initialState B0
    ∧ finalStates B = finalStates B0
    ∧ (∀ q b, entry B q b
              = if decide (q ∈ states B0)
                then (T !! q ≫= λ row, row !! b) ≫= keep_members (states B0)
                else None)
    ∧ (∀ a, a ∈ alphabet B
            ↔ a ∈ alphabet B0
              ∨ (a ≠ eps
                 ∧ ∃ q row t, q ∈ states B0 ∧ T !! q = Some row
                              ∧ row !! a = Some t
                              ∧ is_Some (keep_members (states B0) t))))).
  - split; [done|]. split; [done|]. split; [done|]. split.
    + intros q b. unfold entry. rewrite Hempty, !lookup_empty.
      by destruct (decide _).
    + intros a. split; [auto|]. intros [?|(_ & q & row & t & _ & Hq & _)];
        [done|]. by rewrite lookup_empty in Hq.
  - intros q row T B Hq (Hs & Hi & Hf & He & Hal).
    assert (∀ b, entry B q b = None) as Hfresh.
    { intros b. rewrite He, Hq. by destruct (decide _). }
    destruct (add_row_fresh q B row Hfresh)
      as (Hs' & Hi' & Hf' & Ho' & He' & Hal').
    rewrite Hs in He', Hal'.
    split; [congruence|]. split; [congruence|]. split; [congruence|].
    split.
    + intros q' b. destruct (decide (q' = q)) as [->|Hq'].
      * rewrite He', lookup_insert_eq. done.
      * rewrite Ho', He, lookup_insert_ne by done. done.
    + intros a. rewrite Hal', Hal. split.
      * intros [[?|(? & q' & row' & t & ? & Hq' & ? & ?)]
               |(? & ? & t & ? & ?)]; [by left| |].
        -- right. split; [done|]. exists q', row', t. split; [done|].
           rewrite lookup_insert_ne; [done|]. intros <-. congruence.
        -- right. split; [done|]. exists q, row, t. split; [done|].
           by rewrite lookup_insert_eq.
      * intros [?|(? & q' & row' & t & ? & Hq' & ? & ?)]; [left; by left|].
        destruct (decide (q' = q)) as [->|Hd].
        -- rewrite lookup_insert_eq in Hq'. injection Hq' as <-.
           right. eauto.
        -- rewrite lookup_insert_ne in Hq' by done. left. right.
           split; [done|]. eauto 8.
Qed.

Lemma toggleFinalState_true_fields {k} q (B : Automaton k) :
  states (toggleFinalState q true B) = states B
  ∧ alphabet (toggleFinalState q true B) = alphabet B
  ∧ transitions (toggleFinalState q true B) = transitions B
  ∧ initialState (toggleFinalState q true B) = initialState B
  ∧ (∀ x, x ∈ finalStates (toggleFinalState q true B)
          ↔ x ∈ finalStates B ∨ (x = q ∧ q ∈ states B)).
Proof.
  unfold toggleFinalState. destruct (set_has q (states B)) eqn:Hq.
  - apply set_has_true in Hq. cbn. repeat (split; [done|]).
    intros x. rewrite elem_of_set_add. tauto.
  - apply set_has_false in Hq. repeat (split; [done|]). intros x. tauto.
Qed.

Lemma foldl_toggleFinalState_elem {k} (l : list string) :
  ∀ B : Automaton k,
  states (foldl (λ B q, toggleFinalState q true B) B l) = states B
  ∧ alphabet (foldl (λ B q, toggleFinalState q true B) B l) = alphabet B
  ∧ transitions (foldl (λ B q, toggleFinalState q true B) B l)
    = transitions B
  ∧ initialState (foldl (λ B q, toggleFinalState q true B) B l)
    = initialState B
  ∧ (∀ x, x ∈ finalStates (foldl (λ B q, toggleFinalState q true B) B l)
          ↔ x ∈ finalStates B ∨ (x ∈ l ∧ x ∈ states B)).
Proof.
  induction l as [|q l IH]; intros B; cbn [foldl].
  - repeat (split; [done|]). intros x. rewrite elem_of_nil. tauto.
  - destruct (IH (toggleFinalState q true B)) as (Hs & Ha & Ht & Hi & Hf).
    destruct (toggleFinalState_true_fields q B)
      as (Hs' & Ha' & Ht' & Hi' & Hf').
    split; [congruence|]. split; [congruence|]. split; [congruence|].
    split; [congruence|].
    intros x. rewrite Hf, Hf', Hs', elem_of_cons. split.
    + intros [[?|[-> ?]]|[? ?]]; auto.
    + intros [?|[[->|?] ?]]; auto.
Qed.

(** [fromJSON] builds the automaton through the model API, so it keeps of
    a JSON object that lists no state with the name of an inherited
    property what names listed states only: the states are the
    listed states; a final state of the object is final when it is listed;
    a transition of the object is in the table when its source and its
    target are listed; the alphabet is the alphabet of the object with the
    symbols, epsilon apart, of the transitions that are kept.  The initial
    state is assigned as it is, listed or not. *)
Theorem fromJSON_keeps_listed_states_only (k : kind) (json : JSON k) :
  Forall own_name (json_states json) →
  (∀ q, q ∈ states (fromJSON json) ↔ q ∈ json_states json)
  ∧ initialState (fromJSON json) = json_initialState json
  ∧ (∀ q, q ∈ finalStates (fromJSON json)
          ↔ q ∈ json_finalStates json ∧ q ∈ json_states json)
  ∧ (∀ q a x, transition (fromJSON json) q a x
              ↔ json_transition json q a x
                ∧ q ∈ json_states json ∧ x ∈ json_states json)
  ∧ (∀ a, a ∈ alphabet (fromJSON json)
          ↔ a ∈ json_alphabet json
            ∨ (a ≠ eps ∧ ∃ q x, transition (fromJSON json) q a x)).
Proof.
  intros _. unfold fromJSON.
  set (a1 := foldl (λ B q, addState q B) (new_Automaton k) (json_states json)).
  assert (a1 = mkAutomaton (new_Set (json_states json)) [] ∅ None []) as Ha1.
  { unfold a1. by rewrite foldl_addState. }
  set (a3 := mkAutomaton (states (setAlphabet (json_alphabet json) a1))
               (alphabet (setAlphabet (json_alphabet json) a1))
               (transitions (setAlphabet (json_alphabet json) a1))
               (json_initialState json)
               (finalStates (setAlphabet (json_alphabet json) a1))).
  assert (a3 = mkAutomaton (new_Set (json_states json))
                 (new_Set (json_alphabet json)) ∅ (json_initialState json) [])
    as Ha3.
  { unfold a3. by rewrite Ha1. }
  clearbody a3. clear a1 Ha1. subst a3.
  set (a3 := mkAutomaton (new_Set (json_states json))
               (new_Set (json_alphabet json)) ∅ (json_initialState json) []).
  destruct (foldl_toggleFinalState_elem (json_finalStates json) a3)
    as (Hs4 & Hal4 & Ht4 & Hi4 & Hf4).
  set (a4 := foldl (λ B q, toggleFinalState q true B) a3
               (json_finalStates json)) in *.
  destruct (add_table_fresh a4 (json_transitions json) Ht4)
    as (Hs & Hi & Hf & He & Hal).
  assert (∀ q, q ∈ states a4 ↔ q ∈ json_states json) as Hst.
  { intros q. rewrite Hs4. cbn. apply elem_of_new_Set. }
  assert (∀ q a x, transition (add_table (json_transitions json) a4) q a x
                   ↔ json_transition json q a x
                     ∧ q ∈ json_states json ∧ x ∈ json_states json) as Htr.
  { intros q a x. unfold transition, json_transition. rewrite He. split.
    - intros (t' & Hent & Hx). destruct (decide (q ∈ states a4)) as [Hq|];
        [|done].
      destruct (json_transitions json !! q) as [row|]; [|done].
      cbn in Hent. destruct (row !! a) as [t|] eqn:Ht; [|done].
      cbn in Hent. apply (keep_members_Some _ _ _ x) in Hent.
      apply Hent in Hx as [Hx Hx']. split; [eauto|]. split; by apply Hst.
    - intros ((row & t & Hrow & Ht & Hx) & Hq & Hx').
      apply Hst in Hq, Hx'. rewrite decide_True by done.
      rewrite Hrow. cbn. rewrite Ht. cbn.
      destruct (keep_members_is_Some (states a4) t x Hx Hx') as [t' Ht'].
      exists t'. split; [done|].
      apply (keep_members_Some _ _ _ x Ht'). done. }
  split; [|split; [|split; [|split]]].
  - intros q. by rewrite Hs.
  - by rewrite Hi, Hi4.
  - intros q. rewrite Hf, Hf4. cbn. rewrite elem_of_nil, elem_of_new_Set. tauto.
  - exact Htr.
  - intros a. rewrite Hal, Hal4. cbn [a3 alphabet]. rewrite elem_of_new_Set.
    split.
    + intros [?|(Hne & q & row & t & Hq & Hrow & Ht & [t' Ht'])]; [by left|].
      right. split; [done|].
      destruct (keep_members_nonempty _ _ _ Ht') as [x Hx].
      exists q, x. apply Htr.
      apply (keep_members_Some _ _ _ x Ht') in Hx as [Hx Hx'].
      split; [by exists row, t|]. split; by apply Hst.
    + intros [?|(Hne & q & x & Hqx)]; [by left|].
      apply Htr in Hqx as ((row & t & Hrow & Ht & Hx) & Hq & Hx').
      apply Hst in Hq, Hx'. right. split; [done|].
      exists q, row, t. split; [done|]. split; [done|]. split; [done|].
      by eapply keep_members_is_Some.
Qed.

(** The object that [toJSON] returns for the sample DFA lists q0, q1 and
    q2. *)
Lemma fromJSON_keeps_listed_states_only_sample :
  Forall own_name (json_states (toJSON sample))
  ∧ ∀ q a x, transition (fromJSON (toJSON sample)) q a x
             ↔ json_transition (toJSON sample) q a x
               ∧ q ∈ json_states (toJSON sample)
               ∧ x ∈ json_states (toJSON sample).
Proof.
  assert (Forall own_name (json_states (toJSON sample))) as Hown
    by (apply (bool_decide_unpack _); by vm_compute).
  split; [done|].
  by destruct (fromJSON_keeps_listed_states_only DFA (toJSON sample) Hown)
    as (_ & _ & _ & Htr & _).
Defined.

(** ** [clone] *)

Lemma worklist_loop_more_fuel succ push fuel fuel' seen work result :
  worklist_loop succ push fuel seen work = Some result → fuel ≤ fuel' →
  worklist_loop succ push fuel' seen work = Some result.
Proof.
  revert fuel' seen work. induction fuel as [|fuel IH];
    intros fuel' seen work.
  - destruct work; [|done]. intros [= <-] _. by destruct fuel'.
  - destruct work as [|q work]; [intros [= <-] _; by destruct fuel'|].
    cbn [worklist_loop]. intros Hloop Hle.
    destruct fuel' as [|fuel']; [lia|]. cbn [worklist_loop].
    apply IH; [done|lia].
Qed.

Lemma worklist_loop_ext succ succ' push fuel seen work :
  (∀ q, succ q = succ' q) →
  worklist_loop succ push fuel seen work
  = worklist_loop succ' push fuel seen work.
Proof.
  intros Hext. revert seen work. induction fuel as [|fuel IH];
    intros seen work; destruct work as [|q work]; cbn [worklist_loop];
    try done.
  rewrite Hext. apply IH.
Qed.

(** The closure depends on the entries of the table only. *)
Lemma _epsilonClosure_ext (A B : Automaton NFA) stateSet :
  (∀ q a, entry A q a = entry B q a) →
  _epsilonClosure A stateSet = _epsilonClosure B stateSet.
Proof.
  intros Hent. unfold _epsilonClosure.
  destruct (closure_loop_terminates A stateSet) as [r1 H1].
  destruct (closure_loop_terminates B stateSet) as [r2 H2].
  rewrite H1, H2. cbn [default from_option id]. f_equal.
  unfold closure_loop in *.
  rewrite (worklist_loop_ext _ (λ q, nfa_targets B q eps)) in H1
    by (intros q; unfold nfa_targets; by rewrite Hent).
  apply (worklist_loop_more_fuel _ _ _
           (closure_fuel A stateSet + closure_fuel B stateSet)) in H1;
    [|lia].
  apply (worklist_loop_more_fuel _ _ _
           (closure_fuel A stateSet + closure_fuel B stateSet)) in H2;
    [|lia].
  congruence.
Qed.

Lemma move_ext (A B : Automaton NFA) stateSet a :
  (∀ q a, entry A q a = entry B q a) → move A stateSet a = move B stateSet a.
Proof.
  intros Hent. unfold move. f_equal. apply list_fmap_ext.
  intros _ q _. unfold nfa_targets. by rewrite Hent.
Qed.

Lemma simulate_ext {k} (A B : Automaton k) input :
  same_entries A B → simulate A input = simulate B input.
Proof.
  intros (Hs & Ha & Hi & Hf & Hent). destruct k; cbn [simulate].
  - unfold _simulateDFA. rewrite Hi.
    destruct (initialState B) as [q0|]; [|done].
    destruct (truthy_str q0); [|done].
    generalize [AtState q0 input]. generalize q0.
    induction input as [|a input IH]; intros q path;
      cbn [_simulateDFA_loop]; rewrite ?Hf, ?Ha, ?Hent; [done|].
    destruct (negb _); [done|]. destruct (entry B q a) as [q'|]; [|done].
    destruct (truthy_str q'); [apply IH|done].
  - unfold _simulateNFA. rewrite Hi.
    destruct (initialState B) as [q0|]; [|done].
    destruct (truthy_str q0); [|done]. cbn zeta.
    rewrite (_epsilonClosure_ext A B) by done.
    generalize [AtStates (_epsilonClosure B [q0]) input].
    generalize (_epsilonClosure B [q0]).
    induction input as [|a input IH]; intros S path;
      cbn [_simulateNFA_loop]; rewrite ?Hf, ?Ha; [done|].
    destruct (negb _); [done|]. cbn zeta.
    rewrite (move_ext A B), (_epsilonClosure_ext A B) by done.
    destruct (decide _); [done|apply IH].
Qed.

Lemma simulateStep_ext {k} (A B : Automaton k) input step :
  same_entries A B → simulateStep A input step = simulateStep B input step.
Proof.
  intros (Hs & Ha & Hi & Hf & Hent). unfold simulateStep. rewrite Hi.
  destruct (initialState B) as [q0|]; [|done]. cbn [mbind option_bind].
  f_equal. destruct k.
  - rewrite Hf. destruct (decide (step = 0)); [done|].
    generalize (take step input). generalize q0.
    intros q l. revert q.
    induction l as [|a l IH]; intros q; cbn [simulateStep_DFA_loop];
      rewrite ?Hf, ?Hent; [done|].
    destruct (entry B q a) as [q'|]; [|done].
    destruct (truthy_str q'); [apply IH|done].
  - rewrite Hf, (_epsilonClosure_ext A B) by done.
    destruct (decide (step = 0)); [done|].
    generalize (take step input). generalize (_epsilonClosure B [q0]).
    intros S l. revert S.
    induction l as [|a l IH]; intros S; cbn [simulateStep_NFA_loop];
      rewrite ?Hf; [done|]. cbn zeta.
    rewrite (move_ext A B), (_epsilonClosure_ext A B) by done.
    destruct (decide _); [done|apply IH].
Qed.

Lemma validate_ext {k} (A B : Automaton k) :
  same_entries A B → validate A = validate B.
Proof.
  intros (Hs & Ha & Hi & Hf & Hent). unfold validate.
  rewrite Hs, Ha, Hi, Hf. destruct k; [|done].
  assert ((states B ≫= λ q, alphabet B ≫= λ a,
             if truthy_target (entry A q a) then []
             else ["State " +:+ q +:+ " has no transition for symbol " +:+ a])
          = (states B ≫= λ q, alphabet B ≫= λ a,
             if truthy_target (entry B q a) then []
             else ["State " +:+ q +:+ " has no transition for symbol " +:+ a]))
    as ->; [|done].
  apply list_bind_ext; [|done]. intros q.
  apply list_bind_ext; [|done]. intros a. by rewrite Hent.
Qed.

Lemma forallb_same {X} (f g : X → bool) (l : list X) :
  (∀ x, f x = g x) → forallb f l = forallb g l.
Proof.
  intros H. induction l as [|x l IH]; cbn [forallb]; [done|].
  by rewrite H, IH.
Qed.

Lemma isDeterministic_ext {k} (A B : Automaton k) :
  same_entries A B → isDeterministic (Some A) = isDeterministic (Some B).
Proof.
  intros (Hs & Ha & Hi & Hf & Hent). unfold isDeterministic.
  rewrite Hs, Ha. rewrite (symbolInUse_entries eps _ (transitions B))
    by (intros q; apply Hent).
  destruct (_ || _); [done|]. destruct (symbolInUse _ _); [done|].
  apply forallb_same. intros q. apply forallb_same. intros a.
  by rewrite Hent.
Qed.

(** The table without its empty rows has the entries of the table. *)
Lemma prune_table_entry {k} (A : Automaton k) q a :
  (∀ q a t, entry A q a = Some t → targets t ≠ []) →
  entry (set_transitions (prune_table (transitions A)) A) q a = entry A q a.
Proof.
  intros Hne. unfold entry. cbn [set_transitions transitions].
  destruct (transitions A !! q) as [row|] eqn:Hrow; cbn.
  - assert (prune_row row = row) as Hpr.
    { unfold prune_row. apply map_filter_id. intros b t Hb. cbn [snd].
      apply (Hne q b). apply entry_Some. eauto. }
    destruct (decide (row = ∅)) as [->|Hnonempty].
    + rewrite lookup_empty.
      assert (prune_table (transitions A) !! q = None) as ->; [|done].
      unfold prune_table. apply map_lookup_filter_None. right.
      intros row' Hrow'. rewrite lookup_fmap, Hrow in Hrow'.
      injection Hrow' as <-. cbn [snd]. rewrite Hpr. tauto.
    + assert (prune_table (transitions A) !! q = Some row) as ->; [|done].
      unfold prune_table. apply map_lookup_filter_Some. split.
      * rewrite lookup_fmap, Hrow. cbn. by rewrite Hpr.
      * done.
  - by rewrite (prune_table_lookup_None _ _ Hrow).
Qed.

Lemma clone_pruned {k} (A : Automaton k) :
  structurally_valid A →
  clone A = set_transitions (prune_table (transitions A)) A.
Proof.
  intros ([Hinit Hfinal Hsrc Htgt] & Hsym & [Hst Hal Hfin Hts]).
  unfold clone. rewrite foldl_addState.
  cbn [new_Automaton states alphabet transitions initialState finalStates
    setAlphabet].
  fold (new_Set (states A)). rewrite !new_Set_NoDup by done.
  rewrite foldl_toggleFinalState by done.
  cbn [states alphabet transitions initialState finalStates].
  fold (new_Set (finalStates A)). rewrite new_Set_NoDup by done.
  rewrite add_table_spec; [by destruct A|done| |done].
  intros q row a t Hq Ha. cbn [states alphabet].
  assert (entry A q a = Some t) as Hent by (apply entry_Some; eauto).
  split; [eauto|]. split; [eauto|]. split; [eauto|].
  destruct (decide (a = eps)); [by left|right; eauto].
Qed.

(** A clone answers as the automaton it was made from.  For a
    structurally valid automaton whose table has no entry for an empty set
    of targets (the model API never leaves one), the clone has the states,
    the alphabet, the initial state, the final states and every entry of
    the original, and so [simulate], [simulateStep], [validate] and
    [isDeterministic] give on the clone what they give on the original. *)
Theorem clone_answers_as_original (k : kind) (A : Automaton k) :
  structurally_valid A →
  (∀ q a t, entry A q a = Some t → targets t ≠ []) →
  same_entries (clone A) A
  ∧ (∀ input, simulate (clone A) input = simulate A input)
  ∧ (∀ input step,
       simulateStep (clone A) input step = simulateStep A input step)
  ∧ validate (clone A) = validate A
  ∧ isDeterministic (Some (clone A)) = isDeterministic (Some A).
Proof.
  intros Hvalid Hne.
  assert (same_entries (clone A) A) as Hsame.
  { rewrite (clone_pruned A Hvalid). repeat (split; [done|]).
    intros q a. by apply prune_table_entry. }
  split; [done|]. split; [intros; by apply simulate_ext|].
  split; [intros; by apply simulateStep_ext|].
  split; [by apply validate_ext|by apply isDeterministic_ext].
Qed.

(** The sample DFA and its clone on the input [a b]. *)
Lemma clone_answers_as_original_sample :
  simulate (clone sample) ["a"; "b"] = simulate sample ["a"; "b"]
  ∧ isDeterministic (Some (clone sample)) = isDeterministic (Some sample).
Proof.
  destruct (clone_answers_as_original DFA sample sample_structurally_valid)
    as (_ & Hsim & _ & _ & Hdet).
  - intros q a t _. done.
  - split; [apply Hsim|apply Hdet].
Defined.

(** ** Worklist loops: what they return *)

Section worklist_result.
Variable succ : string → list string.
Variable push : string → list string → list string.
Hypothesis push_elem : ∀ x y w, y ∈ push x w ↔ y = x ∨ y ∈ w.

(** A visit appends to the seen states targets that were not seen, each
    once. *)
Lemma visit_appends ts seen work :
  ∃ added, fst (visit push ts (seen, work)) = seen ++ added
           ∧ NoDup added ∧ (∀ x, x ∈ added → (x ∉ seen) ∧ (x ∈ ts)).
Proof.
  revert seen work. induction ts as [|t ts IH]; intros seen work.
  - exists []. rewrite app_nil_r. split; [done|]. split; [constructor|].
    by intros x ?%elem_of_nil.
  - rewrite visit_cons. cbn [fst snd]. destruct (set_has t seen) eqn:Ht.
    + destruct (IH seen work) as (added & -> & Hnd & Hadded).
      exists added. split; [done|]. split; [done|].
      intros x Hx. destruct (Hadded x Hx). split; [done|by right].
    + apply set_has_false in Ht.
      destruct (IH (seen ++ [t]) (push t work)) as (added & -> & Hnd & Hadded).
      exists (t :: added). rewrite <- app_assoc. split; [done|]. split.
      * constructor; [|done]. intros Hx. destruct (Hadded t Hx) as [Hn _].
        apply Hn, elem_of_app. right. by left.
      * intros x [->|Hx]%elem_of_cons; [split; [done|by left]|].
        destruct (Hadded x Hx) as [Hn ?]. split; [|by right].
        intros ?. apply Hn, elem_of_app. by left.
Qed.

(** The loop returns the seen states it starts from, in their order and
    with their repetitions, followed by states that were not among them,
    each once. *)
Lemma worklist_loop_appends fuel seen work result :
  worklist_loop succ push fuel seen work = Some result →
  ∃ added, result = seen ++ added ∧ NoDup added
           ∧ (∀ x, x ∈ added → x ∉ seen).
Proof.
  revert seen work. induction fuel as [|fuel IH]; intros seen work.
  - destruct work; [|done]. intros [= <-]. exists []. rewrite app_nil_r.
    split; [done|]. split; [constructor|]. by intros x ?%elem_of_nil.
  - destruct work as [|q work].
    { intros [= <-]. exists []. rewrite app_nil_r.
      split; [done|]. split; [constructor|]. by intros x ?%elem_of_nil. }
    cbn [worklist_loop]. cbn zeta.
    destruct (visit_appends (succ q) seen work) as (added1 & Hv & Hnd1 & Ha1).
    rewrite Hv. intros (added2 & -> & Hnd2 & Ha2)%IH.
    exists (added1 ++ added2). rewrite app_assoc. split; [done|]. split.
    + apply NoDup_app. split; [done|]. split; [|done].
      intros x Hx1 Hx2. apply (Ha2 x Hx2), elem_of_app. by right.
    + intros x [Hx|Hx]%elem_of_app; [by apply Ha1|].
      intros ?. apply (Ha2 x Hx), elem_of_app. by left.
Qed.

(** A property of the states the loop starts from that the successors
    keep is a property of the states it returns. *)
Lemma worklist_loop_sound (P : string → Prop) fuel seen work result :
  worklist_loop succ push fuel seen work = Some result →
  (∀ x t, P x → t ∈ succ x → P t) →
  (∀ x, x ∈ seen → P x) → (∀ x, x ∈ work → P x) →
  ∀ x, x ∈ result → P x.
Proof.
  intros Hloop Hsucc. revert seen work Hloop.
  induction fuel as [|fuel IH]; intros seen work.
  - destruct work; [|done]. intros [= <-] Hseen _. done.
  - destruct work as [|q work]; [intros [= <-] Hseen _; done|].
    cbn [worklist_loop]. cbn zeta. intros Hloop Hseen Hwork.
    apply (IH _ _ Hloop).
    + intros x [Hx|Hx]%(visit_seen succ); [by apply Hseen|].
      apply (Hsucc q); [|done]. apply Hwork. by left.
    + intros x [Hx|[Hx _]]%(visit_work succ push push_elem).
      * apply Hwork. by right.
      * apply (Hsucc q); [|done]. apply Hwork. by left.
Qed.
End worklist_result.

(** ** Epsilon-closure *)

Lemma sort_insert_perm x l : sort_insert x l ≡ₚ x :: l.
Proof.
  induction l as [|y l IH]; cbn [sort_insert]; [done|].
  destruct (String.leb x y); [done|]. rewrite IH. apply perm_swap.
Qed.

Lemma js_sort_perm l : js_sort l ≡ₚ l.
Proof.
  unfold js_sort. induction l as [|x l IH]; cbn [foldr]; [done|].
  by rewrite sort_insert_perm, IH.
Qed.

(** What [_epsilonClosure] sorts: the array it is given followed by the
    states that the epsilon-transitions reach from it and that it does not
    have, each once. *)
Lemma _epsilonClosure_members (A : Automaton NFA) (stateSet : list string) :
  ∃ added,
    _epsilonClosure A stateSet ≡ₚ stateSet ++ added
    ∧ NoDup added
    ∧ (∀ x, x ∈ added → x ∉ stateSet)
    ∧ (∀ q, q ∈ stateSet ++ added
            ↔ ∃ s, s ∈ stateSet ∧ rtc (eps_step A) s q).
Proof.
  unfold _epsilonClosure.
  destruct (closure_loop_terminates A stateSet) as [r Hr]. rewrite Hr.
  cbn [default from_option id]. unfold closure_loop in Hr.
  destruct (worklist_loop_appends _ _ _ _ _ _ Hr) as (added & -> & Hnd & Ha).
  exists added. split; [apply js_sort_perm|]. split; [done|]. split; [done|].
  intros q. split.
  - apply (worklist_loop_sound _ _ stack_push_elem
             (λ q, ∃ s, s ∈ stateSet ∧ rtc (eps_step A) s q) _ _ _ _ Hr).
    + intros x t (s & Hs & Hsx) Ht. exists s. split; [done|].
      eapply rtc_r; [done|]. exact Ht.
    + intros x Hx. by exists x.
    + intros x Hx. rewrite elem_of_reverse in Hx. by exists x.
  - intros (s & Hs & Hreach).
    apply (worklist_loop_closed _ _ stack_push_elem) in Hr
      as [Hseen Hclosed].
    + assert (s ∈ stateSet ++ added) as Hs' by by apply Hseen.
      clear Hs. induction Hreach as [|x y z Hxy _ IH]; [done|].
      apply IH. by apply (Hclosed x).
    + intros x Hx. by rewrite elem_of_reverse in Hx.
    + intros x Hx. left. by apply elem_of_reverse.
Qed.

(** [_epsilonClosure] returns the states that the epsilon-transitions
    reach from the states of the array it is given, these states included.
    It keeps the repetitions of the array and adds each further state
    once, so the closure of an array without repetitions has none. *)
Theorem _epsilonClosure_reaches (A : Automaton NFA) (stateSet : list string) :
  (∀ q, q ∈ _epsilonClosure A stateSet
        ↔ ∃ s, s ∈ stateSet ∧ rtc (eps_step A) s q)
  ∧ (∃ added, _epsilonClosure A stateSet ≡ₚ stateSet ++ added
              ∧ NoDup added ∧ ∀ x, x ∈ added → x ∉ stateSet)
  ∧ (NoDup stateSet → NoDup (_epsilonClosure A stateSet)).
Proof.
  destruct (_epsilonClosure_members A stateSet)
    as (added & Hperm & Hnd & Hdisj & Hreach).
  split; [|split].
  - intros q. by rewrite Hperm.
  - by exists added.
  - intros HS. rewrite Hperm. apply NoDup_app. split; [done|].
    split; [|done]. intros x Hx Hx'. by apply (Hdisj x Hx').
Qed.

(** ** Simulation of an NFA *)

Lemma elem_of__epsilonClosure (A : Automaton NFA) (stateSet : list string) q :
  q ∈ _epsilonClosure A stateSet
  ↔ ∃ s, s ∈ stateSet ∧ rtc (eps_step A) s q.
Proof.
  destruct (_epsilonClosure_members A stateSet)
    as (added & Hperm & _ & _ & Hreach).
  by rewrite Hperm.
Qed.

Lemma elem_of_move (A : Automaton NFA) (stateSet : list string) a q' :
  q' ∈ move A stateSet a ↔ ∃ q, q ∈ stateSet ∧ q' ∈ nfa_targets A q a.
Proof.
  unfold move. rewrite list_elem_of_join. split.
  - intros (l & Hq' & (q & -> & Hq)%list_elem_of_fmap). eauto.
  - intros (q & Hq & Hq'). exists (nfa_targets A q a). split; [done|].
    apply list_elem_of_fmap. eauto.
Qed.

Lemma existsb_final (F S : list string) :
  existsb (λ q, set_has q F) S = true ↔ ∃ q, q ∈ S ∧ q ∈ F.
Proof.
  induction S as [|x S IH]; cbn [existsb].
  - split; [done|]. by intros (q & ?%elem_of_nil & _).
  - rewrite orb_true_iff, IH, set_has_true. split.
    + intros [?|(q & ? & ?)]; [exists x; split; [by left|done]|].
      exists q. split; [by right|done].
    + intros (q & [->|?]%elem_of_cons & ?); [by left|right; eauto].
Qed.

Lemma rtc_eps_closed (A : Automaton NFA) (S : list string) s q :
  (∀ x t, x ∈ S → eps_step A x t → t ∈ S) →
  s ∈ S → rtc (eps_step A) s q → q ∈ S.
Proof.
  intros Hclosed Hs Hreach. induction Hreach as [|x y z Hxy _ IH]; [done|].
  apply IH. by apply (Hclosed x).
Qed.

Lemma _epsilonClosure_closed (A : Automaton NFA) (stateSet : list string) :
  ∀ x t, x ∈ _epsilonClosure A stateSet → eps_step A x t →
         t ∈ _epsilonClosure A stateSet.
Proof.
  intros x t (s & Hs & Hreach)%elem_of__epsilonClosure Hstep.
  apply elem_of__epsilonClosure. exists s. split; [done|].
  by eapply rtc_r.
Qed.

Lemma nfa_run_nil (A : Automaton NFA) s input r :
  nfa_run A s input r → input = [] → rtc (eps_step A) s r.
Proof.
  induction 1 as [q|q q' input r Hstep _ IH|]; intros Hnil; [done| |done].
  eapply rtc_l; [done|]. by apply IH.
Qed.

Lemma nfa_run_cons (A : Automaton NFA) s input r :
  nfa_run A s input r → ∀ a rest, input = a :: rest →
  ∃ q q', rtc (eps_step A) s q ∧ q' ∈ nfa_targets A q a
          ∧ nfa_run A q' rest r.
Proof.
  induction 1 as [q|q q' input r Hstep _ IH|q b q' input r Hstep Hrun _];
    intros a rest Hinput; [done| |].
  - destruct (IH a rest Hinput) as (q1 & q2 & Hreach & Hq2 & Hrun).
    exists q1, q2. split; [|done]. by eapply rtc_l.
  - injection Hinput as -> ->. exists q, q'. done.
Qed.

Lemma nfa_run_rtc (A : Automaton NFA) s q input r :
  rtc (eps_step A) s q → nfa_run A q input r → nfa_run A s input r.
Proof.
  induction 1 as [|x y z Hxy _ IH]; [done|]. intros Hrun.
  eapply nfa_run_eps; [done|]. by apply IH.
Qed.

(** The loop of [_simulateNFA] from a set of states that holds the targets
    of its epsilon-transitions. *)
Lemma _simulateNFA_loop_accepted (A : Automaton NFA) input :
  ∀ S path,
  (∀ x t, x ∈ S → eps_step A x t → t ∈ S) →
  SimulationResult.accepted (_simulateNFA_loop A S path input) = true
  ↔ Forall (λ a, a ∈ alphabet A) input
    ∧ ∃ s r, s ∈ S ∧ r ∈ finalStates A ∧ nfa_run A s input r.
Proof.
  induction input as [|a input IH]; intros S path Hclosed;
    cbn [_simulateNFA_loop].
  - cbn [SimulationResult.accepted]. rewrite existsb_final. split.
    + intros (q & HqS & HqF). split; [constructor|].
      exists q, q. split; [done|]. split; [done|constructor].
    + intros (_ & s & r & Hs & Hr & Hrun). exists r. split; [|done].
      apply (rtc_eps_closed A S s r Hclosed Hs). by eapply nfa_run_nil.
  - destruct (set_has a (alphabet A)) eqn:Ha; cbn [negb].
    + apply set_has_true in Ha. cbn zeta.
      destruct (decide (_epsilonClosure A (move A S a) = [])) as [Hnil|Hne].
      * cbn [SimulationResult.accepted]. split; [done|].
        intros (_ & s & r & Hs & Hr & Hrun). exfalso.
        destruct (nfa_run_cons A _ _ _ Hrun a input eq_refl)
          as (q & q' & Hreach & Hq' & _).
        assert (q' ∈ _epsilonClosure A (move A S a)) as Hin.
        { apply elem_of__epsilonClosure. exists q'. split; [|done].
          apply elem_of_move. exists q. split; [|done].
          by apply (rtc_eps_closed A S s q). }
        rewrite Hnil in Hin. by apply elem_of_nil in Hin.
      * rewrite IH by apply _epsilonClosure_closed. split.
        -- intros (Hall & s' & r & Hs' & Hr & Hrun).
           split; [by constructor|].
           apply elem_of__epsilonClosure in Hs' as (m & Hm & Hreach).
           apply elem_of_move in Hm as (q & Hq & Hm).
           exists q, r. split; [done|]. split; [done|].
           eapply nfa_run_symbol; [done|]. by eapply nfa_run_rtc.
        -- intros (Hall & s & r & Hs & Hr & Hrun).
           apply Forall_cons in Hall as [_ Hall]. split; [done|].
           destruct (nfa_run_cons A _ _ _ Hrun a input eq_refl)
             as (q & q' & Hreach & Hq' & Hrun').
           exists q', r. split; [|done].
           apply elem_of__epsilonClosure. exists q'. split; [|done].
           apply elem_of_move. exists q. split; [|done].
           by apply (rtc_eps_closed A S s q).
    + cbn [SimulationResult.accepted]. split; [done|].
      intros (Hall & _). apply Forall_cons in Hall as [Ha' _].
      apply set_has_false in Ha. done.
Qed.

(** [simulate] accepts an input on an NFA exactly when the NFA has an
    initial state with a non-empty name, every symbol of the input is in
    the alphabet, and some run of the NFA from the initial state reads the
    input and ends in a final state.  The repetitions that the arrays of
    current states can hold do not change the answer. *)
Theorem simulate_NFA_accepts_iff_run (A : Automaton NFA)
    (input : list string) :
  SimulationResult.accepted (simulate A input) = true
  ↔ ∃ q0 r, initialState A = Some q0 ∧ q0 ≠ ""
            ∧ Forall (λ a, a ∈ alphabet A) input
            ∧ r ∈ finalStates A ∧ nfa_run A q0 input r.
Proof.
  cbn [simulate]. unfold _simulateNFA. split.
  - destruct (initialState A) as [q0|]; [|done].
    destruct (truthy_str q0) eqn:Hq0; [|done]. cbn zeta.
    rewrite _simulateNFA_loop_accepted by apply _epsilonClosure_closed.
    intros (Hall & s & r & Hs & Hr & Hrun).
    apply elem_of__epsilonClosure in Hs as (q & Hq & Hreach).
    apply list_elem_of_singleton in Hq as ->.
    exists q0, r. split; [done|]. split; [by intros ->|].
    split; [done|]. split; [done|]. by eapply nfa_run_rtc.
  - intros (q0 & r & -> & Hq0 & Hall & Hr & Hrun).
    rewrite truthy_str_true by done. cbn zeta.
    rewrite _simulateNFA_loop_accepted by apply _epsilonClosure_closed.
    split; [done|]. exists q0, r. split; [|done].
    apply elem_of__epsilonClosure. exists q0. split; [by left|done].
Qed.

(** ** Reachable states *)

Lemma elem_of_row_targets (A : Automaton DFA) q t :
  t ∈ row_targets A q ↔ dfa_step A q t.
Proof.
  unfold row_targets, dfa_step. split.
  - intros ([a t'] & -> & Hat)%list_elem_of_fmap.
    apply elem_of_map_to_list in Hat. exists a. cbn [snd].
    apply (entry_Some A q a t').
    destruct (transitions A !! q) as [row|]; [by exists row|].
    cbn [default from_option] in Hat. by rewrite lookup_empty in Hat.
  - intros (a & Hent).
    destruct (proj1 (entry_Some A q a t) Hent) as (row & Hrow & Ha).
    rewrite Hrow.
    apply list_elem_of_fmap. exists (a, t). split; [done|].
    by apply elem_of_map_to_list.
Qed.

(** A property of the initial state that the transitions keep is a
    property of the states that [_getReachableStates] returns. *)
Lemma _getReachableStates_sound (A : Automaton DFA) (q0 : string)
    (P : string → Prop) :
  P q0 → (∀ x t, P x → dfa_step A x t → P t) →
  ∀ q, q ∈ _getReachableStates A q0 → P q.
Proof.
  intros Hq0 Hstep. unfold _getReachableStates.
  destruct (reachable_loop_terminates A q0) as [R HR]. rewrite HR.
  cbn [default from_option id]. unfold reachable_loop in HR.
  apply (worklist_loop_sound _ _ queue_push_elem P _ _ _ _ HR).
  - intros x t Hx Ht%elem_of_row_targets. by apply (Hstep x).
  - by intros x ->%list_elem_of_singleton.
  - by intros x ->%list_elem_of_singleton.
Qed.

Lemma _getReachableStates_NoDup (A : Automaton DFA) (q0 : string) :
  NoDup (_getReachableStates A q0).
Proof.
  unfold _getReachableStates.
  destruct (reachable_loop_terminates A q0) as [R HR]. rewrite HR.
  cbn [default from_option id]. unfold reachable_loop in HR.
  destruct (worklist_loop_appends _ _ _ _ _ _ HR) as (added & -> & Hnd & Ha).
  apply NoDup_app. split; [apply NoDup_singleton|]. split; [|done].
  intros x Hx%list_elem_of_singleton Hx'. subst.
  apply (Ha q0 Hx'). by left.
Qed.

(** [_getReachableStates] returns the states that the transitions of the
    table reach from the initial state, on any symbols, each once. *)
Theorem _getReachableStates_reaches (A : Automaton DFA) (q0 : string) :
  (∀ q, q ∈ _getReachableStates A q0 ↔ rtc (dfa_step A) q0 q)
  ∧ NoDup (_getReachableStates A q0).
Proof.
  split; [|apply _getReachableStates_NoDup].
  intros q. split.
  - apply _getReachableStates_sound; [done|].
    intros x t Hx Ht. by eapply rtc_r.
  - destruct (_getReachableStates_closed A q0) as [Hq0 Hclosed].
    intros Hreach. revert Hq0.
    generalize (_getReachableStates A q0) Hclosed. clear -Hreach.
    intros R Hclosed.
    induction Hreach as [|x y z [a Hxy] _ IH]; [done|].
    intros Hx. apply IH. by apply (Hclosed x a y).
Qed.

(** ** The size of the minimized DFA *)

Lemma add_block_valid (A : Automaton DFA) m sm i B :
  references_valid m → references_valid (fst (add_block A (m, sm) (i, B))).
Proof.
  intros Hm. cbn [add_block fst].
  destruct (existsb _ B); destruct (has_initialState A B);
    auto using addState_valid, setInitialState_valid, toggleFinalState_valid.
Qed.

Lemma add_blocks_valid (A : Automaton DFA) P :
  ∀ i m sm, references_valid m →
            references_valid (fst (add_blocks A i P (m, sm))).
Proof.
  induction P as [|B P IH]; intros i m sm Hm; cbn [add_blocks]; [done|].
  destruct (add_block A (m, sm) (i, B)) as [m' sm'] eqn:E.
  apply IH. change m' with (fst (m', sm')). rewrite <- E.
  by apply add_block_valid.
Qed.

Lemma add_blocks_NoDup (A : Automaton DFA) P :
  ∀ i m sm, NoDup (states m) →
            NoDup (states (fst (add_blocks A i P (m, sm)))).
Proof.
  induction P as [|B P IH]; intros i m sm Hm; cbn [add_blocks]; [done|].
  destruct (add_block A (m, sm) (i, B)) as [m' sm'] eqn:E.
  apply IH. change m' with (fst (m', sm')). rewrite <- E.
  destruct (add_block_spec A m sm i B) as (-> & _). by apply NoDup_set_add.
Qed.

Lemma add_block_transitions_valid (A : Automaton DFA) sm m B :
  references_valid m → references_valid (add_block_transitions A sm m B).
Proof.
  intros Hm. unfold add_block_transitions. destruct B as [|r B]; [done|].
  destruct (sm !! r) as [nm|]; [|done].
  destruct (transitions A !! r) as [row|]; [|done].
  revert m Hm. induction (alphabet A) as [|a l IH]; intros m Hm;
    cbn [foldl]; [done|].
  apply IH. unfold add_representative_transition.
  destruct (row !! a) as [t|]; [|done]. destruct (truthy_str t); [|done].
  destruct (sm !! t); [|done]. by apply addTransition_valid.
Qed.

Lemma add_blocks_transitions_valid (A : Automaton DFA) sm Q :
  ∀ m, references_valid m →
       references_valid (foldl (add_block_transitions A sm) m Q).
Proof.
  induction Q as [|B Q IH]; intros m Hm; cbn [foldl]; [done|].
  apply IH. by apply add_block_transitions_valid.
Qed.

Lemma build_minimized_valid (A : Automaton DFA) P :
  references_valid (build_minimized A P).
Proof.
  unfold build_minimized. apply setAlphabet_valid.
  apply add_blocks_transitions_valid, add_blocks_valid, new_Automaton_valid.
Qed.

Lemma build_minimized_states (A : Automaton DFA) P :
  NoDup (mjoin P) →
  (∀ q, q ∈ states (build_minimized A P)
        ↔ ∃ i, i < length P ∧ q = block_name i)
  ∧ NoDup (states (build_minimized A P)).
Proof.
  intros Hnd. unfold build_minimized. cbn [setAlphabet states].
  destruct (add_blocks_spec A P Hnd 0 (new_Automaton DFA) ∅)
    as (Hst & _ & _ & _ & Hsm).
  destruct (add_blocks_transitions_frame A
              (snd (add_blocks A 0 P (new_Automaton DFA, ∅))) P
              (fst (add_blocks A 0 P (new_Automaton DFA, ∅)))) as (-> & _).
  { intros x nm. rewrite Hsm, lookup_empty.
    destruct (block_index P x) as [i|] eqn:Hi; [|done]. intros [= <-].
    apply Hst. right. exists i. split; [|done].
    apply block_index_Some in Hi as (B & Hi & _).
    by apply lookup_lt_Some in Hi. }
  split.
  - intros q. rewrite Hst. cbn [new_Automaton states]. rewrite elem_of_nil.
    split; [intros [[]|?]; done|by right].
  - apply add_blocks_NoDup. constructor.
Qed.

(** [minimize] never makes a DFA larger.  On a DFA with an initial state,
    valid references and fuel for one round more than it has states, it
    returns a DFA whose states are q0, ..., q(n-1) for some n that is at
    most the number of states of the DFA, and whose references are
    valid. *)
Theorem minimize_is_no_larger (D : Automaton DFA) (q0 : string)
    (fuel : nat) :
  initialState D = Some q0 → references_valid D → NoDup (states D) →
  length (states D) < fuel →
  ∃ M n, minimize fuel D = Some M
         ∧ (∀ q, q ∈ states M ↔ ∃ i, i < n ∧ q = block_name i)
         ∧ NoDup (states M)
         ∧ length (states M) = n
         ∧ n ≤ length (states D)
         ∧ references_valid M.
Proof.
  intros Hq0 Hvalid Hnd Hfuel.
  destruct (initial_partitions_ok D q0) as [Hok0 _].
  assert (length (mjoin (initial_partitions D q0)) ≤ length (states D))
    as Hlen0.
  { apply submseteq_length, NoDup_submseteq; [apply Hok0|].
    intros x [Hx|[Hx _]]%initial_partitions_elem.
    - by apply (valid_final D Hvalid).
    - revert x Hx. apply _getReachableStates_sound.
      + by apply (valid_initial D Hvalid).
      + intros x t Hx [a Hent].
        apply (valid_target D Hvalid x a t t Hent). cbn. by left. }
  destruct (refine_loop_returns D fuel (initial_partitions D q0) Hok0)
    as (P & Hloop & Hok & Hmem & _ & _); [lia|].
  destruct (build_minimized_states D P (proj1 Hok)) as [Hst HndM].
  exists (build_minimized D P), (length P).
  split; [|split; [|split; [|split; [|split]]]].
  - cbn [minimize]. unfold minimize_DFA. rewrite Hq0.
    cbn [mbind option_bind]. by rewrite Hloop.
  - done.
  - done.
  - assert (length (block_name <$> seq 0 (length P)) = length P) as Hl
      by by rewrite length_fmap, length_seq.
    rewrite <- Hl.
    apply Nat.le_antisymm; apply submseteq_length, NoDup_submseteq.
    + done.
    + intros q (i & Hi & ->)%Hst. apply list_elem_of_fmap. exists i.
      split; [done|]. apply elem_of_seq. lia.
    + apply NoDup_fmap_2; [|apply NoDup_seq].
      intros i j. apply block_name_inj.
    + intros q (i & -> & Hi%elem_of_seq)%list_elem_of_fmap.
      apply Hst. exists i. split; [lia|done].
  - pose proof (partition_ok_length P Hok) as HlenP.
    rewrite Hmem in HlenP. lia.
  - apply build_minimized_valid.
Qed.

(** The sample DFA has three states: with fuel for four rounds [minimize]
    returns a DFA with three states at most. *)
Lemma minimize_is_no_larger_sample :
  ∃ M n, minimize 4 sample = Some M
         ∧ (∀ q, q ∈ states M ↔ ∃ i, i < n ∧ q = block_name i)
         ∧ NoDup (states M)
         ∧ length (states M) = n
         ∧ n ≤ length (states sample)
         ∧ references_valid M.
Proof.
  apply (minimize_is_no_larger sample "q0" 4).
  - reflexivity.
  - apply foldl_apply_op_valid, new_Automaton_valid.
  - apply (bool_decide_unpack _). by vm_compute.
  - apply (bool_decide_unpack _). by vm_compute.
Defined.
(** ** [_splitPartition] *)

(** A symbol gives several groups exactly when it tells two members of the
    block apart. *)
Lemma split_groups_several (A : Automaton DFA) P B a :
  NoDup B →
  1 < length (split_groups A P B a) ↔ tells_apart A P B a.
Proof.
  intros HB. split.
  - intros Hlen.
    destruct (split_groups_ok A P B a HB) as [Hkeys Hkey Hne Hmem].
    destruct (split_groups A P B a) as [|[k1 ms1] [|[k2 ms2] gs]];
      cbn in Hlen; [lia|lia|].
    csimpl in *.
    apply NoDup_cons in Hkeys as [Hk1 _].
    apply Forall_cons in Hne as [Hms1 Hne].
    apply Forall_cons in Hne as [Hms2 _].
    destruct ms1 as [|x ms1]; [done|]. destruct ms2 as [|y ms2]; [done|].
    exists x, y. split; [|split].
    + rewrite <- Hmem. by left.
    + rewrite <- Hmem. right. apply elem_of_app. right. by left.
    + assert (targetPartitionIndex A P x a = k1) as ->.
      { apply (Hkey k1 (x :: ms1) x); by left. }
      assert (targetPartitionIndex A P y a = k2) as ->.
      { apply (Hkey k2 (y :: ms2) y); [right|]; by left. }
      intros ->. apply Hk1. by left.
  - intros (x & y & Hx & Hy & Hne).
    destruct (decide (1 < length (split_groups A P B a))); [done|].
    destruct Hne. apply (split_groups_one_key A P B a x y HB); [lia|done..].
Qed.

(** The [for] on the symbols stops at the first symbol that gives several
    groups. *)
Lemma split_on_first (A : Automaton DFA) P B L :
  ((∀ a, a ∈ L → ¬ 1 < length (split_groups A P B a)) →
   split_on A P B L = [B])
  ∧ (∀ pre a post,
       L = pre ++ a :: post →
       (∀ b, b ∈ pre → ¬ 1 < length (split_groups A P B b)) →
       1 < length (split_groups A P B a) →
       split_on A P B L = (split_groups A P B a).*2).
Proof.
  induction L as [|c L [IH1 IH2]]; (split; [intros Hnone|]).
  - done.
  - by intros [|??] ???.
  - cbn [split_on]. rewrite decide_False by (apply Hnone; by left).
    apply IH1. intros a Ha. apply Hnone. by right.
  - intros pre a post Heq Hpre Ha. cbn [split_on].
    destruct pre as [|b pre]; injection Heq as -> ->.
    + by rewrite decide_True.
    + rewrite decide_False by (apply Hpre; by left).
      apply (IH2 pre a post); [done| |done].
      intros b' Hb'. apply Hpre. by right.
Qed.



(** ** The simulator *)

Lemma simulateStep_DFA_loop_complete (A : Automaton DFA) remaining processed :
  ∀ q,
  SimulationState.complete (simulateStep_DFA_loop A q remaining processed)
  = true ∨ remaining ≠ [].
Proof.
  induction processed as [|a processed IH]; intros q;
    cbn [simulateStep_DFA_loop].
  - cbn. destruct (decide (remaining = [])) as [->|?]; [by left|by right].
  - destruct (entry A q a) as [q'|]; [|by left].
    destruct (truthy_str q'); [apply IH|by left].
Qed.

Lemma simulateStep_NFA_loop_complete (A : Automaton NFA) remaining processed :
  ∀ S,
  SimulationState.complete (simulateStep_NFA_loop A S remaining processed)
  = true ∨ remaining ≠ [].
Proof.
  induction processed as [|a processed IH]; intros S;
    cbn [simulateStep_NFA_loop].
  - cbn. destruct (decide (remaining = [])) as [->|?]; [by left|by right].
  - cbn zeta. destruct (decide _); [by left|apply IH].
Qed.

(** A state that [simulateStep] reports as not complete has input left. *)
Lemma simulateStep_not_complete {k} (A : Automaton k) input step st :
  simulateStep A input step = Some st →
  SimulationState.complete st = false → step < length input.
Proof.
  unfold simulateStep. destruct (initialState A) as [q0|]; [|done].
  cbn [mbind option_bind]. intros [= <-] Hc.
  assert (drop step input ≠ [] → step < length input) as Hdrop.
  { intros Hne. destruct (decide (step < length input)); [done|].
    rewrite drop_ge in Hne by lia. done. }
  destruct k; destruct (decide (step = 0)) as [->|Hstep].
  - cbn in Hc. apply bool_decide_eq_false in Hc.
    destruct input; [done|cbn; lia].
  - destruct (simulateStep_DFA_loop_complete A (drop step input)
                (take step input) q0) as [Hc'|Hne]; [congruence|auto].
  - cbn in Hc. apply bool_decide_eq_false in Hc.
    destruct input; [done|cbn; lia].
  - destruct (simulateStep_NFA_loop_complete A (drop step input)
                (take step input) (_epsilonClosure A [q0])) as [Hc'|Hne];
      [congruence|auto].
Qed.

Lemma performStep_fields (s s' : AutomatonSimulator.t) r :
  AutomatonSimulator.performStep s = Some (r, s') →
  AutomatonSimulator.automaton s' = AutomatonSimulator.automaton s
  ∧ AutomatonSimulator.input s' = AutomatonSimulator.input s
  ∧ AutomatonSimulator.isRunning s' = AutomatonSimulator.isRunning s
  ∧ (AutomatonSimulator.step s ≤ length (AutomatonSimulator.input s) →
     AutomatonSimulator.step s' ≤ length (AutomatonSimulator.input s')).
Proof.
  unfold AutomatonSimulator.performStep.
  destruct (AutomatonSimulator.automaton s) as [[k A]|] eqn:HA.
  - destruct (simulateStep A _ _) as [st|] eqn:Hst; [|done].
    cbn [mbind option_bind]. intros [= <- <-].
    cbn [AutomatonSimulator.automaton AutomatonSimulator.input
      AutomatonSimulator.isRunning AutomatonSimulator.step].
    split; [done|]. split; [done|]. split; [done|]. intros Hle.
    destruct (SimulationState.complete st) eqn:Hc; cbn [negb andb]; [done|].
    destruct (negb _); [|done].
    pose proof (simulateStep_not_complete A _ _ st Hst Hc). lia.
  - intros [= <- <-]. by rewrite HA.
Qed.

(** The flag [isRunning] is never set when a call returns, and [step]
    never passes the end of the input: [reset] clears the flag, and
    [runToCompletion] calls [reset] after it has set the flag, so
    [_runNextStep] finds it cleared and steps over nothing.  After calls
    on a new simulator, none of them [performStep] on an automaton without
    initial state (the calls that [run_calls] covers), [runToCompletion]
    does what [reset] does and sets no timeout. *)
Theorem runToCompletion_only_resets (cs : list AutomatonSimulator.call)
    (s : AutomatonSimulator.t) :
  AutomatonSimulator.run_calls cs AutomatonSimulator.new = Some s →
  AutomatonSimulator.isRunning s = false
  ∧ AutomatonSimulator.step s ≤ length (AutomatonSimulator.input s)
  ∧ AutomatonSimulator.runToCompletion s
    = Some (AutomatonSimulator.reset s, false)
  ∧ AutomatonSimulator._runNextStep s = Some (s, false).
Proof.
  assert (∀ s0,
    AutomatonSimulator.isRunning s0 = false →
    AutomatonSimulator.runToCompletion s0
    = Some (AutomatonSimulator.reset s0, false)
    ∧ AutomatonSimulator._runNextStep s0 = Some (s0, false)) as Hrun.
  { intros s0 Hs0. unfold AutomatonSimulator.runToCompletion,
      AutomatonSimulator._runNextStep. rewrite Hs0. done. }
  assert (∀ s0,
    AutomatonSimulator.isRunning s0 = false
    ∧ AutomatonSimulator.step s0 ≤ length (AutomatonSimulator.input s0) →
    AutomatonSimulator.run_calls cs s0 = Some s →
    AutomatonSimulator.isRunning s = false
    ∧ AutomatonSimulator.step s ≤ length (AutomatonSimulator.input s))
    as Hinv.
  { induction cs as [|c cs IH]; intros s0 Hs0;
      cbn [AutomatonSimulator.run_calls].
    - by intros [= <-].
    - destruct (AutomatonSimulator.run_call c s0) as [s1|] eqn:Hc; [|done].
      cbn [mbind option_bind]. apply IH.
      destruct Hs0 as [Hr0 Hle0]. destruct (Hrun s0 Hr0) as [Hrtc Hnext].
      destruct c as [[k A]| |w| | |]; cbn [AutomatonSimulator.run_call] in Hc.
      + injection Hc as <-. cbn. split; [done|lia].
      + injection Hc as <-. cbn. split; [done|lia].
      + injection Hc as <-. cbn. split; [done|lia].
      + destruct (AutomatonSimulator.performStep s0) as [[r s1']|] eqn:Hp;
          [|done].
        injection Hc as <-.
        destruct (performStep_fields s0 s1' r Hp) as (_ & _ & Hr & Hle).
        split; [congruence|auto].
      + rewrite Hrtc in Hc. injection Hc as <-. cbn. split; [done|lia].
      + rewrite Hnext in Hc. by injection Hc as <-. }
  intros Hs. destruct (Hinv AutomatonSimulator.new) as [Hr Hle];
    [split; [done|cbn; lia]|done|].
  split; [done|]. split; [done|]. by apply Hrun.
Qed.

(** A simulator with the sample DFA and the input [a], after a step and a
    call of [runToCompletion]. *)
Lemma runToCompletion_only_resets_sample :
  ∃ s,
    AutomatonSimulator.run_calls
      [AutomatonSimulator.SetAutomaton (existT DFA sample);
       AutomatonSimulator.SetInput ["a"];
       AutomatonSimulator.PerformStep;
       AutomatonSimulator.RunToCompletion]
      AutomatonSimulator.new = Some s
    ∧ AutomatonSimulator.isRunning s = false
    ∧ AutomatonSimulator.step s = 0
    ∧ AutomatonSimulator.simulationState s = None.
Proof.
  eexists. split; [by vm_compute|].
  split; [|split; reflexivity].
  eapply (runToCompletion_only_resets
            [AutomatonSimulator.SetAutomaton (existT DFA sample);
             AutomatonSimulator.SetInput ["a"];
             AutomatonSimulator.PerformStep;
             AutomatonSimulator.RunToCompletion]).
  by vm_compute.
Defined.

(** An error on a prefix of the input is the error on the input. *)
Lemma _simulateDFA_loop_error_prefix (A : Automaton DFA) pre post e :
  ∀ q path path',
  SimulationResult.error (_simulateDFA_loop A q path pre) = Some e →
  SimulationResult.error (_simulateDFA_loop A q path' (pre ++ post)) = Some e
  ∧ SimulationResult.accepted (_simulateDFA_loop A q path' (pre ++ post))
    = false.
Proof.
  induction pre as [|a pre IH]; intros q path path';
    cbn [_simulateDFA_loop app]; [done|].
  destruct (negb (set_has a (alphabet A))); [done|].
  destruct (entry A q a) as [q'|]; [|done].
  destruct (truthy_str q'); [apply IH|done].
Qed.

Lemma _simulateNFA_loop_error_prefix (A : Automaton NFA) pre post e :
  ∀ S path path',
  SimulationResult.error (_simulateNFA_loop A S path pre) = Some e →
  SimulationResult.error (_simulateNFA_loop A S path' (pre ++ post)) = Some e
  ∧ SimulationResult.accepted (_simulateNFA_loop A S path' (pre ++ post))
    = false.
Proof.
  induction pre as [|a pre IH]; intros S path path';
    cbn [_simulateNFA_loop app]; [done|].
  destruct (negb (set_has a (alphabet A))); [done|]. cbn zeta.
  destruct (decide _); [done|apply IH].
Qed.

Lemma simulate_error_prefix {k} (A : Automaton k) pre post e :
  SimulationResult.error (simulate A pre) = Some e →
  SimulationResult.error (simulate A (pre ++ post)) = Some e
  ∧ SimulationResult.accepted (simulate A (pre ++ post)) = false.
Proof.
  destruct k; cbn [simulate].
  - unfold _simulateDFA. destruct (initialState A) as [q0|]; [|done].
    destruct (truthy_str q0); [|done]. apply _simulateDFA_loop_error_prefix.
  - unfold _simulateNFA. destruct (initialState A) as [q0|]; [|done].
    destruct (truthy_str q0); [|done]. apply _simulateNFA_loop_error_prefix.
Qed.

(** What [simulateStep] reports, in terms of [simulate]. *)
Lemma simulateStep_summary {k} (A : Automaton k) q0 input step :
  initialState A = Some q0 → q0 ≠ "" →
  Forall (λ a, a ∈ alphabet A) input →
  ∃ st, simulateStep A input step = Some st
        ∧ SimulationState.accepted st
          = SimulationResult.accepted (simulate A (take step input))
        ∧ SimulationState.error st
          = SimulationResult.error (simulate A (take step input))
        ∧ SimulationState.complete st
          = bool_decide (drop step input = [])
            || AutomatonSimulator.has_error st.
Proof.
  intros Hinit Hq0 Hall0.
  assert (Forall (λ a, a ∈ alphabet A) (take step input)) as Hall
    by by apply Forall_take.
  unfold simulateStep, AutomatonSimulator.has_error. rewrite Hinit.
  cbn [mbind option_bind].
  eexists. split; [done|]. destruct k; cbn [simulate].
  - unfold _simulateDFA. rewrite Hinit, truthy_str_true by done.
    destruct (decide (step = 0)) as [->|Hstep].
    + cbn. by rewrite orb_false_r.
    + pose proof (simulateStep_DFA_loop_simulate A (drop step input) _ Hall
                    q0 [AtState q0 (take step input)]) as (Ha & He & Hr & Hc).
      rewrite He. done.
  - unfold _simulateNFA. rewrite Hinit, truthy_str_true by done. cbn zeta.
    destruct (decide (step = 0)) as [->|Hstep].
    + cbn. by rewrite orb_false_r.
    + pose proof (simulateStep_NFA_loop_simulate A (drop step input) _ Hall
                    (_epsilonClosure A [q0])
                    [AtStates (_epsilonClosure A [q0]) (take step input)])
        as (Ha & He & Hr & Hc).
      rewrite He. done.
Qed.

Lemma performSteps_fixed (s : AutomatonSimulator.t) r :
  AutomatonSimulator.performStep s = Some (r, s) →
  ∀ n, AutomatonSimulator.performSteps n s = Some s.
Proof.
  intros Hs. induction n as [|n IH]; cbn [AutomatonSimulator.performSteps];
    [done|]. rewrite Hs. cbn [mbind option_bind snd]. exact IH.
Qed.

Lemma performSteps_verdict {k} (A : Automaton k) q0 w :
  initialState A = Some q0 → q0 ≠ "" → Forall (λ a, a ∈ alphabet A) w →
  ∀ n s,
  AutomatonSimulator.automaton s = Some (existT k A) →
  AutomatonSimulator.input s = w →
  AutomatonSimulator.step s ≤ length w →
  length w - AutomatonSimulator.step s < n →
  ∃ s' st,
    AutomatonSimulator.performSteps n s = Some s'
    ∧ AutomatonSimulator.simulationState s' = Some st
    ∧ SimulationState.complete st = true
    ∧ SimulationState.accepted st = SimulationResult.accepted (simulate A w)
    ∧ SimulationState.error st = SimulationResult.error (simulate A w)
    ∧ AutomatonSimulator.step s' ≤ length w
    ∧ AutomatonSimulator.performStep s' = Some (Some st, s').
Proof.
  intros Hinit Hq0 Hall. induction n as [|n IH]; intros s HA Hw Hle Hn;
    [lia|].
  destruct (simulateStep_summary A q0 w (AutomatonSimulator.step s)
              Hinit Hq0 Hall) as (st & Hst & Hacc & Herr & Hc).
  cbn [AutomatonSimulator.performSteps].
  unfold AutomatonSimulator.performStep at 1. rewrite HA, Hw, Hst.
  cbn [mbind option_bind snd].
  destruct (negb (SimulationState.complete st)
            && negb (AutomatonSimulator.has_error st)) eqn:Hadv.
  - apply andb_true_iff in Hadv as [Hnc _]. apply negb_true_iff in Hnc.
    pose proof (simulateStep_not_complete A w _ st Hst Hnc) as Hlt.
    apply IH; cbn; [done|done|lia|lia].
  - set (s1 := AutomatonSimulator.mk (Some (existT k A)) w
                 (AutomatonSimulator.step s) (Some st)
                 (AutomatonSimulator.isRunning s)).
    assert (AutomatonSimulator.performStep s1 = Some (Some st, s1)) as Hfix.
    { unfold AutomatonSimulator.performStep. cbn. rewrite Hst.
      cbn [mbind option_bind]. by rewrite Hadv. }
    exists s1, st. split; [by apply (performSteps_fixed s1 (Some st))|].
    split; [done|].
    assert (SimulationState.complete st = true) as Hcomplete.
    { destruct (SimulationState.complete st); [done|].
      destruct (AutomatonSimulator.has_error st); [|done].
      by rewrite orb_true_r in Hc. }
    split; [done|].
    assert (SimulationState.accepted st
            = SimulationResult.accepted (simulate A w)
            ∧ SimulationState.error st
              = SimulationResult.error (simulate A w)) as [? ?].
    { destruct (SimulationState.error st) as [e|] eqn:He.
      - symmetry in Herr.
        destruct (simulate_error_prefix A _ (drop (AutomatonSimulator.step s) w)
                    e Herr) as [He1 Ha1].
        destruct (simulate_error_prefix A _ [] e Herr) as [_ Ha2].
        rewrite take_drop in He1, Ha1. rewrite app_nil_r in Ha2.
        rewrite He1, Ha1, Hacc, Ha2. done.
      - unfold AutomatonSimulator.has_error in Hc. rewrite He in Hc.
        rewrite Hcomplete in Hc. cbn in Hc. rewrite orb_false_r in Hc.
        symmetry in Hc. apply bool_decide_eq_true in Hc.
        assert (take (AutomatonSimulator.step s) w = w) as Htake.
        { rewrite <- (take_drop (AutomatonSimulator.step s) w) at 2.
          by rewrite Hc, app_nil_r. }
        rewrite Htake in Hacc, Herr. done. }
    split; [done|]. split; [done|]. split; [done|]. done.
Qed.

(** Stepping to the end.  With an automaton whose initial state has a
    non-empty name and an input over its alphabet, one call of
    [performStep] more than the input has symbols leaves the simulator in
    a complete state that has the [accepted] and the error of [simulate] on
    the input; [step] has not passed the end of the input, and further
    calls of [performStep] change nothing. *)
Theorem performStep_reaches_the_verdict (k : kind) (A : Automaton k)
    (q0 : string) (w : list string) :
  initialState A = Some q0 → q0 ≠ "" → Forall (λ a, a ∈ alphabet A) w →
  ∃ s st,
    AutomatonSimulator.performSteps (S (length w))
      (AutomatonSimulator.setInput w
         (AutomatonSimulator.setAutomaton A AutomatonSimulator.new))
    = Some s
    ∧ AutomatonSimulator.simulationState s = Some st
    ∧ SimulationState.complete st = true
    ∧ SimulationState.accepted st = SimulationResult.accepted (simulate A w)
    ∧ SimulationState.error st = SimulationResult.error (simulate A w)
    ∧ AutomatonSimulator.step s ≤ length w
    ∧ AutomatonSimulator.performStep s = Some (Some st, s).
Proof.
  intros Hinit Hq0 Hall.
  apply (performSteps_verdict A q0 w Hinit Hq0 Hall); cbn; [done|done|lia|lia].
Qed.

(** The sample DFA and the input [a b]: three calls of [performStep]. *)
Lemma performStep_reaches_the_verdict_sample :
  ∃ s st,
    AutomatonSimulator.performSteps 3
      (AutomatonSimulator.setInput ["a"; "b"]
         (AutomatonSimulator.setAutomaton sample AutomatonSimulator.new))
    = Some s
    ∧ AutomatonSimulator.simulationState s = Some st
    ∧ SimulationState.complete st = true
    ∧ SimulationState.accepted st
      = SimulationResult.accepted (simulate sample ["a"; "b"])
    ∧ SimulationState.error st
      = SimulationResult.error (simulate sample ["a"; "b"])
    ∧ AutomatonSimulator.step s ≤ 2
    ∧ AutomatonSimulator.performStep s = Some (Some st, s).
Proof.
  apply (performStep_reaches_the_verdict DFA sample "q0" ["a"; "b"]).
  - reflexivity.
  - discriminate.
  - apply (bool_decide_unpack _). by vm_compute.
Defined.

(** ** [normalize] *)

Lemma assign_name_ok st q :
  names_ok st →
  names_ok (assign_name st q)
  ∧ (∀ x, is_Some ((assign_name st q).1 !! x)
          ↔ is_Some (st.1 !! x) ∨ x = q)
  ∧ (∀ x nm, st.1 !! x = Some nm → (assign_name st q).1 !! x = Some nm).
Proof.
  intros [Hnames Hinj]. unfold assign_name.
  destruct (st.1 !! q) as [nm0|] eqn:Hq.
  - split; [done|]. split; [|done]. intros x. split; [by left|].
    intros [? | ->]; [done|]. by rewrite Hq.
  - unfold names_ok. cbn [fst snd]. split; [split|split].
    + intros x nm. destruct (decide (x = q)) as [->|Hx].
      * rewrite lookup_insert_eq. intros [= <-]. exists st.2. split; [lia|done].
      * rewrite lookup_insert_ne by done. intros (i & Hi & ->)%Hnames.
        exists i. split; [lia|done].
    + intros x y nm.
      destruct (decide (x = q)) as [->|Hx];
        destruct (decide (y = q)) as [->|Hy]; [done| | |].
      * rewrite lookup_insert_eq, lookup_insert_ne by done.
        intros [= <-] (i & Hi & Heq%block_name_inj)%Hnames. lia.
      * rewrite lookup_insert_eq, lookup_insert_ne by done.
        intros (i & Hi & Heq)%Hnames [= <-].
        apply block_name_inj in Heq. lia.
      * rewrite !lookup_insert_ne by done. apply Hinj.
    + intros x. destruct (decide (x = q)) as [->|Hx].
      * rewrite lookup_insert_eq. split; [by right|by eexists].
      * rewrite lookup_insert_ne by done. split; [by left|].
        by intros [?|?].
    + intros x nm Hx. rewrite lookup_insert_ne; [done|].
      intros <-. congruence.
Qed.

Lemma foldl_assign_name_ok l :
  ∀ st, names_ok st →
  names_ok (foldl assign_name st l)
  ∧ (∀ x, is_Some ((foldl assign_name st l).1 !! x)
          ↔ is_Some (st.1 !! x) ∨ x ∈ l)
  ∧ (∀ x nm, st.1 !! x = Some nm →
             (foldl assign_name st l).1 !! x = Some nm).
Proof.
  induction l as [|q l IH]; intros st Hst; cbn [foldl].
  - split; [done|]. split; [|done]. intros x. rewrite elem_of_nil. tauto.
  - destruct (assign_name_ok st q Hst) as (Hok & Hdom & Hkeep).
    destruct (IH _ Hok) as (Hok' & Hdom' & Hkeep').
    split; [done|]. split.
    + intros x. rewrite Hdom', Hdom, elem_of_cons. tauto.
    + intros x nm Hx. by apply Hkeep', Hkeep.
Qed.

(** The names that [normalize] gives. *)
Lemma normalize_names_spec {k} (A : Automaton k) q0 :
  normalize_names A q0 !! q0 = Some (block_name 0)
  ∧ (∀ x, is_Some (normalize_names A q0 !! x)
          ↔ x = q0 ∨ x ∈ finalStates A ∨ x ∈ states A)
  ∧ (∀ x y nm, normalize_names A q0 !! x = Some nm →
               normalize_names A q0 !! y = Some nm → x = y)
  ∧ (∀ x nm, normalize_names A q0 !! x = Some nm → ∃ i, nm = block_name i).
Proof.
  unfold normalize_names. cbn zeta.
  assert (names_ok ({[q0 := block_name 0]}, 1)) as Hok0.
  { split; cbn [fst snd].
    - intros x nm [-> <-]%lookup_singleton_Some. exists 0. split; [lia|done].
    - intros x y nm [-> _]%lookup_singleton_Some
        [-> _]%lookup_singleton_Some. done. }
  destruct (foldl_assign_name_ok (finalStates A) _ Hok0)
    as (Hok1 & Hdom1 & Hkeep1).
  destruct (foldl_assign_name_ok (states A) _ Hok1)
    as ([Hnames Hinj] & Hdom2 & Hkeep2).
  split; [|split; [|split]].
  - apply Hkeep2, Hkeep1. cbn. apply lookup_singleton_eq.
  - intros x. rewrite Hdom2, Hdom1. cbn [fst].
    assert (is_Some (({[q0 := block_name 0]} : gmap string string) !! x)
            ↔ x = q0) as ->; [|tauto].
    split.
    + intros [nm [-> _]%lookup_singleton_Some]. done.
    + intros ->. rewrite lookup_singleton_eq. by eexists.
  - exact Hinj.
  - intros x nm (i & _ & ->)%Hnames. by exists i.
Qed.

Lemma add_normalized_state_spec {k} (A : Automaton k) q0 old new
    (B : Automaton k) :
  states (add_normalized_state A q0 old new B) = set_add new (states B)
  ∧ alphabet (add_normalized_state A q0 old new B) = alphabet B
  ∧ transitions (add_normalized_state A q0 old new B) = transitions B
  ∧ initialState (add_normalized_state A q0 old new B)
    = (if decide (old = q0) then Some new else initialState B)
  ∧ finalStates (add_normalized_state A q0 old new B)
    = (if set_has old (finalStates A) then set_add new (finalStates B)
       else finalStates B).
Proof.
  assert (set_has new (set_add new (states B)) = true) as Hnew.
  { apply set_has_true, elem_of_set_add. by left. }
  unfold add_normalized_state. cbn zeta.
  destruct (decide (old = q0)) as [->|Hne];
    destruct (set_has _ (finalStates A)); unfold toggleFinalState,
    setInitialState, addState; cbn [states]; rewrite ?Hnew; cbn [states];
    rewrite ?Hnew; done.
Qed.

(** The loop of [normalize] over the names, in any order of the names. *)
Lemma add_normalized_states_spec {k} (A : Automaton k) q0
    (f : gmap string string) :
  (∀ nm, nm ∈ states (map_fold (add_normalized_state A q0)
                        (new_Automaton k) f)
         ↔ ∃ x, f !! x = Some nm)
  ∧ transitions (map_fold (add_normalized_state A q0) (new_Automaton k) f)
    = ∅
  ∧ initialState (map_fold (add_normalized_state A q0) (new_Automaton k) f)
    = f !! q0
  ∧ (∀ nm, nm ∈ finalStates (map_fold (add_normalized_state A q0)
                               (new_Automaton k) f)
           ↔ ∃ x, f !! x = Some nm ∧ x ∈ finalStates A).
Proof.
  apply (map_fold_weak_ind (λ B (f : gmap string string),
    (∀ nm, nm ∈ states B ↔ ∃ x, f !! x = Some nm)
    ∧ transitions B = ∅
    ∧ initialState B = f !! q0
    ∧ (∀ nm, nm ∈ finalStates B
             ↔ ∃ x, f !! x = Some nm ∧ x ∈ finalStates A))).
  - cbn. split; [|split; [done|split; [by rewrite lookup_empty|]]].
    + intros nm. rewrite elem_of_nil. split; [done|].
      intros (x & Hx). by rewrite lookup_empty in Hx.
    + intros nm. rewrite elem_of_nil. split; [done|].
      intros (x & Hx & _). by rewrite lookup_empty in Hx.
  - intros old new m B Hold (Hst & Htr & Hin & Hfin).
    destruct (add_normalized_state_spec A q0 old new B)
      as (-> & _ & -> & -> & ->).
    split; [|split; [done|split]].
    + intros nm. rewrite elem_of_set_add, Hst. split.
      * intros [->|(x & Hx)].
        -- exists old. by rewrite lookup_insert_eq.
        -- exists x. rewrite lookup_insert_ne; [done|]. intros <-. congruence.
      * intros (x & Hx). destruct (decide (x = old)) as [->|Hne].
        -- rewrite lookup_insert_eq in Hx. left. congruence.
        -- rewrite lookup_insert_ne in Hx by done. right. eauto.
    + destruct (decide (old = q0)) as [->|Hne].
      * by rewrite lookup_insert_eq.
      * by rewrite lookup_insert_ne.
    + intros nm. destruct (set_has old (finalStates A)) eqn:Hof.
      * apply set_has_true in Hof. rewrite elem_of_set_add, Hfin. split.
        -- intros [->|(x & Hx & Hxf)].
           ++ exists old. by rewrite lookup_insert_eq.
           ++ exists x. rewrite lookup_insert_ne; [done|].
              intros <-. congruence.
        -- intros (x & Hx & Hxf). destruct (decide (x = old)) as [->|Hne].
           ++ rewrite lookup_insert_eq in Hx. left. congruence.
           ++ rewrite lookup_insert_ne in Hx by done. right. eauto.
      * apply set_has_false in Hof. rewrite Hfin. split.
        -- intros (x & Hx & Hxf). exists x.
           rewrite lookup_insert_ne; [done|]. intros <-. congruence.
        -- intros (x & Hx & Hxf). destruct (decide (x = old)) as [->|Hne];
             [done|]. rewrite lookup_insert_ne in Hx by done. eauto.
Qed.

(** The transitions after a call of [addTransition] between states, at a
    pair that has no transition when the automaton is a DFA. *)
Lemma addTransition_transition {k} from a to (B : Automaton k) :
  from ∈ states B → to ∈ states B →
  (k = DFA → ∀ x, ¬ transition B from a x) →
  ∀ q b x, transition (addTransition from a to B).2 q b x
           ↔ transition B q b x ∨ (q = from ∧ b = a ∧ x = to).
Proof.
  intros Hfrom Hto Hfresh q b x.
  assert ((addTransition from a to B).1 = true) as Hok
    by by apply addTransition_true.
  unfold transition. rewrite (addTransition_entry from a to B q b Hok).
  destruct (decide (q = from ∧ b = a)) as [[-> ->]|Hne].
  - destruct k; cbn [put_target targets].
    + split.
      * intros (t & [= <-] & ->%list_elem_of_singleton). by right.
      * intros [Hold|(_ & _ & ->)].
        -- destruct (Hfresh eq_refl x Hold).
        -- eexists. split; [done|]. by apply list_elem_of_singleton.
    + split.
      * intros (t & [= <-] & [->|Hx]%elem_of_set_add); [by right|].
        left. destruct (entry B from a) as [t|]; [|by apply elem_of_nil in Hx].
        by exists t.
      * intros [(t & Ht & Hx)|(_ & _ & ->)].
        -- eexists. split; [done|]. apply elem_of_set_add. right.
           by rewrite Ht.
        -- eexists. split; [done|]. apply elem_of_set_add. by left.
  - split; [by left|]. intros [?|(? & ? & ?)]; [done|]. destruct Hne. done.
Qed.

Lemma renamed_ext {k} f (E E' : string → string → string → Prop)
    (B : Automaton k) :
  (∀ q a x, E q a x ↔ E' q a x) → renamed f E B → renamed f E' B.
Proof.
  intros Hext HB q' a x'. rewrite (HB q' a x'). split.
  - intros (q & x & ? & ? & ?%Hext). eauto.
  - intros (q & x & ? & ? & ?%Hext). eauto.
Qed.

(** One call of [addTransition] of [normalize]. *)
Lemma normalize_step_renamed {k} (f : gmap string string) q a to
    (E : string → string → string → Prop) (B : Automaton k) :
  (∀ x y nm, f !! x = Some nm → f !! y = Some nm → x = y) →
  (∀ x nm, f !! x = Some nm → nm ∈ states B) →
  renamed f E B →
  (k = DFA → ∀ x, ¬ E q a x) →
  states (match f !! q, f !! to with
          | Some q', Some to' => (addTransition q' a to' B).2
          | _, _ => B
          end) = states B
  ∧ initialState (match f !! q, f !! to with
                  | Some q', Some to' => (addTransition q' a to' B).2
                  | _, _ => B
                  end) = initialState B
  ∧ finalStates (match f !! q, f !! to with
                 | Some q', Some to' => (addTransition q' a to' B).2
                 | _, _ => B
                 end) = finalStates B
  ∧ renamed f (λ q1 a1 x1, E q1 a1 x1 ∨ (q1 = q ∧ a1 = a ∧ x1 = to))
      (match f !! q, f !! to with
       | Some q', Some to' => (addTransition q' a to' B).2
       | _, _ => B
       end).
Proof.
  intros Hinj Hcover HB Hfresh.
  destruct (f !! q) as [q'|] eqn:Hq; [destruct (f !! to) as [to'|] eqn:Hto|].
  - destruct (addTransition_frame q' a to' B) as (Hs & Hi & Hf).
    split; [done|]. split; [done|]. split; [done|].
    intros q1' b x1'. rewrite addTransition_transition; [|by eauto..|].
    + rewrite (HB q1' b x1'). split.
      * intros [(q1 & x1 & ? & ? & ?)|(-> & -> & ->)]; [by eauto 8|].
        exists q, to. eauto 8.
      * intros (q1 & x1 & Hq1 & Hx1 & [?|(-> & -> & ->)]); [left; by eauto|].
        right. split; [congruence|]. split; [done|congruence].
    + intros Hk x' (q1 & x1 & Hq1 & _ & HE)%HB.
      rewrite (Hinj q1 q q' Hq1 Hq) in HE. by apply (Hfresh Hk x1).
  - split; [done|]. split; [done|]. split; [done|].
    intros q1' b x1'. rewrite (HB q1' b x1'). split.
    + intros (q1 & x1 & ? & ? & ?). eauto 8.
    + intros (q1 & x1 & Hq1 & Hx1 & [?|(-> & -> & ->)]); [by eauto|].
      congruence.
  - split; [done|]. split; [done|]. split; [done|].
    intros q1' b x1'. rewrite (HB q1' b x1'). split.
    + intros (q1 & x1 & ? & ? & ?). eauto 8.
    + intros (q1 & x1 & Hq1 & Hx1 & [?|(-> & -> & ->)]); [by eauto|].
      congruence.
Qed.

(** The calls of [normalize] for the targets of one entry. *)
Lemma normalize_targets_renamed {k} (f : gmap string string) q a
    (l : list string) :
  (∀ x y nm, f !! x = Some nm → f !! y = Some nm → x = y) →
  ∀ (E : string → string → string → Prop) (B : Automaton k),
  (∀ x nm, f !! x = Some nm → nm ∈ states B) →
  renamed f E B →
  (k = DFA → l ≠ [] → (∀ x, ¬ E q a x) ∧ length l ≤ 1) →
  states (foldl (λ B to,
            match f !! q, f !! to with
            | Some q', Some to' => (addTransition q' a to' B).2
            | _, _ => B
            end) B l) = states B
  ∧ initialState (foldl (λ B to,
            match f !! q, f !! to with
            | Some q', Some to' => (addTransition q' a to' B).2
            | _, _ => B
            end) B l) = initialState B
  ∧ finalStates (foldl (λ B to,
            match f !! q, f !! to with
            | Some q', Some to' => (addTransition q' a to' B).2
            | _, _ => B
            end) B l) = finalStates B
  ∧ renamed f (λ q1 a1 x1, E q1 a1 x1 ∨ (q1 = q ∧ a1 = a ∧ x1 ∈ l))
      (foldl (λ B to,
            match f !! q, f !! to with
            | Some q', Some to' => (addTransition q' a to' B).2
            | _, _ => B
            end) B l).
Proof.
  intros Hinj. induction l as [|to l IH]; intros E B Hcover HB Hfresh;
    cbn [foldl].
  - split; [done|]. split; [done|]. split; [done|].
    apply (renamed_ext f E); [|done]. intros q1 a1 x1.
    rewrite elem_of_nil. tauto.
  - destruct (normalize_step_renamed f q a to E B Hinj Hcover HB)
      as (Hs & Hi & Hf & HB').
    { intros Hk. by apply Hfresh. }
    edestruct (IH _ _ (λ x nm Hx, eq_ind_r (λ s, nm ∈ s) (Hcover x nm Hx) Hs)
                 HB') as (Hs' & Hi' & Hf' & HB'').
    { intros Hk Hne. destruct (Hfresh Hk) as [_ Hlen]; [done|].
      destruct l; [done|cbn in Hlen; lia]. }
    split; [congruence|]. split; [congruence|]. split; [congruence|].
    apply (renamed_ext f _ _ _) with (2 := HB''). intros q1 a1 x1.
    rewrite elem_of_cons. split.
    + intros [[?|(? & ? & ?)]|(? & ? & ?)]; auto 6.
    + intros [?|(? & ? & [?|?])]; auto 6.
Qed.

(** The loop of [normalize] over the row of a state. *)
Lemma normalize_row_renamed {k} (f : gmap string string) q
    (E : string → string → string → Prop) (B0 : Automaton k)
    (row : gmap string (target k)) :
  (∀ x y nm, f !! x = Some nm → f !! y = Some nm → x = y) →
  (∀ x nm, f !! x = Some nm → nm ∈ states B0) →
  renamed f E B0 → (∀ a x, ¬ E q a x) →
  states (map_fold (normalize_entry f q) B0 row) = states B0
  ∧ initialState (map_fold (normalize_entry f q) B0 row) = initialState B0
  ∧ finalStates (map_fold (normalize_entry f q) B0 row) = finalStates B0
  ∧ renamed f
      (λ q1 a1 x1, E q1 a1 x1
                   ∨ (q1 = q ∧ ∃ t, row !! a1 = Some t ∧ x1 ∈ targets t))
      (map_fold (normalize_entry f q) B0 row).
Proof.
  intros Hinj Hcover HB0 Hfresh. revert row.
  apply (map_fold_weak_ind (λ B (row : gmap string (target k)),
    states B = states B0
    ∧ initialState B = initialState B0
    ∧ finalStates B = finalStates B0
    ∧ renamed f
        (λ q1 a1 x1, E q1 a1 x1
                     ∨ (q1 = q ∧ ∃ t, row !! a1 = Some t ∧ x1 ∈ targets t))
        B)).
  - split; [done|]. split; [done|]. split; [done|].
    apply (renamed_ext f E); [|done]. intros q1 a1 x1. split; [by left|].
    intros [?|(_ & t & Ht & _)]; [done|]. by rewrite lookup_empty in Ht.
  - intros a t row B Ha (Hs & Hi & Hf & HB). unfold normalize_entry.
    assert (∀ x nm, f !! x = Some nm → nm ∈ states B) as Hcov.
    { intros x nm Hx. rewrite Hs. by eapply Hcover. }
    pose proof (λ Hfr, normalize_targets_renamed f q a (targets t) Hinj _ B
                         Hcov HB Hfr) as Hstep.
    cbv beta in Hstep. destruct Hstep as (Hs' & Hi' & Hf' & HB').
    { intros Hk _. split.
      - intros x [HE|(_ & t' & Ht' & _)]; [by apply (Hfresh a x)|congruence].
      - subst k. cbn. lia. }
    split; [congruence|]. split; [congruence|]. split; [congruence|].
    apply (renamed_ext f _ _ _) with (2 := HB'). intros q1 a1 x1. split.
    + intros [[?|(-> & t' & Ht' & Hx)]|(-> & -> & Hx)]; [by left| |].
      * right. split; [done|]. exists t'. split; [|done].
        rewrite lookup_insert_ne; [done|]. intros <-. congruence.
      * right. split; [done|]. exists t. by rewrite lookup_insert_eq.
    + intros [?|(-> & t' & Ht' & Hx)]; [left; by left|].
      destruct (decide (a1 = a)) as [->|Hne].
      * rewrite lookup_insert_eq in Ht'. injection Ht' as <-. by right.
      * rewrite lookup_insert_ne in Ht' by done. left. right. eauto.
Qed.

(** The loops of [normalize] over the table: the new automaton gets the
    transitions of the table between named states, under the new names. *)
Lemma add_normalized_table_renamed {k} (f : gmap string string)
    (T : gmap string (gmap string (target k))) (B0 : Automaton k) :
  (∀ x y nm, f !! x = Some nm → f !! y = Some nm → x = y) →
  (∀ x nm, f !! x = Some nm → nm ∈ states B0) →
  transitions B0 = ∅ →
  states (add_normalized_table f T B0) = states B0
  ∧ initialState (add_normalized_table f T B0) = initialState B0
  ∧ finalStates (add_normalized_table f T B0) = finalStates B0
  ∧ renamed f
      (λ q a x, ∃ row t, T !! q = Some row ∧ row !! a = Some t
                         ∧ x ∈ targets t)
      (add_normalized_table f T B0).
Proof.
  intros Hinj Hcover Hempty. unfold add_normalized_table. revert T.
  apply (map_fold_weak_ind (λ B (T : gmap string (gmap string (target k))),
    states B = states B0
    ∧ initialState B = initialState B0
    ∧ finalStates B = finalStates B0
    ∧ renamed f
        (λ q a x, ∃ row t, T !! q = Some row ∧ row !! a = Some t
                           ∧ x ∈ targets t) B)).
  - split; [done|]. split; [done|]. split; [done|].
    intros q' a x'. unfold transition, entry. rewrite Hempty, lookup_empty.
    split; [by intros (? & ? & _)|].
    intros (q & x & _ & _ & row & t & Hq & _). by rewrite lookup_empty in Hq.
  - intros q row T B Hq (Hs & Hi & Hf & HB).
    assert (∀ x nm, f !! x = Some nm → nm ∈ states B) as Hcov.
    { intros x nm Hx. rewrite Hs. by eapply Hcover. }
    pose proof (λ Hfr, normalize_row_renamed f q _ B row Hinj Hcov HB Hfr)
      as Hstep.
    cbv beta in Hstep. destruct Hstep as (Hs' & Hi' & Hf' & HB').
    { intros a x (row' & t & Hq' & _). congruence. }
    split; [congruence|]. split; [congruence|]. split; [congruence|].
    apply (renamed_ext f _ _ _) with (2 := HB'). intros q1 a1 x1. split.
    + intros [(row' & t & Hq1 & Ha1 & Hx1)|(-> & t & Ha1 & Hx1)].
      * exists row', t. split; [|done].
        rewrite lookup_insert_ne; [done|]. intros <-. congruence.
      * exists row, t. by rewrite lookup_insert_eq.
    + intros (row' & t & Hq1 & Ha1 & Hx1).
      destruct (decide (q1 = q)) as [->|Hne].
      * rewrite lookup_insert_eq in Hq1. injection Hq1 as <-. right. eauto.
      * rewrite lookup_insert_ne in Hq1 by done. left. eauto.
Qed.

(** The automaton that [normalize] returns. *)
Lemma normalize_spec {k} (A : Automaton k) q0 :
  initialState A = Some q0 →
  ∃ N, normalize A = Some N
       ∧ (∀ nm, nm ∈ states N ↔ ∃ x, normalize_names A q0 !! x = Some nm)
       ∧ initialState N = Some (block_name 0)
       ∧ (∀ nm, nm ∈ finalStates N
                ↔ ∃ x, normalize_names A q0 !! x = Some nm
                       ∧ x ∈ finalStates A)
       ∧ alphabet N = new_Set (alphabet A)
       ∧ renamed (normalize_names A q0) (transition A) N.
Proof.
  intros Hq0. unfold normalize. rewrite Hq0. cbn [mbind option_bind].
  eexists. split; [done|].
  destruct (normalize_names_spec A q0) as (Hf0 & _ & Hinj & _).
  destruct (add_normalized_states_spec A q0 (normalize_names A q0))
    as (Hst & Htr & Hin & Hfin).
  destruct (add_normalized_table_renamed (normalize_names A q0)
              (transitions A) _ Hinj (λ x nm Hx, proj2 (Hst nm)
                                        (ex_intro _ x Hx)) Htr)
    as (Hs' & Hi' & Hf' & HB').
  cbn [setAlphabet states alphabet initialState finalStates].
  split; [by rewrite Hs'|]. split; [by rewrite Hi', Hin|].
  split; [by rewrite Hf'|]. split; [done|].
  intros q' a x'. specialize (HB' q' a x'). unfold transition, entry in *.
  cbn [setAlphabet transitions]. rewrite HB'. split.
  - intros (q & x & ? & ? & row & t & Hrow & Ht & Hx). exists q, x.
    split; [done|]. split; [done|]. exists t. by rewrite Hrow.
  - intros (q & x & ? & ? & t & Hent & Hx). exists q, x.
    split; [done|]. split; [done|].
    destruct (transitions A !! q) as [row|]; [|done]. by exists row, t.
Qed.

Lemma normalize_DFA_loop (A N : Automaton DFA) (f : gmap string string) :
  (∀ x y nm, f !! x = Some nm → f !! y = Some nm → x = y) →
  (∀ x nm, f !! x = Some nm → nm ≠ "") →
  renamed f (transition A) N →
  alphabet N = new_Set (alphabet A) →
  (∀ nm, nm ∈ finalStates N ↔ ∃ x, f !! x = Some nm ∧ x ∈ finalStates A) →
  (∀ q a t, entry A q a = Some t → t ≠ "" ∧ is_Some (f !! t)) →
  ∀ w q q' path path', f !! q = Some q' →
  SimulationResult.accepted (_simulateDFA_loop N q' path' w)
  = SimulationResult.accepted (_simulateDFA_loop A q path w).
Proof.
  intros Hinj Hnames HN Hal Hfin Hent.
  induction w as [|a w IH]; intros q q' path path' Hq;
    cbn [_simulateDFA_loop].
  - cbn [SimulationResult.accepted]. apply Bool.eq_iff_eq_true.
    rewrite !set_has_true, Hfin. split.
    + intros (x & Hx & Hxf). by rewrite (Hinj q x q' Hq Hx).
    + intros Hqf. by exists q.
  - rewrite Hal, set_has_new_Set.
    destruct (negb (set_has a (alphabet A))); [done|].
    destruct (entry A q a) as [t|] eqn:HA.
    + destruct (Hent q a t HA) as [Ht [t' Ht']].
      assert (entry N q' a = Some t') as ->.
      { assert (transition N q' a t') as (y & Hy & ->%list_elem_of_singleton).
        { apply HN. exists q, t. split; [done|]. split; [done|].
          exists t. split; [done|]. by apply list_elem_of_singleton. }
        done. }
      rewrite (truthy_str_true t Ht), (truthy_str_true t' (Hnames t t' Ht')).
      by apply IH.
    + assert (entry N q' a = None) as ->; [|done].
      destruct (entry N q' a) as [y|] eqn:HNent; [|done]. exfalso.
      assert (transition N q' a y) as (q2 & x2 & Hq2 & _ & t & Ht & _)%HN.
      { exists y. split; [done|]. by apply list_elem_of_singleton. }
      rewrite (Hinj q2 q q' Hq2 Hq) in Ht. congruence.
Qed.

Lemma elem_of_nfa_targets (A : Automaton NFA) q a x :
  x ∈ nfa_targets A q a ↔ transition A q a x.
Proof.
  unfold nfa_targets, transition. destruct (entry A q a) as [t|].
  - split; [by exists t|]. by intros (t' & [= <-] & Hx).
  - cbn. rewrite elem_of_nil. split; [done|]. by intros (? & ? & _).
Qed.

Section normalize_NFA.
Variables (A N : Automaton NFA) (f : gmap string string).
Hypothesis Hinj : ∀ x y nm, f !! x = Some nm → f !! y = Some nm → x = y.
Hypothesis HN : renamed f (transition A) N.
Hypothesis Hal : alphabet N = new_Set (alphabet A).
Hypothesis Hfin :
  ∀ nm, nm ∈ finalStates N ↔ ∃ x, f !! x = Some nm ∧ x ∈ finalStates A.
Hypothesis Hdom : ∀ q a x, transition A q a x → is_Some (f !! x).

Lemma renamed_eps_reach x x' y' :
  f !! x = Some x' → rtc (eps_step N) x' y' →
  ∃ y, f !! y = Some y' ∧ rtc (eps_step A) x y.
Proof.
  intros Hx Hreach. revert x Hx.
  induction Hreach as [x'|x' z' y' Hstep _ IH]; intros x Hx; [by exists x|].
  apply elem_of_nfa_targets, HN in Hstep as (x2 & z & Hx2 & Hz & Hxz).
  rewrite (Hinj x2 x x' Hx2 Hx) in Hxz.
  destruct (IH z Hz) as (y & Hy & Hzy). exists y. split; [done|].
  eapply rtc_l; [|done]. by apply elem_of_nfa_targets.
Qed.

Lemma eps_reach_renamed x x' y :
  f !! x = Some x' → rtc (eps_step A) x y →
  ∃ y', f !! y = Some y' ∧ rtc (eps_step N) x' y'.
Proof.
  intros Hx Hreach. revert x' Hx.
  induction Hreach as [x|x z y Hstep _ IH]; intros x' Hx; [by exists x'|].
  apply elem_of_nfa_targets in Hstep.
  destruct (Hdom x eps z Hstep) as [z' Hz].
  destruct (IH z' Hz) as (y' & Hy & Hzy). exists y'. split; [done|].
  eapply rtc_l; [|done]. apply elem_of_nfa_targets, HN. by exists x, z.
Qed.

Lemma renamed_set_move S S' a :
  renamed_set f S S' → renamed_set f (move A S a) (move N S' a).
Proof.
  intros [HS Hnamed]. split.
  - intros m'. rewrite elem_of_move. split.
    + intros (q' & (q & Hq & Hqq')%HS & Hm%elem_of_nfa_targets).
      apply HN in Hm as (q2 & m & Hq2 & Hm & Hqm).
      rewrite (Hinj q2 q q' Hq2 Hqq') in Hqm.
      exists m. split; [|done]. apply elem_of_move. exists q.
      split; [done|]. by apply elem_of_nfa_targets.
    + intros (m & (q & Hq & Hm%elem_of_nfa_targets)%elem_of_move & Hmm').
      destruct (Hnamed q Hq) as [q' Hq'].
      exists q'. split; [apply HS; by exists q|].
      apply elem_of_nfa_targets, HN. by exists q, m.
  - intros m (q & Hq & Hm%elem_of_nfa_targets)%elem_of_move.
    by apply (Hdom q a m).
Qed.

Lemma renamed_set_closure S S' :
  renamed_set f S S' →
  renamed_set f (_epsilonClosure A S) (_epsilonClosure N S').
Proof.
  intros [HS Hnamed]. split.
  - intros y'. rewrite elem_of__epsilonClosure. split.
    + intros (x' & (x & Hx & Hxx')%HS & Hreach).
      destruct (renamed_eps_reach x x' y' Hxx' Hreach) as (y & Hy & Hxy).
      exists y. split; [|done]. apply elem_of__epsilonClosure. by exists x.
    + intros (y & (x & Hx & Hxy)%elem_of__epsilonClosure & Hyy').
      destruct (Hnamed x Hx) as [x' Hx'].
      destruct (eps_reach_renamed x x' y Hx' Hxy) as (y2 & Hy2 & Hreach).
      exists x'. split; [apply HS; by exists x|]. congruence.
  - intros y (x & Hx & Hxy)%elem_of__epsilonClosure.
    destruct (Hnamed x Hx) as [x' Hx'].
    destruct (eps_reach_renamed x x' y Hx' Hxy) as (y' & Hy' & _).
    by exists y'.
Qed.

Lemma renamed_set_nil S S' : renamed_set f S S' → S' = [] ↔ S = [].
Proof.
  intros [HS Hnamed]. split.
  - intros ->. destruct S as [|x S]; [done|]. exfalso.
    destruct (Hnamed x) as [x' Hx']; [by left|].
    apply (not_elem_of_nil x'), HS. exists x. split; [by left|done].
  - intros ->. destruct S' as [|x' S']; [done|]. exfalso.
    destruct (proj1 (HS x')) as (x & Hx & _); [by left|].
    by apply elem_of_nil in Hx.
Qed.

Lemma normalize_NFA_loop w :
  ∀ S S' path path', renamed_set f S S' →
  SimulationResult.accepted (_simulateNFA_loop N S' path' w)
  = SimulationResult.accepted (_simulateNFA_loop A S path w).
Proof.
  induction w as [|a w IH]; intros S S' path path' HSS';
    cbn [_simulateNFA_loop].
  - cbn [SimulationResult.accepted]. apply Bool.eq_iff_eq_true.
    rewrite !existsb_final. destruct HSS' as [HS Hnamed]. split.
    + intros (x' & (x & Hx & Hxx')%HS & (y & Hy & Hyf)%Hfin).
      exists x. split; [done|]. by rewrite (Hinj x y x' Hxx' Hy).
    + intros (x & Hx & Hxf). destruct (Hnamed x Hx) as [x' Hx'].
      exists x'. split; [apply HS; by exists x|]. apply Hfin. by exists x.
  - rewrite Hal, set_has_new_Set.
    destruct (negb (set_has a (alphabet A))); [done|]. cbn zeta.
    pose proof (renamed_set_closure _ _ (renamed_set_move S S' a HSS'))
      as Hnext.
    pose proof (renamed_set_nil _ _ Hnext) as Hnil.
    destruct (decide (_epsilonClosure A (move A S a) = [])) as [He|He].
    + rewrite decide_True by by apply Hnil. done.
    + rewrite decide_False by (intros ?%Hnil; done). by apply IH.
Qed.
End normalize_NFA.

(** [normalize] keeps what the automaton accepts.  On an automaton with an
    initial state, valid references and no state with the empty name or
    the name of an inherited property, it
    returns an automaton whose initial state is q0, whose states are named
    q<i>, and on which [simulate] accepts the inputs that it accepts on the
    automaton.  (The order in which the new states are added does not
    matter for this.) *)
Theorem normalize_preserves_acceptance (k : kind) (A : Automaton k)
    (q0 : string) :
  initialState A = Some q0 → references_valid A → "" ∉ states A →
  Forall own_name (states A) →
  ∃ N, normalize A = Some N
       ∧ initialState N = Some (block_name 0)
       ∧ (∀ q, q ∈ states N → ∃ i, q = block_name i)
       ∧ ∀ w, SimulationResult.accepted (simulate N w)
              = SimulationResult.accepted (simulate A w).
Proof.
  intros Hq0 Hvalid Hempty _.
  destruct (normalize_spec A q0 Hq0) as (N & HN & Hst & Hin & Hfin & Hal & Htr).
  destruct (normalize_names_spec A q0) as (Hf0 & Hdomf & Hinj & Hnames).
  assert (q0 ≠ "") as Hq0ne.
  { intros ->. apply Hempty. by apply (valid_initial A Hvalid). }
  assert (∀ q a x, transition A q a x →
                   x ≠ "" ∧ is_Some (normalize_names A q0 !! x)) as Htargets.
  { intros q a x (t & Hent & Hx).
    pose proof (valid_target A Hvalid q a t x Hent Hx) as Hxs.
    split; [by intros ->|]. apply Hdomf. auto. }
  assert (∀ x nm, normalize_names A q0 !! x = Some nm → nm ≠ "") as Hne.
  { intros x nm (i & ->)%Hnames. pose proof (block_name_truthy i) as Ht.
    intros Heq. rewrite Heq in Ht. done. }
  exists N. split; [done|]. split; [done|]. split.
  { intros q (x & Hx)%Hst. by eapply Hnames. }
  intros w. destruct k; cbn [simulate].
  - unfold _simulateDFA. rewrite Hin, Hq0.
    rewrite (truthy_str_true q0 Hq0ne), block_name_truthy.
    apply (normalize_DFA_loop A N (normalize_names A q0)); try done.
    intros q a t Hent. apply (Htargets q a t). exists t.
    split; [done|]. cbn. by left.
  - unfold _simulateNFA. rewrite Hin, Hq0.
    rewrite (truthy_str_true q0 Hq0ne), block_name_truthy. cbn zeta.
    apply (normalize_NFA_loop A N (normalize_names A q0)); try done.
    { intros q a x Hqx. by apply (Htargets q a x). }
    apply renamed_set_closure; try done.
    { intros q a x Hqx. by apply (Htargets q a x). }
    split.
    + intros x'. rewrite list_elem_of_singleton. split.
      * intros ->. exists q0. split; [by left|done].
      * intros (x & ->%list_elem_of_singleton & Hx). congruence.
    + intros x ->%list_elem_of_singleton. by eexists.
Qed.

(** The sample DFA has the initial state q0, valid references and no state
    with the empty name. *)
Lemma normalize_preserves_acceptance_sample :
  ∃ N, normalize sample = Some N
       ∧ initialState N = Some (block_name 0)
       ∧ (∀ q, q ∈ states N → ∃ i, q = block_name i)
       ∧ ∀ w, SimulationResult.accepted (simulate N w)
              = SimulationResult.accepted (simulate sample w).
Proof.
  apply (normalize_preserves_acceptance DFA sample "q0").
  - reflexivity.
  - apply foldl_apply_op_valid, new_Automaton_valid.
  - apply (bool_decide_unpack _). by vm_compute.
  - apply (bool_decide_unpack _). by vm_compute.
Defined.

(** ** The subset construction on an NFA with one target at most *)

Lemma string_app_inj_r (s x y : string) : x +:+ s = y +:+ s → x = y.
Proof.
  revert y. induction x as [|c x IH]; intros y Heq.
  - destruct y as [|c' y]; [done|]. exfalso.
    apply (f_equal String.length) in Heq.
    rewrite !string_length_app in Heq. cbn [String.length] in Heq.
    lia.
  - destruct y as [|c' y].
    + exfalso. apply (f_equal String.length) in Heq.
      rewrite !string_length_app in Heq. cbn [String.length] in Heq.
      lia.
    + cbn in Heq. injection Heq as -> Heq. f_equal. by apply IH.
Qed.

Lemma name1_inj q q' : name1 q = name1 q' → q = q'.
Proof.
  intros Heq. apply (string_app_inj_r "}").
  by injection Heq.
Qed.

Lemma name1_truthy q : truthy_str (name1 q) = true.
Proof. done. Qed.

Lemma js_sort_short (l : list string) : length l ≤ 1 → js_sort l = l.
Proof. destruct l as [|x [|y l]]; cbn; [done|done|lia]. Qed.

(** The next state set of the set of one state. *)
Lemma _getNextStates_one (A : Automaton NFA) q a :
  one_target A → a ∈ alphabet A →
  _getNextStates A [q] a = nfa_targets A q a.
Proof.
  intros [Hno Hone] Ha. unfold _getNextStates.
  rewrite (_epsilonClosure_no_eps A _ Hno). unfold move. csimpl.
  rewrite app_nil_r. apply js_sort_short. by apply Hone.
Qed.

Lemma existsb_name_false (name : string) (Ls : list (list string))
    (names : list string) :
  (∀ L, L ∈ Ls → _getSetName L ∈ names) → name ∉ names →
  existsb (λ set, String.eqb (_getSetName set) name) Ls = false.
Proof.
  intros HLs Hname. induction Ls as [|L Ls IH]; cbn [existsb]; [done|].
  rewrite IH by (intros L' HL'; apply HLs; by right).
  rewrite orb_false_r. apply String.eqb_neq. intros Heq.
  apply Hname. rewrite <- Heq. apply HLs. by left.
Qed.

Lemma succ_name_one (A : Automaton NFA) q a t :
  a ∈ alphabet A → a ≠ eps → nfa_targets A q a = [t] →
  succ_name A q a = Some (name1 t).
Proof.
  intros Ha He Ht. unfold succ_name. rewrite decide_True by done.
  by rewrite Ht.
Qed.

Lemma succ_name_Some (A : Automaton NFA) q a n :
  succ_name A q a = Some n →
  a ∈ alphabet A ∧ a ≠ eps ∧ ∃ t, nfa_targets A q a = [t] ∧ n = name1 t.
Proof.
  unfold succ_name. destruct (decide _) as [[Ha He]|]; [|done].
  destruct (nfa_targets A q a) as [|t [|t' l]]; [done| |done].
  intros [= <-]. eauto.
Qed.

Lemma nfa_targets_all_targets (A : Automaton NFA) q a t :
  t ∈ nfa_targets A q a → t ∈ nfa_all_targets A.
Proof.
  unfold nfa_targets, nfa_all_targets. intros Ht.
  destruct (entry A q a) as [ts|] eqn:Hent; [|by apply elem_of_nil in Ht].
  apply entry_Some in Hent as (row & Hrow & Hts). simpl in Ht.
  apply list_elem_of_join. eexists. split; [|apply list_elem_of_fmap].
  2:{ exists (q, row). split; [done|]. by apply elem_of_map_to_list. }
  cbn [snd]. apply list_elem_of_join. exists ts. split; [done|].
  apply list_elem_of_fmap. exists (a, ts). split; [done|].
  by apply elem_of_map_to_list.
Qed.

(** The looked-at pairs may be replaced by pairs that were looked at or
    have no transition to get. *)
Lemma convert_inv_handled (A : Automaton NFA) q0 dfa known
    (handled handled' : string → string → Prop) :
  (∀ q a, handled' q a →
          handled q a ∨ (q ∈ known ∧ succ_name A q a = None)) →
  convert_inv A q0 dfa known handled → convert_inv A q0 dfa known handled'.
Proof.
  intros Hext [Hnd Hsub Hst Hent Hhk Hh Hfin Hcl Hin Hq0].
  split; try done.
  - intros q a [Hqa|[Hq _]]%Hext; [by eapply Hhk|done].
  - intros q a [Hqa|[Hq Hn]]%Hext; [by apply Hh|].
    destruct (Hent (name1 q) a) as [-> | (q' & _ & ->%name1_inj & ->)]; done.
  - intros q a t [Hqa|[Hq Hn]]%Hext Ha He Ht; [by eauto|].
    by rewrite (succ_name_one A q a t) in Hn.
Qed.

(** A new state set joins the new automaton. *)
Lemma convert_inv_addState (A : Automaton NFA) q0 dfa known handled t :
  convert_inv A q0 dfa known handled → t ∉ known → t ∈ nfa_all_targets A →
  convert_inv A q0
    (if any_final A [t]
     then toggleFinalState (name1 t) true (addState (name1 t) dfa)
     else addState (name1 t) dfa)
    (known ++ [t]) handled.
Proof.
  intros [Hnd Hsub Hst Hent Hhk Hh Hfin Hcl Hin Hq0] Ht Htall.
  set (dfa1 := addState (name1 t) dfa).
  assert (name1 t ∈ states dfa1) as Hmem
    by (apply elem_of_set_add; by left).
  assert (set_has (name1 t) (states dfa1) = true) as Hhas
    by by apply set_has_true.
  set (dfa2 := if any_final A [t] then _ else _).
  assert (states dfa2 = set_add (name1 t) (states dfa)) as Hstates.
  { subst dfa2. destruct (any_final A [t]); [|done].
    by rewrite toggleFinalState_states. }
  assert (transitions dfa2 = transitions dfa) as Htrans.
  { subst dfa2. destruct (any_final A [t]); [|done].
    unfold toggleFinalState. by rewrite Hhas. }
  assert (initialState dfa2 = initialState dfa) as Hinit.
  { subst dfa2. destruct (any_final A [t]); [|done].
    unfold toggleFinalState. by rewrite Hhas. }
  assert (∀ n a, entry dfa2 n a = entry dfa n a) as Hentry.
  { intros n a. unfold entry. by rewrite Htrans. }
  assert (∀ n, n ∈ finalStates dfa2
               ↔ n ∈ finalStates dfa ∨ (n = name1 t ∧ t ∈ finalStates A))
    as Hfinal.
  { intros n. subst dfa2. unfold any_final. cbn [existsb].
    rewrite orb_false_r. destruct (set_has t (finalStates A)) eqn:Hf.
    - apply set_has_true in Hf. unfold toggleFinalState. rewrite Hhas.
      cbn [finalStates]. rewrite elem_of_set_add. cbn [addState finalStates].
      tauto.
    - apply set_has_false in Hf. cbn [addState finalStates]. tauto. }
  split.
  - apply NoDup_app. split; [done|]. split; [|apply NoDup_singleton].
    intros x Hx ->%list_elem_of_singleton. done.
  - intros q [Hq | ->%list_elem_of_singleton]%elem_of_app; [by apply Hsub|].
    by right.
  - intros n. rewrite Hstates, elem_of_set_add, Hst. split.
    + intros [-> | (q & Hq & ->)].
      * exists t. split; [|done]. apply elem_of_app. right. by left.
      * exists q. split; [|done]. apply elem_of_app. by left.
    + intros (q & [Hq | ->%list_elem_of_singleton]%elem_of_app & ->);
        [right; eauto|by left].
  - intros n a. rewrite Hentry.
    destruct (Hent n a) as [?|(q & Hq & -> & Hs)]; [by left|].
    right. exists q. split; [|done]. apply elem_of_app. by left.
  - intros q a Hqa. apply elem_of_app. left. by eapply Hhk.
  - intros q a Hqa. rewrite Hentry. by apply Hh.
  - intros n. rewrite Hfinal, Hfin. split.
    + intros [(q & Hq & -> & Hf)|[-> Hf]].
      * exists q. split; [|done]. apply elem_of_app. by left.
      * exists t. split; [|done]. apply elem_of_app. right. by left.
    + intros (q & [Hq | ->%list_elem_of_singleton]%elem_of_app & -> & Hf);
        [left; eauto|by right].
  - intros q a t' Hqa Ha He Ht'. apply elem_of_app. left. by eapply Hcl.
  - by rewrite Hinit.
  - apply elem_of_app. by left.
Qed.

(** The transition of a state set is written. *)
Lemma convert_inv_addTransition (A : Automaton NFA) q0 dfa known handled
    q a t :
  convert_inv A q0 dfa known handled → q ∈ known → t ∈ known →
  a ∈ alphabet A → a ≠ eps → nfa_targets A q a = [t] →
  convert_inv A q0 (addTransition (name1 q) a (name1 t) dfa).2 known
    (λ q' a', handled q' a' ∨ (q' = q ∧ a' = a)).
Proof.
  intros [Hnd Hsub Hst Hent Hhk Hh Hfin Hcl Hin Hq0] Hq Ht Ha He Hta.
  assert ((addTransition (name1 q) a (name1 t) dfa).1 = true) as Hok.
  { apply addTransition_true. split; apply Hst; eauto. }
  pose proof (addTransition_entry (name1 q) a (name1 t) dfa) as Hentry.
  pose proof (succ_name_one A q a t Ha He Hta) as Hsucc.
  assert (finalStates (addTransition (name1 q) a (name1 t) dfa).2
          = finalStates dfa) as Hfinal.
  { unfold addTransition. by destruct (_ || _). }
  assert (initialState (addTransition (name1 q) a (name1 t) dfa).2
          = initialState dfa) as Hinit.
  { unfold addTransition. by destruct (_ || _). }
  split; try done.
  - intros n. by rewrite addTransition_states.
  - intros n a'. rewrite (Hentry n a' Hok).
    destruct (decide _) as [[-> ->]|Hne]; [|by apply Hent].
    right. exists q. by rewrite Hsucc.
  - intros q' a' [Hqa|[-> ->]]; [by eapply Hhk|done].
  - intros q' a' Hqa. rewrite (Hentry _ a' Hok).
    destruct (decide _) as [[->%name1_inj ->]|Hne].
    + by rewrite Hsucc.
    + destruct Hqa as [Hqa|[-> ->]]; [by apply Hh|]. by destruct Hne.
  - intros n. by rewrite Hfinal.
  - intros q' a' t' [Hqa|[-> ->]] Ha' He' Ht'; [by eauto|]. congruence.
  - by rewrite Hinit.
Qed.

(** A round of the [for] on the symbols, for the state set of [q]. *)
Lemma convert_symbol_step (A : Automaton NFA) q0 dfa ps us handled q a :
  one_target A → a ∈ alphabet A → q ∈ ps →
  convert_inv A q0 dfa (ps ++ us) handled →
  ∃ dfa' us',
    convert_symbol A ((λ p, [p]) <$> ps) [q] (dfa, (λ p, [p]) <$> us) a
    = (dfa', (λ p, [p]) <$> us')
    ∧ convert_inv A q0 dfa' (ps ++ us')
        (λ q' a', handled q' a' ∨ (q' = q ∧ a' = a)).
Proof.
  intros Hone Ha Hq Hinv.
  assert (q ∈ ps ++ us) as Hqk by (apply elem_of_app; by left).
  unfold convert_symbol.
  destruct (decide (a = eps)) as [He|He].
  { exists dfa, us. split; [done|].
    apply (convert_inv_handled A q0 dfa _ handled); [|done].
    intros q' a' [?|[-> ->]]; [by left|]. right. split; [done|].
    unfold succ_name. rewrite decide_False; [done|]. tauto. }
  rewrite (_getNextStates_one A q a Hone Ha).
  destruct (nfa_targets A q a) as [|t [|t' l]] eqn:Hta.
  - rewrite decide_True by done. exists dfa, us. split; [done|].
    apply (convert_inv_handled A q0 dfa _ handled); [|done].
    intros q' a' [?|[-> ->]]; [by left|]. right. split; [done|].
    unfold succ_name. rewrite Hta. by destruct (decide _).
  - rewrite decide_False by done.
    change (_getSetName [t]) with (name1 t).
    change (_getSetName [q]) with (name1 q).
    destruct (set_has (name1 t) (states dfa)) eqn:Hhas.
    + apply set_has_true in Hhas.
      apply (inv_states _ _ _ _ _ Hinv) in Hhas as (t0 & Ht0 & ->%name1_inj).
      exists (addTransition (name1 q) a (name1 t0) dfa).2, us.
      split; [done|]. by apply convert_inv_addTransition.
    + apply set_has_false in Hhas.
      assert (t ∉ ps ++ us) as Htk.
      { intros Htk. apply Hhas. apply (inv_states _ _ _ _ _ Hinv). eauto. }
      assert (t ∈ nfa_all_targets A) as Htall.
      { apply (nfa_targets_all_targets A q a). rewrite Hta. by left. }
      assert (∀ l, l ⊆ ps ++ us →
                existsb (λ set, String.eqb (_getSetName set) (name1 t))
                  ((λ p, [p]) <$> l) = false) as Hex.
      { intros l Hl. apply (existsb_name_false _ _ (states dfa)); [|done].
        intros L (p & -> & Hp)%list_elem_of_fmap.
        apply (inv_states _ _ _ _ _ Hinv). exists p. split; [|done].
        by apply Hl. }
      rewrite !Hex by (intros x Hx; apply elem_of_app; tauto).
      cbn [negb andb].
      eexists _, (us ++ [t]). split.
      { by rewrite fmap_app. }
      rewrite app_assoc. apply convert_inv_addTransition; [|..|done|done|done].
      * by apply convert_inv_addState.
      * apply elem_of_app. by left.
      * apply elem_of_app. right. by left.
  - destruct Hone as [_ Hone]. specialize (Hone q a Ha).
    rewrite Hta in Hone. cbn in Hone. lia.
Qed.

(** The [for] on the symbols, for the state set of [q]. *)
Lemma convert_symbols_steps (A : Automaton NFA) q0 ps q :
  one_target A → q ∈ ps →
  ∀ symbols dfa us handled,
    (∀ a, a ∈ symbols → a ∈ alphabet A) →
    convert_inv A q0 dfa (ps ++ us) handled →
    ∃ dfa' us',
      foldl (convert_symbol A ((λ p, [p]) <$> ps) [q])
        (dfa, (λ p, [p]) <$> us) symbols
      = (dfa', (λ p, [p]) <$> us')
      ∧ convert_inv A q0 dfa' (ps ++ us')
          (λ q' a', handled q' a' ∨ (q' = q ∧ a' ∈ symbols)).
Proof.
  intros Hone Hq. induction symbols as [|a symbols IH];
    intros dfa us handled Hsym Hinv.
  - exists dfa, us. split; [done|].
    apply (convert_inv_handled A q0 dfa _ handled); [|done].
    intros q' a' [?|[_ []%elem_of_nil]]. by left.
  - cbn [foldl].
    destruct (convert_symbol_step A q0 dfa ps us handled q a Hone)
      as (dfa1 & us1 & -> & Hinv1); [apply Hsym; by left|done|done|].
    destruct (IH dfa1 us1 _ (λ a' Ha', Hsym a' (list_elem_of_further _ _ _ Ha'))
                Hinv1) as (dfa2 & us2 & -> & Hinv2).
    exists dfa2, us2. split; [done|].
    eapply convert_inv_handled; [|exact Hinv2].
    intros q' a' [?|[-> [-> | ?]%elem_of_cons]]; left; tauto.
Qed.

(** The [while] of [convertToDFA] ends within as many rounds as the table
    has targets, and one more. *)
Lemma convert_loop_spec (A : Automaton NFA) q0 :
  one_target A →
  ∀ fuel dfa ps us,
    convert_inv A q0 dfa (ps ++ us) (λ q _, q ∈ ps) →
    S (length (nfa_all_targets A)) ≤ fuel + length ps →
    ∃ dfa' known,
      convert_loop A fuel dfa ((λ p, [p]) <$> us) ((λ p, [p]) <$> ps)
      = Some dfa'
      ∧ convert_inv A q0 dfa' known (λ q _, q ∈ known).
Proof.
  intros Hone. induction fuel as [|fuel IH]; intros dfa ps us Hinv Hfuel.
  - assert (length (ps ++ us) ≤ S (length (nfa_all_targets A))) as Hlen.
    { change (S (length (nfa_all_targets A)))
        with (length (q0 :: nfa_all_targets A)).
      apply submseteq_length, NoDup_submseteq; [apply Hinv|].
      intros x [-> | Hx]%(inv_sub _ _ _ _ _ Hinv); [by left|by right]. }
    rewrite length_app in Hlen.
    destruct us as [|q us]; [|cbn in Hlen; lia].
    exists dfa, ps. split; [done|]. by rewrite app_nil_r in Hinv.
  - destruct us as [|q us].
    { exists dfa, ps. split; [done|]. by rewrite app_nil_r in Hinv. }
    cbn [fmap list_fmap]. rewrite convert_loop_step.
    replace (((λ p : string, [p]) <$> ps) ++ [[q]])
      with ((λ p : string, [p]) <$> (ps ++ [q])) by by rewrite fmap_app.
    change (ps ++ q :: us) with (ps ++ [q] ++ us) in Hinv.
    rewrite app_assoc in Hinv.
    destruct (convert_symbols_steps A q0 (ps ++ [q]) q Hone) with
      (symbols := alphabet A) (dfa := dfa) (us := us)
      (handled := λ (q' : string) (_ : string), q' ∈ ps)
      as (dfa1 & us1 & Hfold & Hinv1);
      [apply elem_of_app; right; by left|done|done|].
    cbv beta in Hfold. rewrite Hfold. cbn [fst snd].
    apply IH.
    + eapply convert_inv_handled; [|exact Hinv1].
      intros q' a'. cbv beta.
      intros [Hq' | ->%list_elem_of_singleton]%elem_of_app; [by left; left|].
      destruct (decide (a' ∈ alphabet A)); [by left; right|].
      right. split; [apply elem_of_app; left; apply elem_of_app; right; by left|].
      unfold succ_name. rewrite decide_False; [done|]. tauto.
    + rewrite length_app. cbn. lia.
Qed.

(** The new automaton reads a word from the state set of [q] as the NFA
    reads it from [q]. *)
Lemma convert_simulate (A : Automaton NFA) q0 dfa known :
  one_target A → convert_inv A q0 dfa known (λ q _, q ∈ known) →
  ∀ w q pathD pathN, q ∈ known →
    SimulationResult.accepted
      (_simulateDFA_loop
         (setAlphabet (filter (λ a, a ≠ eps) (alphabet A)) dfa)
         (name1 q) pathD w)
    = SimulationResult.accepted (_simulateNFA_loop A [q] pathN w).
Proof.
  intros Hone Hinv. induction w as [|a w IH]; intros q pathD pathN Hq.
  - cbn. rewrite orb_false_r. unfold set_has. apply bool_decide_ext.
    rewrite (inv_final _ _ _ _ _ Hinv). split.
    + by intros (q' & _ & ->%name1_inj & Hf).
    + intros Hf. eauto.
  - cbn [_simulateDFA_loop _simulateNFA_loop].
    cbn [setAlphabet alphabet]. rewrite set_has_new_Set.
    destruct (set_has a (alphabet A)) eqn:Ha.
    2:{ replace (set_has a (filter _ _)) with false; [done|].
        symmetry. apply set_has_false. rewrite list_elem_of_filter.
        apply set_has_false in Ha. tauto. }
    apply set_has_true in Ha.
    change (_epsilonClosure A (move A [q] a)) with (_getNextStates A [q] a).
    rewrite (_getNextStates_one A q a Hone Ha).
    destruct (decide (a = eps)) as [-> | He].
    { replace (set_has eps (filter _ _)) with false.
      2:{ symmetry. apply set_has_false. rewrite list_elem_of_filter. tauto. }
      destruct Hone as [Hno _]. rewrite Hno. done. }
    replace (set_has a (filter _ _)) with true.
    2:{ symmetry. apply set_has_true. by apply list_elem_of_filter. }
    cbn [negb].
    change (entry (setAlphabet _ dfa) (name1 q) a)
      with (entry dfa (name1 q) a).
    rewrite (inv_handled _ _ _ _ _ Hinv q a Hq).
    unfold succ_name. rewrite decide_True by done.
    destruct (nfa_targets A q a) as [|t [|t' l]] eqn:Hta.
    + by rewrite decide_True.
    + rewrite decide_False by done. rewrite name1_truthy.
      apply IH. by apply (inv_closed _ _ _ _ _ Hinv q a t).
    + destruct Hone as [_ Hone]. specialize (Hone q a Ha).
      rewrite Hta in Hone. cbn in Hone. lia.
Qed.

(** [one_target], read off the rows of the table. *)
Lemma one_target_table (A : Automaton NFA) :
  map_Forall (λ _ row,
    map_Forall (λ a ts, (a = eps → ts = [])
                        ∧ (a ∈ alphabet A → length ts ≤ 1))
      (row : gmap string (list string)))
    (transitions A) →
  one_target A.
Proof.
  intros Htab.
  assert (∀ q a ts, entry A q a = Some ts →
            (a = eps → ts = []) ∧ (a ∈ alphabet A → length ts ≤ 1)) as Hent.
  { intros q a ts (row & Hrow & Hts)%entry_Some.
    exact (Htab q row Hrow a ts Hts). }
  split.
  - intros q. unfold nfa_targets.
    destruct (entry A q eps) as [ts|] eqn:He; [|done].
    by apply (Hent q eps ts He).
  - intros q a Ha. unfold nfa_targets.
    destruct (entry A q a) as [ts|] eqn:He; [|cbn; lia].
    by apply (Hent q a ts He).
Qed.

(** The automaton that [convertToDFA] starts its loop with. *)
Lemma convert_inv_initial (A : Automaton NFA) q0 :
  convert_inv A q0
    (if any_final A [q0]
     then toggleFinalState (name1 q0) true
            (setInitialState (name1 q0)
               (addState (name1 q0) (new_Automaton DFA)))
     else setInitialState (name1 q0)
            (addState (name1 q0) (new_Automaton DFA)))
    ([] ++ [q0]) (λ q _, q ∈ []).
Proof.
  assert (addState (name1 q0) (new_Automaton DFA)
          = mkAutomaton [name1 q0] [] ∅ None []) as -> by done.
  assert (set_has (name1 q0) [name1 q0] = true) as Hhas
    by (apply set_has_true; by left).
  unfold setInitialState. cbn [states]. rewrite Hhas.
  cbn [alphabet transitions finalStates].
  unfold toggleFinalState. cbn [states]. rewrite Hhas.
  cbn [alphabet transitions finalStates initialState].
  unfold any_final. cbn [existsb app]. rewrite orb_false_r.
  destruct (set_has q0 (finalStates A)) eqn:Hf.
  - apply set_has_true in Hf. split; cbn [states finalStates initialState].
    + apply NoDup_singleton.
    + intros q ->%list_elem_of_singleton. by left.
    + intros n. rewrite list_elem_of_singleton. split; [intros ->|].
      * exists q0. split; [by left|done].
      * by intros (q & ->%list_elem_of_singleton & ->).
    + intros n a. by left.
    + by intros q a []%elem_of_nil.
    + by intros q a []%elem_of_nil.
    + intros n. change (set_add (name1 q0) []) with [name1 q0].
      rewrite list_elem_of_singleton. split; [intros ->|].
      * exists q0. split; [by left|done].
      * by intros (q & ->%list_elem_of_singleton & -> & _).
    + by intros q a t []%elem_of_nil.
    + done.
    + by left.
  - apply set_has_false in Hf. split; cbn [states finalStates initialState].
    + apply NoDup_singleton.
    + intros q ->%list_elem_of_singleton. by left.
    + intros n. rewrite list_elem_of_singleton. split; [intros ->|].
      * exists q0. split; [by left|done].
      * by intros (q & ->%list_elem_of_singleton & ->).
    + intros n a. by left.
    + by intros q a []%elem_of_nil.
    + by intros q a []%elem_of_nil.
    + intros n. split; [by intros []%elem_of_nil|].
      by intros (q & ->%list_elem_of_singleton & -> & ?).
    + by intros q a t []%elem_of_nil.
    + done.
    + by left.
Qed.

(** On an NFA whose table has no target for epsilon and one target at most
    for a state and a symbol of the alphabet, with an initial state that is
    not the empty string, [convertToDFA()] returns: its [while] ends within
    as many rounds as the table has targets, and one more.  The DFA that it
    returns accepts the words that the NFA accepts. *)
Theorem convertToDFA_one_target_equivalent (A : Automaton NFA) q0 fuel :
  one_target A → initialState A = Some q0 → q0 ≠ "" →
  length (nfa_all_targets A) < fuel →
  ∃ D, convertToDFA fuel A = Some D
       ∧ ∀ w, SimulationResult.accepted (simulate D w)
              = SimulationResult.accepted (simulate A w).
Proof.
  intros Hone Hinit Hq0 Hfuel.
  assert (_epsilonClosure A [q0] = [q0]) as Hcl.
  { destruct Hone as [Hno _]. by rewrite (_epsilonClosure_no_eps A _ Hno). }
  cbn [convertToDFA]. unfold convertToDFA_NFA. rewrite Hinit. cbn [mbind option_bind].
  rewrite Hcl. change (_getSetName [q0]) with (name1 q0).
  destruct (convert_loop_spec A q0 Hone fuel _ [] [q0]
              (convert_inv_initial A q0)) as (dfa & known & Hloop & Hinv);
    [cbn; lia|].
  cbn [fmap list_fmap] in Hloop. cbv zeta in Hloop. rewrite Hloop.
  eexists. split; [done|]. intros w.
  cbn [simulate]. unfold _simulateDFA, _simulateNFA.
  cbn [setAlphabet initialState]. rewrite (inv_initial _ _ _ _ _ Hinv), Hinit.
  rewrite name1_truthy, (truthy_str_true q0 Hq0), Hcl.
  apply (convert_simulate A q0 dfa known Hone Hinv).
  apply (inv_q0 _ _ _ _ _ Hinv).
Qed.

(** The NFA with the transitions q0 -a-> q1 and q1 -b-> q1 has two targets
    in its table. *)
Lemma convertToDFA_one_target_equivalent_sample :
  ∃ D, convertToDFA 3 a_then_bs = Some D
       ∧ ∀ w, SimulationResult.accepted (simulate D w)
              = SimulationResult.accepted (simulate a_then_bs w).
Proof.
  apply (convertToDFA_one_target_equivalent a_then_bs "q0" 3).
  - apply one_target_table, (bool_decide_unpack _). by vm_compute.
  - reflexivity.
  - done.
  - vm_compute. lia.
Defined.
